(** * BrokemonBattle: a shallow embedding of the battle resolution engine

    The development follows [BrokemonBattle.py]: the data classes [Move]
    and [Pokemon], the effect and status functions, the damage formula
    [compute_damage], the resolver [perform_move], the end-of-turn
    processing [apply_end_of_turn], the statistics update [update_stats],
    the switch branch of the single-active battle loops and the action
    ordering of the doubles loop; then the menus [get_menu_selection]
    and [get_multi_selection], the team selection [pick_team], the forced
    switch [prompt_switch], the enemy side of [battle_1v3], a whole turn
    of [battle_vgc] and the verdicts of [battle_pvp] and [battle_vgc].

    Modelling conventions.
    - Python [int] is [Z]; a [dict] keyed by strings is a [gmap string _];
      a team (a Python list of [Pokemon]) is a [list Pokemon].
    - Python [float] arithmetic is modelled twice.  The battle functions
      are written over exact rational arithmetic on [Q], with [int(x)]
      the truncation toward zero; the properties proved of them do not
      depend on how a double rounds.  Module [Float64] has
      [compute_damage] and [update_stats] over IEEE-754 binary64, every
      operation rounded as Python rounds it; the claims that state a
      computed value (the damage formula, the win percentage) are
      proved of these.
    - The two random draws of [compute_damage] and the paralysis draw of
      [perform_move] are explicit arguments (record [Rolls]).
    - Curses drawing, sleeping and beeping have no effect on the battle
      state and are left out; the messages [perform_move] returns are kept.
    - A raised exception is the [None] of an [option].
    - A loop that reads keys takes the keys still to come as a list; its
      outcome is a return value, a raised exception, or waiting for the
      next key. *)

From Stdlib Require Import ZArith QArith Qround Qminmax Lia Sorting.Permutation Sorting.Sorted.
From Stdlib Require Import Floats.SpecFloat.
From stdpp Require Import base strings gmap list pretty.

Local Open Scope Z_scope.

(** ** Numbers *)

(** [int(x)] for a float [x]: truncation toward zero. *)
Definition int_of_float (x : Q) : Z := Z.quot (Qnum x) (Z.pos (Qden x)).

(** [max(1, x)] for a float [x]: Python returns the first argument unless
    the second is strictly larger. *)
Definition max_1 (x : Q) : Q := if Qle_bool x 1 then 1%Q else x.

(** [x < y] on floats. *)
Definition Qlt_bool (x y : Q) : bool := negb (Qle_bool y x).

(** ** Data classes *)

(** A value stored in [Pokemon.status]: the stat modifiers store plain
    integers (a turn counter under [k], an amount under [k_amt]); poison
    and burn store the dict [{'dmg': d, 'turns': t}] and paralysis the
    dict [{'turns': t}]. *)
Inductive StatusValue :=
| VInt (n : Z)
| VDict (dmg : option Z) (turns : Z).

#[global] Instance StatusValue_eq_dec : EqDecision StatusValue.
Proof. solve_decision. Defined.

(** Which argument of the hook an effect function is called on. *)
Inductive Target := OnAttacker | OnDefender.

(** What a hook hands back to [perform_move] when it returns a non-empty
    tuple: the tuple's tag and arguments. *)
Inductive TupleResult :=
| TDefLower (target : Target) (amount turns : Z)
| TPercentMaxHp (percent : Z)
| TDoubleHitIfFaster
| TBonusDamageIfHpAbove (threshold : Z)
| TOther.

(** [Move.effect] is a callable [(stdscr, color_mgr, attacker, defender)].
    Every hook of the roster is a lambda that calls one effect function on
    one of its two combatants; [perform_move] moreover understands hooks
    that do nothing but return a tagged tuple. *)
Inductive Hook :=
| HDefLower (t : Target) (amount turns : Z)
| HDefBoost (t : Target) (amount turns : Z)
| HSpeedBoost (t : Target) (amount turns : Z)
| HAtkBoost (t : Target) (amount turns : Z)
| HPoison (t : Target) (dmg_per_turn turns : Z)
| HParalysis (t : Target) (turns : Z)
| HBurn (t : Target) (dmg_per_turn turns : Z)
| HHeal (t : Target) (amount : Z)
| HPercentMaxHp (t : Target) (percent : Z)
| HBonusDamageIfHpAbove (threshold : Z)
| HTuple (r : TupleResult).

Record Move := mkMove {
  move_name : string;
  power : Z;
  energy_cost : Z;
  category : string;
  effect : option Hook
}.

Record Pokemon := mkPokemon {
  name : string;
  lvl : Z;
  max_hp : Z;
  atk : Z;
  dfns : Z;
  spd : Z;
  energy_max : Z;
  moves : list Move;
  hp : Z;
  energy : Z;
  status : gmap string StatusValue
}.

(** [Pokemon(...)] followed by [__post_init__]: full HP, full energy, an
    empty status dict. *)
Definition new_pokemon (n : string) (l mh a d s em : Z) (ms : list Move) : Pokemon :=
  mkPokemon n l mh a d s em ms mh em ∅.

Definition alive (p : Pokemon) : bool := 0 <? hp p.

Definition set_hp (p : Pokemon) (h : Z) : Pokemon :=
  mkPokemon (name p) (lvl p) (max_hp p) (atk p) (dfns p) (spd p)
            (energy_max p) (moves p) h (energy p) (status p).

Definition set_energy (p : Pokemon) (e : Z) : Pokemon :=
  mkPokemon (name p) (lvl p) (max_hp p) (atk p) (dfns p) (spd p)
            (energy_max p) (moves p) (hp p) e (status p).

Definition set_status (p : Pokemon) (st : gmap string StatusValue) : Pokemon :=
  mkPokemon (name p) (lvl p) (max_hp p) (atk p) (dfns p) (spd p)
            (energy_max p) (moves p) (hp p) (energy p) st.

(** [status.get(key, 0)] read as an integer.  Only the three keys
    [poison], [burn] and [paralysis] ever hold a dict, and they are never
    read through this function, so the [VDict] arm is not reached. *)
Definition status_get (st : gmap string StatusValue) (key : string) : Z :=
  match st !! key with
  | Some (VInt n) => n
  | _ => 0
  end.

(** ** Effects / status functions *)

(** The common body of [def_lower], [def_boost], [atk_boost] and of each
    branch of [speed_boost]:
    [status[key] = status.get(key, 0) + turns] and then
    [status[key_amt] = status.get(key_amt, 0) + amount]. *)
Definition stack_modifier (key : string) (pokemon : Pokemon) (amount turns : Z) : Pokemon :=
  let st := <[key := VInt (status_get (status pokemon) key + turns)]> (status pokemon) in
  let key_amt := key +:+ "_amt" in
  set_status pokemon (<[key_amt := VInt (status_get st key_amt + amount)]> st).

Definition def_lower (pokemon : Pokemon) (amount turns : Z) : Pokemon :=
  stack_modifier "def_down" pokemon amount turns.

Definition def_boost (pokemon : Pokemon) (amount turns : Z) : Pokemon :=
  stack_modifier "def_up" pokemon amount turns.

Definition speed_boost (pokemon : Pokemon) (amount turns : Z) : Pokemon :=
  if 0 <? amount then stack_modifier "spd_up" pokemon amount turns
  else stack_modifier "spd_down" pokemon (Z.abs amount) turns.

Definition atk_boost (pokemon : Pokemon) (amount turns : Z) : Pokemon :=
  stack_modifier "atk_up" pokemon amount turns.

Definition apply_poison (target : Pokemon) (dmg_per_turn turns : Z) : Pokemon :=
  set_status target (<["poison" := VDict (Some dmg_per_turn) turns]> (status target)).

Definition apply_paralysis (target : Pokemon) (turns : Z) : Pokemon :=
  set_status target (<["paralysis" := VDict None turns]> (status target)).

Definition apply_burn (target : Pokemon) (dmg_per_turn turns : Z) : Pokemon :=
  set_status target (<["burn" := VDict (Some dmg_per_turn) turns]> (status target)).

Definition heal (pokemon : Pokemon) (amount : Z) : Pokemon :=
  set_hp pokemon (Z.min (max_hp pokemon) (hp pokemon + amount)).

(** [dmg = int(target.max_hp * (percent / 100))]. *)
Definition percent_max_hp_amount (target : Pokemon) (percent : Z) : Z :=
  int_of_float (inject_Z (max_hp target) * (inject_Z percent / 100))%Q.

Definition deal_percent_max_hp (target : Pokemon) (percent : Z) : Pokemon :=
  set_hp target (Z.max 0 (hp target - percent_max_hp_amount target percent)).

Definition double_hit_if_faster (attacker defender : Pokemon) : Z :=
  if spd defender <? spd attacker then 2 else 1.

(** [hp_percent = (defender.hp / defender.max_hp) * 100]; the division
    raises [ZeroDivisionError] when [max_hp] is 0. *)
Definition bonus_damage_if_hp_above (attacker defender : Pokemon) (threshold : Z) : option Z :=
  if max_hp defender =? 0 then None
  else
    let hp_percent := ((inject_Z (hp defender) / inject_Z (max_hp defender)) * 100)%Q in
    if Qle_bool (inject_Z threshold) hp_percent then Some 2 else Some 1.

(** ** Damage formula *)

(** [compute_damage]; [variance] is the value of
    [random.uniform(0.85, 1.15)] and [crit_roll] the value of
    [random.random()].  A move of power 0 or less draws no random number. *)
Definition compute_damage (attacker defender : Pokemon) (move : Move)
    (variance crit_roll : Q) : Z * bool :=
  let base := power move in
  if base <=? 0 then (0, false)
  else
    let def_effective := dfns defender in
    let def_effective :=
      if 0 <? status_get (status defender) "def_down"
      then Z.max 1 (def_effective - status_get (status defender) "def_down_amt")
      else def_effective in
    let def_effective :=
      if 0 <? status_get (status defender) "def_up"
      then def_effective + status_get (status defender) "def_up_amt"
      else def_effective in
    let atk_effective := atk attacker in
    let atk_effective :=
      if 0 <? status_get (status attacker) "atk_up"
      then atk_effective + status_get (status attacker) "atk_up_amt"
      else atk_effective in
    let ratio := (inject_Z atk_effective / inject_Z (Z.max 1 def_effective))%Q in
    let raw := (inject_Z base * ratio)%Q in
    let raw := (raw * (1 + inject_Z (lvl attacker - lvl defender) * (5 # 1000)))%Q in
    let dmg := int_of_float (max_1 (raw * variance)%Q) in
    let crit := Qlt_bool crit_roll (7 # 100) in
    let dmg := if crit then int_of_float (inject_Z dmg * (18 # 10))%Q else dmg in
    (dmg, crit).

(** ** Move resolution *)

(** [animate_hp_drain]: the frames only redraw; the HP the target is left
    with is [end_hp], or its old HP when there is nothing to lose. *)
Definition animate_hp_drain (target_pokemon : Pokemon) (damage : Z) : Pokemon :=
  let start_hp := hp target_pokemon in
  let end_hp := Z.max 0 (start_hp - damage) in
  let hp_lost := start_hp - end_hp in
  if hp_lost <=? 0 then target_pokemon else set_hp target_pokemon end_hp.

Definition on_target (t : Target) (f : Pokemon -> Pokemon)
    (attacker defender : Pokemon) : Pokemon * Pokemon :=
  match t with
  | OnAttacker => (f attacker, defender)
  | OnDefender => (attacker, f defender)
  end.

(** Calling [move.effect(stdscr, color_mgr, attacker, defender)]: the two
    combatants after the call and the tuple returned, if the hook returns
    one; [None] when the call raises. *)
Definition call_effect (h : Hook) (attacker defender : Pokemon)
    : option (Pokemon * Pokemon * option TupleResult) :=
  match h with
  | HDefLower t amount turns =>
      Some (on_target t (fun p => def_lower p amount turns) attacker defender, None)
  | HDefBoost t amount turns =>
      Some (on_target t (fun p => def_boost p amount turns) attacker defender, None)
  | HSpeedBoost t amount turns =>
      Some (on_target t (fun p => speed_boost p amount turns) attacker defender, None)
  | HAtkBoost t amount turns =>
      Some (on_target t (fun p => atk_boost p amount turns) attacker defender, None)
  | HPoison t dmg_per_turn turns =>
      Some (on_target t (fun p => apply_poison p dmg_per_turn turns) attacker defender, None)
  | HParalysis t turns =>
      Some (on_target t (fun p => apply_paralysis p turns) attacker defender, None)
  | HBurn t dmg_per_turn turns =>
      Some (on_target t (fun p => apply_burn p dmg_per_turn turns) attacker defender, None)
  | HHeal t amount =>
      Some (on_target t (fun p => heal p amount) attacker defender, None)
  | HPercentMaxHp t percent =>
      Some (on_target t (fun p => deal_percent_max_hp p percent) attacker defender, None)
  | HBonusDamageIfHpAbove threshold =>
      match bonus_damage_if_hp_above attacker defender threshold with
      | Some _ => Some (attacker, defender, None)
      | None => None
      end
  | HTuple r => Some (attacker, defender, Some r)
  end.

(** The random numbers one call of [perform_move] may draw, in the order
    it draws them. *)
Record Rolls := mkRolls {
  para_roll : Q;
  variance1 : Q;
  crit_roll1 : Q;
  variance2 : Q;
  crit_roll2 : Q
}.

Definition lower_ascii (c : Ascii.ascii) : Ascii.ascii :=
  let n := Ascii.nat_of_ascii c in
  if ((65 <=? n) && (n <=? 90))%nat then Ascii.ascii_of_nat (n + 32) else c.

(** [s.lower()] on an ASCII string. *)
Fixpoint lower (s : string) : string :=
  match s with
  | EmptyString => EmptyString
  | String c s' => String (lower_ascii c) (lower s')
  end.

(** [sub in s]. *)
Fixpoint contains (sub s : string) : bool :=
  String.prefix sub s ||
  match s with
  | EmptyString => false
  | String _ s' => contains sub s'
  end.

(** The message a pure status move ends with, chosen from its name. *)
Definition status_move_message (attacker defender : Pokemon) (move : Move) : string :=
  let n := lower (move_name move) in
  if contains "heal" n then name attacker +:+ " recovered HP!"
  else if contains "defense" n && negb (contains "lower" n)
       then name attacker +:+ "'s defense rose!"
  else if contains "speed" n then
       if contains "boost" n || contains "raise" n
       then name attacker +:+ "'s speed rose!"
       else name defender +:+ "'s speed fell!"
  else if contains "poison" n then name defender +:+ " was poisoned!"
  else if contains "burn" n || contains "fire" n then name defender +:+ " was burned!"
  else if contains "paralyze" n || contains "shock" n || contains "thunder" n
       then name defender +:+ " was paralyzed!"
  else if contains "curse" n then name defender +:+ "'s defense fell!"
  else if contains "memory corruption" n then name defender +:+ "'s defense was corrupted!"
  else move_name move +:+ " took effect!".

(** [paralysis and isinstance(paralysis, dict) and paralysis.get('turns', 0) > 0]. *)
Definition is_paralyzed (p : Pokemon) : bool :=
  match status p !! "paralysis" with
  | Some (VDict _ turns) => 0 <? turns
  | _ => false
  end.

(** The status branch of [perform_move], after the energy was deducted. *)
Definition resolve_status_move (attacker defender : Pokemon) (move : Move)
    (messages : list string) : option (Pokemon * Pokemon * list string) :=
  match effect move with
  | None => Some (attacker, defender, messages ++ [status_move_message attacker defender move])
  | Some h =>
      match call_effect h attacker defender with
      | None =>
          (* [except:] calls the hook once more; it raises again *)
          None
      | Some (attacker, defender, result) =>
          let '(attacker, defender, messages) :=
            match result with
            | Some (TDefLower t amount turns) =>
                let '(a, d) := on_target t (fun p => def_lower p amount turns) attacker defender in
                let target := match t with OnAttacker => attacker | OnDefender => defender end in
                (a, d, messages ++ [name target +:+ "'s defense fell!"])
            | Some (TPercentMaxHp percent) =>
                (attacker, deal_percent_max_hp defender percent,
                 messages ++ ["HP overflow damage dealt!"])
            | _ => (attacker, defender, messages)
            end in
          Some (attacker, defender, messages ++ [status_move_message attacker defender move])
      end
  end.

(** The damage branch of [perform_move], after the energy was deducted. *)
Definition resolve_damage_move (attacker defender : Pokemon) (move : Move)
    (r : Rolls) (messages : list string) : Pokemon * Pokemon * list string :=
  let '(dmg, crit) := compute_damage attacker defender move (variance1 r) (crit_roll1 r) in
  let '(attacker, defender, dmg, messages) :=
    match effect move with
    | None => (attacker, defender, dmg, messages)
    | Some h =>
        match call_effect h attacker defender with
        | None => (* [except: pass] *) (attacker, defender, dmg, messages)
        | Some (attacker, defender, result) =>
            match result with
            | Some TDoubleHitIfFaster =>
                let hits := double_hit_if_faster attacker defender in
                if 1 <? hits then
                  let messages := messages ++ ["Struck " +:+ pretty hits +:+ " times!"] in
                  let additional_dmg :=
                    fst (compute_damage attacker defender move (variance2 r) (crit_roll2 r)) in
                  let defender := set_hp defender (Z.max 0 (hp defender - additional_dmg)) in
                  (attacker, defender, dmg + additional_dmg, messages)
                else (attacker, defender, dmg, messages)
            | Some (TBonusDamageIfHpAbove threshold) =>
                match bonus_damage_if_hp_above attacker defender threshold with
                | Some multiplier =>
                    if 1 <? multiplier
                    then (attacker, defender, dmg * multiplier,
                          messages ++ ["KERNEL PANIC! Damage doubled!"])
                    else (attacker, defender, dmg, messages)
                | None => (* [except: pass] *) (attacker, defender, dmg, messages)
                end
            | Some (TPercentMaxHp percent) =>
                (attacker, deal_percent_max_hp defender percent, 0,
                 messages ++ ["Overflow damage dealt!"])
            | _ => (attacker, defender, dmg, messages)
            end
        end
    end in
  let '(defender, messages) :=
    if 0 <? dmg then
      (animate_hp_drain defender dmg,
       messages ++ [if crit then "Critical hit! Dealt " +:+ pretty dmg +:+ " damage!"
                    else "Dealt " +:+ pretty dmg +:+ " damage!"])
    else (defender, messages) in
  let messages :=
    if alive defender then messages else messages ++ [name defender +:+ " fainted!"] in
  (attacker, defender, messages).

(** [perform_move]: the attacker and the defender (two distinct objects)
    after the call, and the returned messages. *)
Definition perform_move (attacker defender : Pokemon) (move : Move) (r : Rolls)
    : option (Pokemon * Pokemon * list string) :=
  if is_paralyzed attacker && Qlt_bool (para_roll r) (25 # 100) then
    Some (attacker, defender, [name attacker +:+ " is fully paralyzed!"])
  else if energy attacker <? energy_cost move then
    Some (attacker, defender,
          [name attacker +:+ " tried to use " +:+ move_name move +:+ " but lacked energy!"])
  else
    let attacker := set_energy attacker (Z.max 0 (energy attacker - energy_cost move)) in
    let messages := [name attacker +:+ " used " +:+ move_name move +:+ "!"] in
    if String.eqb (category move) "status"
    then resolve_status_move attacker defender move messages
    else Some (resolve_damage_move attacker defender move r messages).

(** ** End-of-turn processing *)

(** [s.endswith(suffix)]. *)
Fixpoint endswith (s suffix : string) : bool :=
  String.eqb s suffix ||
  match s with
  | EmptyString => false
  | String _ s' => endswith s' suffix
  end.

(** The poison block, and the burn block, of [apply_end_of_turn]:
    [dmg = d.get('dmg', 0)], the HP loss, the decrement of [d['turns']]
    and the [pop] once it is 0 or less. *)
Definition tick_damage_over_time (key : string) (poke : Pokemon) : Pokemon :=
  match status poke !! key with
  | Some (VDict dmg turns) =>
      if 0 <? turns then
        let poke := set_hp poke (Z.max 0 (hp poke - default 0 dmg)) in
        if turns - 1 <=? 0
        then set_status poke (delete key (status poke))
        else set_status poke (<[key := VDict dmg (turns - 1)]> (status poke))
      else poke
  | _ => poke
  end.

(** The keys the duration loop passes over with [continue]. *)
Definition skipped_key (key : string) : bool :=
  endswith key "_amt" || bool_decide (key ∈ ["poison"; "burn"; "paralysis"]).

(** One iteration of [for key in list(poke.status.keys())]. *)
Definition decrement_key (st : gmap string StatusValue) (key : string)
    : gmap string StatusValue :=
  if skipped_key key then st
  else
    match st !! key with
    | Some (VInt n) =>
        if n - 1 <=? 0
        then delete (key +:+ "_amt") (delete key st)
        else <[key := VInt (n - 1)]> st
    | _ => st
    end.

(** The duration loop over a snapshot [keys] of the dict's keys. *)
Definition decrement_keys (keys : list string) (st : gmap string StatusValue)
    : gmap string StatusValue :=
  foldl decrement_key st keys.

Definition decrement_durations (poke : Pokemon) : Pokemon :=
  set_status poke (decrement_keys (map_to_list (status poke)).*1 (status poke)).

(** The paralysis block: no damage, only the counter. *)
Definition tick_paralysis (poke : Pokemon) : Pokemon :=
  match status poke !! "paralysis" with
  | Some (VDict dmg turns) =>
      if 0 <? turns then
        if turns - 1 <=? 0
        then set_status poke (delete "paralysis" (status poke))
        else set_status poke (<["paralysis" := VDict dmg (turns - 1)]> (status poke))
      else poke
  | _ => poke
  end.

Definition apply_end_of_turn (poke : Pokemon) : Pokemon :=
  if negb (alive poke) then poke
  else
    let poke := tick_damage_over_time "poison" poke in
    let poke := tick_damage_over_time "burn" poke in
    let poke := decrement_durations poke in
    tick_paralysis poke.

(** ** Energy regeneration and the switch action *)

(** [p.energy = min(p.energy_max, p.energy + k)]: [k] is 8 on a switch,
    5 on a pass and 3 at the end of a turn. *)
Definition regain_energy (k : Z) (p : Pokemon) : Pokemon :=
  set_energy p (Z.min (energy_max p) (energy p + k)).

(** The state the single-active loops [battle_pvp] and [battle_1v3] keep:
    the two teams and the index of each side's active combatant. *)
Record BattleState := mkBattle {
  player1_team : list Pokemon;
  player2_team : list Pokemon;
  p1_idx : nat;
  p2_idx : nat
}.

Inductive Player := Player1 | Player2.

(** The [elif action == "switch"] branch of [battle_pvp], for the player
    whose turn it is: the index returned by [get_player_action] becomes
    the active index and [team[idx].energy] grows by 8 up to
    [energy_max].  Indexing past the end of the team raises. *)
Definition pvp_switch (who : Player) (new_idx : nat) (b : BattleState) : option BattleState :=
  match who with
  | Player1 =>
      match player1_team b !! new_idx with
      | Some p =>
          Some (mkBattle (<[new_idx := regain_energy 8 p]> (player1_team b))
                         (player2_team b) new_idx (p2_idx b))
      | None => None
      end
  | Player2 =>
      match player2_team b !! new_idx with
      | Some p =>
          Some (mkBattle (player1_team b)
                         (<[new_idx := regain_energy 8 p]> (player2_team b))
                         (p1_idx b) new_idx)
      | None => None
      end
  end.

(** The same branch of [battle_1v3]; only the player (side 1) switches,
    the enemy side is replaced automatically. *)
Definition gauntlet_switch (new_p1_idx : nat) (b : BattleState) : option BattleState :=
  match player1_team b !! new_p1_idx with
  | Some p =>
      Some (mkBattle (<[new_p1_idx := regain_energy 8 p]> (player1_team b))
                     (player2_team b) new_p1_idx (p2_idx b))
  | None => None
  end.

(** ** Roster

    The 21 roster entries: name, level, max HP, attack, defense, speed,
    max energy and the four moves (name, power, energy cost, category,
    hook).  Descriptions and ASCII art are display data. *)

Definition cbroman : Pokemon :=
  new_pokemon "Cbroman" 104 1758 1824 1102 1387 1406
    [ mkMove "Lightning Rush" 40 81 "special" None;
      mkMove "Broman's Curse" 0 38 "status" (Some (HDefLower OnDefender 2 3));
      mkMove "Thunder Shock" 35 59 "special-status" (Some (HParalysis OnDefender 4));
      mkMove "Breezing Thunder Shivering" 80 119 "mystical-special" None ].

Definition ishowpig : Pokemon :=
  new_pokemon "HappyPIG" 115 1943 2016 1218 1533 1554
    [ mkMove "Scream-Louder-n-Louder" 30 89 "special" None;
      mkMove "SnakeGambit Rush" 60 42 "mystical-special" None;
      mkMove "HomelessShot" 25 65 "physical" None;
      mkMove "7 Goals" 95 131 "mystical-special" None ].

Definition emberfox : Pokemon :=
  new_pokemon "Emberfox" 99 1665 1728 1044 1314 1332
    [ mkMove "Ember Flick" 90 77 "special-status" (Some (HBurn OnDefender 8 5));
      mkMove "Fox Dash" 18 36 "physical" None;
      mkMove "Heat Mirage" 0 56 "status" (Some (HSpeedBoost OnAttacker 1 3));
      mkMove "Flame Nova" 120 113 "mystical-special" None ].

Definition shelltron : Pokemon :=
  new_pokemon "Shelltron" 121 2035 2112 1276 1606 1628
    [ mkMove "Shell Bash" 28 94 "physical" None;
      mkMove "Aqua Reflex" 25 44 "special" None;
      mkMove "Fortify" 0 68 "status" (Some (HDefBoost OnAttacker 2 3));
      mkMove "Tidal Crush" 95 138 "mystical-special" (Some (HPercentMaxHp OnDefender 70)) ].

Definition mossgoliath : Pokemon :=
  new_pokemon "Mossgoliath" 107 1813 1882 1137 1431 1450
    [ mkMove "Vine Crack" 30 83 "physical" None;
      mkMove "Spore Haze" 0 39 "status" (Some (HPoison OnDefender 6 3));
      mkMove "Stone Root" 45 61 "special" None;
      mkMove "Earth Rend" 85 123 "mystical-special" None ].

Definition aquabyte : Pokemon :=
  new_pokemon "AquaByte" 101 1702 1766 1067 1343 1362
    [ mkMove "Bubble Punch" 22 78 "physical" None;
      mkMove "Data Wave" 40 37 "special" None;
      mkMove "System Cleanse" 0 57 "status" (Some (HHeal OnAttacker 40));
      mkMove "Cyber Torrent" 68 115 "mystical-special" None ].

Definition voltaicor : Pokemon :=
  new_pokemon "Voltaicor" 114 1924 1997 1206 1518 1539
    [ mkMove "Air Slice" 110 88 "physical" None;
      mkMove "Static Field" 0 42 "status" (Some (HParalysis OnDefender 5));
      mkMove "Bleed Wind" 90 64 "special-status" (Some (HPoison OnDefender 60 5));
      mkMove "Sky Verdict" 210 130 "mystical-special" None ].

Definition shadowalker : Pokemon :=
  new_pokemon "Shadowalker" 108 1832 1901 1148 1445 1465
    [ mkMove "Shadow Sneak" 40 84 "physical" None;
      mkMove "Evasion" 0 40 "status" (Some (HDefBoost OnAttacker 2 3));
      mkMove "Night Slash" 72 61 "physical" None;
      mkMove "Abyssal Blade" 95 124 "mystical-special" None ].

Definition codezilla : Pokemon :=
  new_pokemon "CodeZilla" 112 1887 1958 1583 1489 1510
    [ mkMove "Syntax Error" 255 187 "special" (Some (HPercentMaxHp OnDefender 38));
      mkMove "Git Push Force" 390 141 "physical" None;
      mkMove "Spaghetti Code" 0 63 "status" (Some (HDefLower OnDefender 2 3));
      mkMove "Debug Strike" 35 127 "physical" None ].

Definition chaddoge : Pokemon :=
  new_pokemon "ChadDoge" 103 1739 1805 1090 1372 1391
    [ mkMove "Much Wow" 35 80 "special" None;
      mkMove "HODL Defense" 0 38 "status" (Some (HDefBoost OnAttacker 2 3));
      mkMove "Moon Rocket" 540 98 "mystical-special" None;
      mkMove "Bork" 210 118 "physical" None ].

Definition gigapixel : Pokemon :=
  new_pokemon "GigaPixel" 116 1961 2035 1230 1548 1569
    [ mkMove "Resolution Drop" 45 90 "special" None;
      mkMove "Sprite Crash" 40 42 "physical" None;
      mkMove "RGB Split" 115 66 "mystical-special" None;
      mkMove "Frame Skip" 0 133 "status" (Some (HSpeedBoost OnAttacker 1 3)) ].

Definition nullvoid : Pokemon :=
  new_pokemon "NullVoid" 106 1795 1862 1125 1416 1436
    [ mkMove "Blue Screen" 110 82 "mystical-special" None;
      mkMove "Data Leak" 80 39 "special" None;
      mkMove "Lag Spike" 0 60 "status" (Some (HSpeedBoost OnDefender (-1) 3));
      mkMove "Ping" 30 121 "physical" None ].

Definition LoraValora : Pokemon :=
  new_pokemon "LoraValora" 113 1906 1978 1195 1504 1524
    [ mkMove "Valor Strike" 490 88 "mystical-special" None;
      mkMove "Lora's Blessing" 0 41 "status" (Some (HHeal OnAttacker 750));
      mkMove "Courageous Roar" 60 64 "special" None;
      mkMove "Shield of Honor" 0 129 "status" (Some (HDefBoost OnAttacker 108 18)) ].

Definition SuddyyModa : Pokemon :=
  new_pokemon "Suddymoodda" 102 2021 2186 1999 1358 1176
    [ mkMove "KillerStrike" 380 79 "special" (Some (HPercentMaxHp OnDefender 40));
      mkMove "Bloodlust" 100 37 "physical" None;
      mkMove "Heal" 0 58 "status" (Some (HHeal OnAttacker 100));
      mkMove "KILL" 400 116 "mystical-special" None ].

Definition GigaCodes : Pokemon :=
  new_pokemon "GigaCodes" 117 2080 2254 2001 1562 1284
    [ mkMove "Code Blast" 290 91 "special" (Some (HPercentMaxHp OnDefender 40));
      mkMove "Compile Error" 0 43 "status" (Some (HDefLower OnDefender 125 6));
      mkMove "Binary Strike" 190 66 "physical" None;
      mkMove "Algorithm Overload" 370 194 "status-special" (Some (HHeal OnAttacker 990)) ].

Definition CuteWings : Pokemon :=
  new_pokemon "CuteWings" 105 1976 1999 1414 1402 1421
    [ mkMove "Dusty Waves" 80 82 "special" (Some (HPercentMaxHp OnDefender 25));
      mkMove "Feather Stake" 50 38 "status" (Some (HSpeedBoost OnDefender 132 4));
      mkMove "Wing Power" 120 60 "physical-status" (Some (HPoison OnDefender 370 5));
      mkMove "Will of the Wings" 230 120 "mystical-special-status" (Some (HDefBoost OnAttacker 180 5)) ].

Definition HexaBreak : Pokemon :=
  new_pokemon "HexaBreak" 110 1850 1920 1160 1460 1480
    [ mkMove "Overflow Strike" 180 85 "physical" (Some (HPercentMaxHp OnDefender 36));
      mkMove "Memory Corruption" 200 40 "status-special" (Some (HDefLower OnDefender 42 4));
      mkMove "ClockCycle Slash" 95 62 "physical" (Some (HPoison OnDefender 120 7));
      mkMove "Kernel Panic" 220 125 "mystical-special" (Some (HBonusDamageIfHpAbove 20)) ].

Definition Atackker : Pokemon :=
  new_pokemon "Atackker" 97 1847 2029 1132 1299 1317
    [ mkMove "Attack Mode" 150 76 "physical" (Some (HDefBoost OnAttacker 250 8));
      mkMove "Power Boost" 200 36 "status-physical" (Some (HAtkBoost OnAttacker 300 4));
      mkMove "Energy Drain" 120 55 "special-status" (Some (HHeal OnAttacker 200));
      mkMove "Final Strike" 350 111 "mystical-special" (Some (HBonusDamageIfHpAbove 30)) ].

Definition SkyRazor : Pokemon :=
  new_pokemon "SkyRazor" 114 1924 1997 1206 1518 1539
    [ mkMove "Lightning Strike" 110 88 "physical-status" (Some (HParalysis OnDefender 3));
      mkMove "Pressure Dive" 0 42 "status" (Some (HDefLower OnDefender 40 4));
      mkMove "Bleed Wind" 90 64 "special-status" (Some (HPoison OnDefender 60 4));
      mkMove "Sky Verdict" 210 130 "mystical-special" None ].

Definition BronBull : Pokemon :=
  new_pokemon "BronBULL" 110 2200 2120 2160 1460 1180
    [ mkMove "Steel Claw OF the WRATH" 100 85 "physical-status" (Some (HHeal OnDefender 340));
      mkMove "Guard Stance" 0 40 "status" (Some (HDefBoost OnAttacker 90 7));
      mkMove "Flaming Breath" 100 62 "special-status" (Some (HBurn OnDefender 12 6));
      mkMove "Devestating Raid" 220 125 "mystical-special-status" (Some (HPercentMaxHp OnDefender 50)) ].

Definition MetaGross : Pokemon :=
  new_pokemon "MetaGross" 200 2458 2570 2333 1466 1790
    [ mkMove "Meteor mash" 230 120 "physical" None;
      mkMove "Bullet Punch" 180 100 "physical-status" (Some (HParalysis OnDefender 3));
      mkMove "Hyper Beam" 280 200 "special-status" (Some (HBurn OnDefender 90 5));
      mkMove "Zen Headbutt" 140 100 "special-physical" (Some (HPercentMaxHp OnDefender 45)) ].

Definition ROSTER : list Pokemon :=
  [cbroman; ishowpig; emberfox; shelltron; mossgoliath; aquabyte;
   voltaicor; shadowalker; codezilla; chaddoge; gigapixel; nullvoid;
   LoraValora; SuddyyModa; GigaCodes; CuteWings; HexaBreak; Atackker;
   SkyRazor; BronBull; MetaGross].

(** ** Statistics *)

(** One entry of the statistics dict:
    [{"wins": _, "losses": _, "matches": _, "win_percentage": _}]. *)
Record StatRecord := mkStat {
  wins : Z;
  losses : Z;
  matches : Z;
  win_percentage : Q
}.

Definition new_record : StatRecord := mkStat 0 0 0 0.

(** [round(x, 2)]: the nearest multiple of 1/100, ties to the even one. *)
Definition round_2 (x : Q) : Q :=
  let y := (x * 100)%Q in
  let n := Qfloor y in
  let frac := (y - inject_Z n)%Q in
  let m :=
    if Qlt_bool frac (1 # 2) then n
    else if Qlt_bool (1 # 2) frac then n + 1
    else if Z.even n then n else n + 1 in
  (inject_Z m / 100)%Q.

(** [if name not in stats: stats[name] = {...zeros...}]. *)
Definition ensure_record (n : string) (stats : gmap string StatRecord)
    : gmap string StatRecord :=
  match stats !! n with
  | Some _ => stats
  | None => <[n := new_record]> stats
  end.

Definition record_win (r : StatRecord) : StatRecord :=
  mkStat (wins r + 1) (losses r) (matches r + 1) (win_percentage r).

Definition record_loss (r : StatRecord) : StatRecord :=
  mkStat (wins r) (losses r + 1) (matches r + 1) (win_percentage r).

(** The body of the final loop of [update_stats] for one entry. *)
Definition refresh_percentage (r : StatRecord) : StatRecord :=
  mkStat (wins r) (losses r) (matches r)
         (if 0 <? matches r
          then round_2 ((inject_Z (wins r) / inject_Z (matches r)) * 100)%Q
          else 0%Q).

Definition update_stats (stats : gmap string StatRecord)
    (winner_pokemon loser_pokemon : Pokemon) : gmap string StatRecord :=
  let stats := ensure_record (name winner_pokemon) stats in
  let stats := alter record_win (name winner_pokemon) stats in
  let stats := ensure_record (name loser_pokemon) stats in
  let stats := alter record_loss (name loser_pokemon) stats in
  refresh_percentage <$> stats.

(** ** Doubles: collecting and ordering the actions of a turn *)

(** The [type] of an action dict together with the keys that type
    carries. *)
Inductive ActionType :=
| ActAttack (move : Move) (target : Pokemon)
| ActStatus (move : Move)
| ActSwitch (new_pokemon : Pokemon)
| ActPass.

(** An action dict.  Its [pokemon] entry refers to the acting combatant;
    the ordering reads only the [spd] field of that combatant, which is
    never assigned after construction. *)
Record Action := mkAction {
  act_type : ActionType;
  act_pokemon : Pokemon;
  act_slot : nat
}.

(** The action [get_vgc_action] returns for the combatant in slot
    [slot_idx]: what the player picks is [choice]. *)
Definition get_vgc_action (choice : Player -> nat -> ActionType)
    (who : Player) (pokemon : Pokemon) (slot_idx : nat) : Action :=
  mkAction (choice who slot_idx) pokemon slot_idx.

(** One iteration of [for slot_idx in range(2)]: a slot yields an action
    when it exists, names a team member, and that member is alive. *)
Definition slot_action (choice : Player -> nat -> ActionType) (who : Player)
    (team : list Pokemon) (active : list nat) (slot_idx : nat) : list Action :=
  match active !! slot_idx with
  | Some idx =>
      match team !! idx with
      | Some pokemon =>
          if alive pokemon then [get_vgc_action choice who pokemon slot_idx] else []
      | None => []
      end
  | None => []
  end.

Definition side_actions (choice : Player -> nat -> ActionType) (who : Player)
    (team : list Pokemon) (active : list nat) : list Action :=
  slot_action choice who team active 0 ++ slot_action choice who team active 1.

(** [all_actions = p1_actions + p2_actions]. *)
Definition all_actions (choice : Player -> nat -> ActionType)
    (team1 team2 : list Pokemon) (p1_active p2_active : list nat) : list Action :=
  side_actions choice Player1 team1 p1_active ++ side_actions choice Player2 team2 p2_active.

Definition action_speed (a : Action) : Z := spd (act_pokemon a).

(** Insertion into a list sorted by descending key, behind every element
    whose key is strictly larger and in front of the others. *)
Fixpoint insert_desc {A : Type} (key : A -> Z) (x : A) (l : list A) : list A :=
  match l with
  | [] => [x]
  | y :: l' => if key y <=? key x then x :: l else y :: insert_desc key x l'
  end.

(** [l.sort(key=key, reverse=True)]: Python's sort is stable and
    [reverse=True] keeps elements with equal keys in their original
    order. *)
Definition sort_desc {A : Type} (key : A -> Z) (l : list A) : list A :=
  foldr (insert_desc key) [] l.

(** The order in which the resolution loop of [battle_vgc] visits the
    actions of one turn.  The loop body calls [perform_move] for the
    entries of type [attack]; the other entries are passed over. *)
Definition resolution_order (choice : Player -> nat -> ActionType)
    (team1 team2 : list Pokemon) (p1_active p2_active : list nat) : list Action :=
  sort_desc action_speed (all_actions choice team1 team2 p1_active p2_active).

(** ** The damage formula as the specification words it *)

(** The stacked amount of a modifier kind: it counts while the kind's turn
    counter is positive. *)
Definition stacked_amount (st : gmap string StatusValue) (kind : string) : Z :=
  if 0 <? status_get st kind then status_get st (kind +:+ "_amt") else 0.

(** The arithmetic of the formula once the effective defense and attack
    are known: [ratio], [raw], the variance, the floor and the critical
    multiplier. *)
Definition formula_damage (def_eff atk_eff base lvl_diff : Z) (variance crit_roll : Q) : Z :=
  let ratio := (inject_Z atk_eff / inject_Z (Z.max 1 def_eff))%Q in
  let raw := (inject_Z base * ratio * (1 + (5 # 1000) * inject_Z lvl_diff))%Q in
  let damage := Qfloor (Qmax 1 (raw * variance)) in
  if Qlt_bool crit_roll (7 # 100) then Qfloor (inject_Z damage * (18 # 10)) else damage.

(** [effective_value]: the base adjusted by the net stacked amount and
    clamped to at least 1. *)
Definition spec_effective_value (base up down : Z) : Z := Z.max 1 (base + up - down).

(** The effective defense [compute_damage] uses: the defense-down amount
    is subtracted and the result clamped to 1 before the defense-up amount
    is added. *)
Definition code_effective_defense (defender : Pokemon) : Z :=
  (if 0 <? status_get (status defender) "def_down"
   then Z.max 1 (dfns defender - status_get (status defender) "def_down_amt")
   else dfns defender)
  + stacked_amount (status defender) "def_up".

(** ** Well-formed moves and the bounds invariant *)

(** The numeric arguments of a hook are not negative, as for every hook of
    the roster. *)
Definition hook_ok (h : Hook) : bool :=
  match h with
  | HPoison _ dmg_per_turn _ | HBurn _ dmg_per_turn _ => 0 <=? dmg_per_turn
  | HHeal _ amount => 0 <=? amount
  | HPercentMaxHp _ percent | HTuple (TPercentMaxHp percent) => 0 <=? percent
  | _ => true
  end.

Definition move_ok (m : Move) : bool :=
  (0 <=? energy_cost m) &&
  match effect m with
  | Some h => hook_ok h
  | None => true
  end.

Definition bounded (p : Pokemon) : Prop :=
  0 <= hp p <= max_hp p /\ 0 <= energy p <= energy_max p.

(** The damage a stored poison or burn deals each turn is not negative. *)
Definition dot_ok (st : gmap string StatusValue) : Prop :=
  forall key dmg turns,
    key = "poison" \/ key = "burn" ->
    st !! key = Some (VDict (Some dmg) turns) -> 0 <= dmg.

Definition combatant_ok (p : Pokemon) : Prop := bounded p /\ dot_ok (status p).

Definition other (who : Player) : Player :=
  match who with Player1 => Player2 | Player2 => Player1 end.

Definition team_of (who : Player) (teams : list Pokemon * list Pokemon) : list Pokemon :=
  match who with Player1 => teams.1 | Player2 => teams.2 end.

Definition set_team (who : Player) (t : list Pokemon) (teams : list Pokemon * list Pokemon)
    : list Pokemon * list Pokemon :=
  match who with Player1 => (t, teams.2) | Player2 => (teams.1, t) end.

(** The steps by which the battle loops change a combatant: a move of a
    member of one team against a member of the other, the end-of-turn
    processing of a combatant, and an energy gain of 8 (switch), 5 (pass)
    or 3 (end of turn). *)
Inductive resolution_step
    : list Pokemon * list Pokemon -> list Pokemon * list Pokemon -> Prop :=
| step_move who i j attacker defender move r attacker' defender' messages teams :
    team_of who teams !! i = Some attacker ->
    team_of (other who) teams !! j = Some defender ->
    move_ok move = true ->
    perform_move attacker defender move r = Some (attacker', defender', messages) ->
    resolution_step teams
      (set_team (other who) (<[j := defender']> (team_of (other who) teams))
         (set_team who (<[i := attacker']> (team_of who teams)) teams))
| step_end_of_turn who i poke teams :
    team_of who teams !! i = Some poke ->
    resolution_step teams
      (set_team who (<[i := apply_end_of_turn poke]> (team_of who teams)) teams)
| step_regain who i k p teams :
    team_of who teams !! i = Some p ->
    k = 8 \/ k = 5 \/ k = 3 ->
    resolution_step teams
      (set_team who (<[i := regain_energy k p]> (team_of who teams)) teams).

Definition teams_ok (teams : list Pokemon * list Pokemon) : Prop :=
  Forall combatant_ok teams.1 /\ Forall combatant_ok teams.2.

(** ** Status kinds *)

(** The five stat-modifier kinds, the key each is stored under and the
    effect function that applies it.  [speed_boost] files a positive
    amount under [spd_up] and any other amount, by its absolute value,
    under [spd_down]. *)
Inductive ModifierKind := DefenseDown | DefenseUp | AttackUp | SpeedUp | SpeedDown.

Definition modifier_key (k : ModifierKind) : string :=
  match k with
  | DefenseDown => "def_down"
  | DefenseUp => "def_up"
  | AttackUp => "atk_up"
  | SpeedUp => "spd_up"
  | SpeedDown => "spd_down"
  end.

Definition apply_modifier (k : ModifierKind) (p : Pokemon) (amount turns : Z) : Pokemon :=
  match k with
  | DefenseDown => def_lower p amount turns
  | DefenseUp => def_boost p amount turns
  | AttackUp => atk_boost p amount turns
  | SpeedUp => speed_boost p amount turns
  | SpeedDown => speed_boost p (- amount) turns
  end.

(** A speed-up is requested with a positive amount and a speed-down with
    the magnitude of a non-positive one. *)
Definition modifier_amount_ok (k : ModifierKind) (amount : Z) : Prop :=
  match k with
  | SpeedUp => 0 < amount
  | SpeedDown => 0 <= amount
  | _ => True
  end.

(** The three timed effects, their keys, the function that applies each
    and the dict that function stores. *)
Inductive TimedKind := Poison | Burn | Paralysis.

Definition timed_key (k : TimedKind) : string :=
  match k with
  | Poison => "poison"
  | Burn => "burn"
  | Paralysis => "paralysis"
  end.

Definition apply_timed (k : TimedKind) (p : Pokemon) (amount turns : Z) : Pokemon :=
  match k with
  | Poison => apply_poison p amount turns
  | Burn => apply_burn p amount turns
  | Paralysis => apply_paralysis p turns
  end.

Definition timed_entry (k : TimedKind) (amount turns : Z) : StatusValue :=
  match k with
  | Paralysis => VDict None turns
  | _ => VDict (Some amount) turns
  end.

Definition battle_team (who : Player) (b : BattleState) : list Pokemon :=
  match who with Player1 => player1_team b | Player2 => player2_team b end.

Definition active_idx (who : Player) (b : BattleState) : nat :=
  match who with Player1 => p1_idx b | Player2 => p2_idx b end.

(** ** Menus

    The menu loops read keys with [getch]; the keys still to come are an
    explicit list.  A loop that has used them all is blocked in [getch]
    ([Waiting]). *)

Inductive Key := KeyUp | KeyDown | KeySpace | KeyEnter | KeyQuit | KeyOther.

Inductive Outcome (A : Type) :=
| Returned (x : A)
| Raised
| Waiting.
Arguments Returned {A} x.
Arguments Raised {A}.
Arguments Waiting {A}.

(** The loop of [get_menu_selection] from the point where the highlighted
    entry is [selected_idx]; [n] is [len(items)].  [% len(items)] raises
    [ZeroDivisionError] on an empty menu. *)
Fixpoint menu_loop (n selected_idx : Z) (keys : list Key) : Outcome Z :=
  match keys with
  | [] => Waiting
  | KeyUp :: keys =>
      if n =? 0 then Raised else menu_loop n ((selected_idx - 1) mod n) keys
  | KeyDown :: keys =>
      if n =? 0 then Raised else menu_loop n ((selected_idx + 1) mod n) keys
  | KeyEnter :: keys => Returned selected_idx
  | KeyQuit :: keys => Returned (-1)
  | _ :: keys => menu_loop n selected_idx keys
  end.

Definition get_menu_selection {A : Type} (items : list A) (keys : list Key) : Outcome Z :=
  menu_loop (Z.of_nat (length items)) 0 keys.

(** [l.remove(x)]: the first occurrence goes. *)
Fixpoint list_remove_first (x : Z) (l : list Z) : list Z :=
  match l with
  | [] => []
  | y :: l' => if x =? y then l' else y :: list_remove_first x l'
  end.

(** [x in l] for a list of integers. *)
Definition list_mem (x : Z) (l : list Z) : bool := existsb (Z.eqb x) l.

(** The loop of [get_multi_selection]. *)
Fixpoint multi_loop (n min_selections max_selections : Z)
    (selected_indices : list Z) (current_idx : Z) (keys : list Key) : Outcome (list Z) :=
  match keys with
  | [] => Waiting
  | KeyUp :: keys =>
      if n =? 0 then Raised
      else multi_loop n min_selections max_selections selected_indices
                      ((current_idx - 1) mod n) keys
  | KeyDown :: keys =>
      if n =? 0 then Raised
      else multi_loop n min_selections max_selections selected_indices
                      ((current_idx + 1) mod n) keys
  | KeySpace :: keys =>
      if list_mem current_idx selected_indices then
        multi_loop n min_selections max_selections
                   (list_remove_first current_idx selected_indices) current_idx keys
      else if Z.of_nat (length selected_indices) <? max_selections then
        multi_loop n min_selections max_selections
                   (selected_indices ++ [current_idx]) current_idx keys
      else multi_loop n min_selections max_selections selected_indices current_idx keys
  | KeyEnter :: keys =>
      if min_selections <=? Z.of_nat (length selected_indices)
      then Returned selected_indices
      else multi_loop n min_selections max_selections selected_indices current_idx keys
  | KeyQuit :: keys => Returned []
  | KeyOther :: keys =>
      multi_loop n min_selections max_selections selected_indices current_idx keys
  end.

Definition get_multi_selection {A : Type} (items : list A)
    (min_selections max_selections : Z) (keys : list Key) : Outcome (list Z) :=
  multi_loop (Z.of_nat (length items)) min_selections max_selections [] 0 keys.

(** [l[i]] for a Python integer [i]: a negative index counts from the
    end, an index out of range raises. *)
Definition py_index {A : Type} (l : list A) (i : Z) : option A :=
  if i <? 0 then
    if i + Z.of_nat (length l) <? 0 then None
    else l !! Z.to_nat (i + Z.of_nat (length l))
  else l !! Z.to_nat i.

(** ** Team selection *)

(** The clone [pick_team] and [main] build from a roster entry. *)
Definition clone_pokemon (original : Pokemon) : Pokemon :=
  new_pokemon (name original) (lvl original) (max_hp original) (atk original)
              (dfns original) (spd original) (energy_max original) (moves original).

(** The last loop of [pick_team]: one clone per selected index. *)
Definition build_team (roster : list Pokemon) (selected_indices : list Z)
    : option (list Pokemon) :=
  mapM (fun idx => clone_pokemon <$> py_index roster idx) selected_indices.

(** ** Forced switch *)

(** [[i for i, p in enumerate(team) if p.alive()]], counted from [i]. *)
Fixpoint alive_indices_from (i : nat) (team : list Pokemon) : list nat :=
  match team with
  | [] => []
  | p :: team' =>
      if alive p then i :: alive_indices_from (S i) team'
      else alive_indices_from (S i) team'
  end.

Definition alive_indices (team : list Pokemon) : list nat := alive_indices_from 0 team.

(** [prompt_switch]: [None] without a living member.  Building the menu
    entries divides [p.hp] by [p.max_hp] for every living member, which
    raises on a max HP of 0.  Then the menu over the living members
    decides, a cancelled menu giving the first one. *)
Definition prompt_switch (team : list Pokemon) (keys : list Key) : Outcome (option nat) :=
  let options := alive_indices team in
  match options with
  | [] => Returned None
  | _ =>
      if existsb (fun idx => match team !! idx with
                             | Some p => max_hp p =? 0
                             | None => false
                             end) options
      then Raised
      else
        match get_menu_selection options keys with
        | Returned selected_idx =>
            if selected_idx =? -1 then Returned (options !! 0%nat)
            else match py_index options selected_idx with
                 | Some idx => Returned (Some idx)
                 | None => Raised
                 end
        | Raised => Raised
        | Waiting => Waiting
        end
  end.


(** ** Gauntlet: the opposing side *)

(** [for i in range(len(enemy_team)): if i != enemy_idx and
    enemy_team[i].alive(): ...; break], counted from [i]. *)
Fixpoint next_enemy_from (i enemy_idx : nat) (enemy_team : list Pokemon) : option nat :=
  match enemy_team with
  | [] => None
  | p :: rest =>
      if negb (i =? enemy_idx)%nat && alive p then Some i
      else next_enemy_from (S i) enemy_idx rest
  end.

(** The block of [battle_1v3] that follows the player's action: a living
    current enemy stays; a fainted one is replaced by the result of the
    search, and the loop is left ([None]) when the search fails or no
    enemy is alive. *)
Definition replace_fainted_enemy (enemy_team : list Pokemon) (enemy_idx : nat)
    : option (option nat) :=
  match enemy_team !! enemy_idx with
  | None => None
  | Some enemy =>
      if alive enemy then Some (Some enemy_idx)
      else
        match next_enemy_from 0 enemy_idx enemy_team with
        | Some i => if existsb alive enemy_team then Some (Some i) else Some None
        | None => Some None
        end
  end.

(** The enemy's turn in [battle_1v3]: among the moves it can afford,
    [random.choice] returns the one at some position, here [pick] reduced
    to the length of the list; without an affordable move the enemy passes
    and regains 5 energy. *)
Definition enemy_turn (enemy player : Pokemon) (pick : nat) (r : Rolls)
    : option (Pokemon * Pokemon * list string) :=
  let available_moves :=
    List.filter (fun move => energy_cost move <=? energy enemy) (moves enemy) in
  match available_moves with
  | [] => Some (regain_energy 5 enemy, player,
                [name enemy +:+ " passes and regains energy!"])
  | _ =>
      match available_moves !! (pick mod length available_moves)%nat with
      | Some enemy_move => perform_move enemy player enemy_move r
      | None => None
      end
  end.

(** The fields of a combatant that are set once, at construction. *)
Definition same_base (p q : Pokemon) : Prop :=
  name p = name q /\ lvl p = lvl q /\ max_hp p = max_hp q /\ atk p = atk q /\
  dfns p = dfns q /\ spd p = spd q /\ energy_max p = energy_max q /\
  moves p = moves q.


(** The hooks that leave the HP of both combatants alone. *)
Definition hook_keeps_hp (h : Hook) : bool :=
  match h with
  | HHeal _ _ | HPercentMaxHp _ _ | HTuple (TPercentMaxHp _) => false
  | _ => true
  end.

(** The move with another hook. *)
Definition with_effect (m : Move) (e : option Hook) : Move :=
  mkMove (move_name m) (power m) (energy_cost m) (category m) e.

(** Whether [perform_move] stops at one of its first two checks. *)
Definition move_blocked (attacker : Pokemon) (move : Move) (r : Rolls) : bool :=
  (is_paralyzed attacker && Qlt_bool (para_roll r) (25 # 100))
  || (energy attacker <? energy_cost move).


(** ** Doubles: a whole turn

    An action dict of [battle_vgc] refers to Pokemon objects of the two
    teams; during a turn no member enters or leaves a team, so a
    reference is the side and the position in the team. *)

(** [[idx for idx in range(len(team)) if idx not in active and
    team[idx].alive()]]. *)
Definition bench_alive (team : list Pokemon) (active : list nat) : list nat :=
  List.filter
    (fun idx => negb (existsb (Nat.eqb idx) active)
                && match team !! idx with Some p => alive p | None => false end)
    (seq 0 (length team)).

(** One side's half of an iteration of the forced-switch loop: slot [i]
    is refilled with the first living member outside the active slots
    when its combatant has fainted and there is one. *)
Definition refill_slot (team : list Pokemon) (active : list nat) (i : nat) : list nat :=
  match active !! i with
  | Some idx =>
      match team !! idx with
      | Some p =>
          if alive p then active
          else match bench_alive team active with
               | first_available :: _ => <[i := first_available]> active
               | [] => active
               end
      | None => active
      end
  | None => active
  end.

(** [for i in range(2)], for one side. *)
Definition refill (team : list Pokemon) (active : list nat) : list nat :=
  refill_slot team (refill_slot team active 0) 1.

Inductive QueuedType :=
| QAttack (move : Move) (target : nat)
| QStatus (move : Move)
| QSwitch (new_pokemon : nat)
| QPass.

(** An action dict with references: the acting combatant is member
    [q_pokemon] of side [q_side], the target of an attack is a member of
    the other side. *)
Record Queued := mkQueued {
  q_type : QueuedType;
  q_side : Player;
  q_pokemon : nat;
  q_slot : nat
}.

(** The dict [get_vgc_action] builds for an affordable move: an attack
    with a target when the move has power or a category ending in
    "-status", else a dict of type [status]. *)
Definition classify_move (move : Move) (target : nat) : QueuedType :=
  if (0 <? power move) || endswith (category move) "-status"
  then QAttack move target
  else QStatus move.

Definition queue_slot (decide : Player -> nat -> QueuedType) (who : Player)
    (team : list Pokemon) (active : list nat) (slot_idx : nat) : list Queued :=
  match active !! slot_idx with
  | Some idx =>
      match team !! idx with
      | Some pokemon =>
          if alive pokemon then [mkQueued (decide who slot_idx) who idx slot_idx] else []
      | None => []
      end
  | None => []
  end.

Definition queue_side (decide : Player -> nat -> QueuedType) (who : Player)
    (team : list Pokemon) (active : list nat) : list Queued :=
  queue_slot decide who team active 0 ++ queue_slot decide who team active 1.

(** The sort key [x['pokemon'].spd]. *)
Definition queued_speed (teams : list Pokemon * list Pokemon) (q : Queued) : Z :=
  match team_of (q_side q) teams !! q_pokemon q with
  | Some p => spd p
  | None => 0
  end.

(** The body of the resolution loop: only an [attack] is performed. *)
Definition resolve_queued (teams : list Pokemon * list Pokemon) (q : Queued) (r : Rolls)
    : option (list Pokemon * list Pokemon) :=
  match q_type q with
  | QAttack move target =>
      match team_of (q_side q) teams !! q_pokemon q,
            team_of (other (q_side q)) teams !! target with
      | Some attacker, Some defender =>
          match perform_move attacker defender move r with
          | Some (attacker', defender', _) =>
              Some (set_team (other (q_side q))
                      (<[target := defender']> (team_of (other (q_side q)) teams))
                      (set_team (q_side q)
                         (<[q_pokemon q := attacker']> (team_of (q_side q) teams)) teams))
          | None => None
          end
      | _, _ => None
      end
  | _ => Some teams
  end.

(** The resolution loop; [rolls k] are the random numbers of the [k]-th
    action visited. *)
Fixpoint resolve_queue (k : nat) (teams : list Pokemon * list Pokemon)
    (queue : list Queued) (rolls : nat -> Rolls) : option (list Pokemon * list Pokemon) :=
  match queue with
  | [] => Some teams
  | q :: rest =>
      match resolve_queued teams q (rolls k) with
      | Some teams' => resolve_queue (S k) teams' rest rolls
      | None => None
      end
  end.

(** End of a doubles turn for one side: each of the two active slots that
    names a team member gets the end-of-turn processing and 3 energy. *)
Definition end_phase_slot (team : list Pokemon) (active : list nat) (i : nat) : list Pokemon :=
  match active !! i with
  | Some idx =>
      match team !! idx with
      | Some p => <[idx := regain_energy 3 (apply_end_of_turn p)]> team
      | None => team
      end
  | None => team
  end.

Definition end_phase (team : list Pokemon) (active : list nat) : list Pokemon :=
  end_phase_slot (end_phase_slot team active 0) active 1.

Record Doubles := mkDoubles {
  d_teams : list Pokemon * list Pokemon;
  d_p1_active : list nat;
  d_p2_active : list nat
}.

(** One iteration of the loop of [battle_vgc]: forced switches, the
    actions of both sides, their resolution in speed order, the end of
    the turn. *)
Definition doubles_turn (decide : Player -> nat -> QueuedType) (rolls : nat -> Rolls)
    (s : Doubles) : option Doubles :=
  let p1_active := refill (d_teams s).1 (d_p1_active s) in
  let p2_active := refill (d_teams s).2 (d_p2_active s) in
  let all_queued :=
    queue_side decide Player1 (d_teams s).1 p1_active
    ++ queue_side decide Player2 (d_teams s).2 p2_active in
  let ordered := sort_desc (queued_speed (d_teams s)) all_queued in
  match resolve_queue 0 (d_teams s) ordered rolls with
  | Some teams =>
      Some (mkDoubles (end_phase teams.1 p1_active, end_phase teams.2 p2_active)
                      p1_active p2_active)
  | None => None
  end.


(** No member enters or leaves a team, and the construction-time fields
    of every member are what they were. *)
Definition teams_same_base (teams' teams : list Pokemon * list Pokemon) : Prop :=
  Forall2 same_base teams'.1 teams.1 /\ Forall2 same_base teams'.2 teams.2.

(** What [get_vgc_action] guarantees about an attack it returns: the
    target is a member of the opposing team.  [move_ok] is the condition
    on the move's energy cost and hook amounts. *)
Definition well_aimed (teams : list Pokemon * list Pokemon) (who : Player)
    (t : QueuedType) : Prop :=
  match t with
  | QAttack move target =>
      move_ok move = true /\ is_Some (team_of (other who) teams !! target)
  | _ => True
  end.

(** An action the resolution loop passes over. *)
Definition passed_over (t : QueuedType) : bool :=
  match t with
  | QAttack _ _ => false
  | _ => true
  end.


(** ** The verdict after a battle

    [any(p.alive() for p in team)]. *)
Definition any_alive (team : list Pokemon) : bool := existsb alive team.

(** [for p in team: if p.alive(): ... break]. *)
Definition first_alive (team : list Pokemon) : option Pokemon := List.find alive team.

(** [for p in team: if not p.alive(): ... break]. *)
Definition first_fainted (team : list Pokemon) : option Pokemon :=
  List.find (fun p => negb (alive p)) team.




(** The end of [battle_vgc]: [winner_player], with [None] for the draw
    the code writes as 0. *)
Definition vgc_verdict (player1_team player2_team : list Pokemon) : option Player :=
  let p1_alive := any_alive player1_team in
  let p2_alive := any_alive player2_team in
  if p1_alive && negb p2_alive then Some Player1
  else if p2_alive && negb p1_alive then Some Player2
  else None.

(** The nested loops that pick the pair [update_stats] is called with. *)
Definition vgc_pair (winners losers : list Pokemon) : option (Pokemon * Pokemon) :=
  match first_alive winners with
  | Some winner =>
      match first_fainted losers with
      | Some loser => Some (winner, loser)
      | None => None
      end
  | None => None
  end.

Definition vgc_record (stats : gmap string StatRecord)
    (player1_team player2_team : list Pokemon) : gmap string StatRecord :=
  match vgc_verdict player1_team player2_team with
  | Some Player1 =>
      match vgc_pair player1_team player2_team with
      | Some (p1_pokemon, p2_pokemon) => update_stats stats p1_pokemon p2_pokemon
      | None => stats
      end
  | Some Player2 =>
      match vgc_pair player2_team player1_team with
      | Some (p2_pokemon, p1_pokemon) => update_stats stats p2_pokemon p1_pokemon
      | None => stats
      end
  | None => stats
  end.

(** ** Double-precision arithmetic

    A Python [float] is an IEEE-754 binary64 number.  [spec_float] with
    precision 53 and maximal exponent 1024 is that format, and the
    operations of [SpecFloat] round to nearest, ties to even, as the
    hardware does.  An exception ([OverflowError], [ZeroDivisionError],
    [ValueError]) is [None]. *)
Module Float64.

Definition prec : Z := 53.
Definition emax : Z := 1024.

(** The double nearest to an integer. *)
Definition of_Z (i : Z) : spec_float := binary_normalize prec emax i 0 false.

(** [float(i)] for an int [i], as in [i * x] with a float [x]:
    [OverflowError] when [i] is too large. *)
Definition of_int (i : Z) : option spec_float :=
  match of_Z i with
  | S754_infinity _ => None
  | x => Some x
  end.

(** The double nearest to [a / b] for integers [a] and [b <> 0]; a zero
    quotient has the sign of the quotient of the operands' signs. *)
Definition nearest_quotient (a b : Z) : spec_float :=
  let s := xorb (a <? 0) (b <? 0) in
  if a =? 0 then S754_zero s
  else
    let '(mz, ez, lz) := SFdiv_core_binary prec emax (Z.abs a) 0 (Z.abs b) 0 in
    binary_round_aux prec emax s mz ez lz.

(** [a / b] on ints: the correctly rounded quotient, [ZeroDivisionError]
    for [b = 0] and [OverflowError] when the quotient is too large. *)
Definition int_truediv (a b : Z) : option spec_float :=
  if b =? 0 then None
  else
    match nearest_quotient a b with
    | S754_infinity _ => None
    | x => Some x
    end.

(** A decimal literal [n / d] of the source ([5 / 1000] for [0.005]):
    the double nearest to it. *)
Definition literal (n d : Z) : spec_float := nearest_quotient n d.

Definition mul : spec_float -> spec_float -> spec_float := SFmul prec emax.
Definition add : spec_float -> spec_float -> spec_float := SFadd prec emax.
Definition ltb : spec_float -> spec_float -> bool := SFltb.

(** [int(x)]: truncation toward zero; [ValueError] on a NaN,
    [OverflowError] on an infinity. *)
Definition to_int (x : spec_float) : option Z :=
  match x with
  | S754_zero _ => Some 0
  | S754_finite s m e => Some (cond_Zopp s (Z.shiftl (Z.pos m) e))
  | _ => None
  end.

Definition one : spec_float := of_Z 1.

(** [int(max(1, x))]: [max] keeps its first argument unless the second
    is strictly larger, so a NaN gives 1. *)
Definition int_max_1 (x : spec_float) : option Z :=
  if ltb one x then to_int x else Some 1.

(** [compute_damage] in double precision.  [atk_effective / max(1,
    def_effective)] is a division of ints; [base], the level difference
    and the damage of a critical hit are converted to floats by the
    multiplications they enter; [variance] is the value of
    [random.uniform(0.85, 1.15)] and [crit_roll] that of
    [random.random()]. *)
Definition compute_damage (attacker defender : Pokemon) (move : Move)
    (variance crit_roll : spec_float) : option (Z * bool) :=
  let base := power move in
  if base <=? 0 then Some (0, false)
  else
    let def_effective := dfns defender in
    let def_effective :=
      if 0 <? status_get (status defender) "def_down"
      then Z.max 1 (def_effective - status_get (status defender) "def_down_amt")
      else def_effective in
    let def_effective :=
      if 0 <? status_get (status defender) "def_up"
      then def_effective + status_get (status defender) "def_up_amt"
      else def_effective in
    let atk_effective := atk attacker in
    let atk_effective :=
      if 0 <? status_get (status attacker) "atk_up"
      then atk_effective + status_get (status attacker) "atk_up_amt"
      else atk_effective in
    ratio ← int_truediv atk_effective (Z.max 1 def_effective);
    base_f ← of_int base;
    let raw := mul base_f ratio in
    lvl_f ← of_int (lvl attacker - lvl defender);
    let raw := mul raw (add one (mul lvl_f (literal 5 1000))) in
    dmg ← int_max_1 (mul raw variance);
    let crit := ltb crit_roll (literal 7 100) in
    if crit then
      dmg_f ← of_int dmg;
      dmg ← to_int (mul dmg_f (literal 18 10));
      Some (dmg, crit)
    else Some (dmg, crit).

(** *** The damage formula as the specification words it *)

(** [floor(x)]. *)
Definition floor (x : spec_float) : option Z :=
  match x with
  | S754_zero _ => Some 0
  | S754_finite s m e => Some (Z.shiftl (cond_Zopp s (Z.pos m)) e)
  | _ => None
  end.

(** [max(1, x)] as a float. *)
Definition max_1 (x : spec_float) : spec_float := if ltb one x then x else one.

(** The arithmetic of the formula once the effective defense and attack
    are known, every operation rounded to the nearest double. *)
Definition formula_damage (def_eff atk_eff base lvl_diff : Z)
    (variance crit_roll : spec_float) : option Z :=
  ratio ← int_truediv atk_eff (Z.max 1 def_eff);
  base_f ← of_int base;
  lvl_f ← of_int lvl_diff;
  let raw := mul (mul base_f ratio) (add one (mul (literal 5 1000) lvl_f)) in
  damage ← floor (max_1 (mul raw variance));
  if ltb crit_roll (literal 7 100)
  then damage_f ← of_int damage; floor (mul damage_f (literal 18 10))
  else Some damage.

(** The formula with the net-amount effective defense of the
    specification. *)
Definition spec_damage (attacker defender : Pokemon) (move : Move)
    (variance crit_roll : spec_float) : option Z :=
  formula_damage
    (spec_effective_value (dfns defender)
       (stacked_amount (status defender) "def_up")
       (stacked_amount (status defender) "def_down"))
    (atk attacker + stacked_amount (status attacker) "atk_up")
    (power move) (lvl attacker - lvl defender) variance crit_roll.

(** *** Statistics *)

Record StatRecord := mkStat {
  wins : Z;
  losses : Z;
  matches : Z;
  win_percentage : spec_float
}.

Definition new_record : StatRecord := mkStat 0 0 0 (S754_zero false).

(** Division of a non-negative integer with rounding to the nearest
    integer, a tie going to the even one. *)
Definition div_half_even (n d : Z) : Z :=
  let q := n / d in
  match 2 * (n mod d) ?= d with
  | Lt => q
  | Gt => q + 1
  | Eq => if Z.even q then q else q + 1
  end.

(** [round(x, 2)] on a float: the exact value of [x] is rounded to two
    decimals, a tie going to the even last digit, and the decimal
    obtained is converted back to the nearest double.  Zeros,
    infinities and NaN are returned as they are, and a result of zero
    keeps the sign of [x]. *)
Definition round_2 (x : spec_float) : spec_float :=
  match x with
  | S754_finite s m e =>
      let hundredths :=
        match e with
        | Z.neg p => div_half_even (Z.pos m * 100) (2 ^ Z.pos p)
        | _ => Z.pos m * 100 * 2 ^ e
        end in
      if hundredths =? 0 then S754_zero s
      else nearest_quotient (cond_Zopp s hundredths) 100
  | _ => x
  end.

Definition ensure_record (n : string) (stats : gmap string StatRecord)
    : gmap string StatRecord :=
  match stats !! n with
  | Some _ => stats
  | None => <[n := new_record]> stats
  end.

Definition record_win (r : StatRecord) : StatRecord :=
  mkStat (wins r + 1) (losses r) (matches r + 1) (win_percentage r).

Definition record_loss (r : StatRecord) : StatRecord :=
  mkStat (wins r) (losses r + 1) (matches r + 1) (win_percentage r).

(** The body of the final loop of [update_stats] for one entry. *)
Definition refresh_percentage (r : StatRecord) : option StatRecord :=
  if 0 <? matches r then
    ratio ← int_truediv (wins r) (matches r);
    Some (mkStat (wins r) (losses r) (matches r) (round_2 (mul ratio (of_Z 100))))
  else Some (mkStat (wins r) (losses r) (matches r) (S754_zero false)).

(** The percentage as the specification words it:
    [round(wins / matches * 100, 2)] whenever [matches > 0], else [0.0]. *)
Definition percentage (wins matches : Z) : option spec_float :=
  if 0 <? matches
  then (fun ratio => round_2 (mul ratio (of_Z 100))) <$> int_truediv wins matches
  else Some (S754_zero false).

(** [update_stats]: the final loop raises when the division of one entry
    does, and otherwise rewrites the percentage of every entry. *)
Definition update_stats (stats : gmap string StatRecord)
    (winner_pokemon loser_pokemon : Pokemon) : option (gmap string StatRecord) :=
  let stats := ensure_record (name winner_pokemon) stats in
  let stats := alter record_win (name winner_pokemon) stats in
  let stats := ensure_record (name loser_pokemon) stats in
  let stats := alter record_loss (name loser_pokemon) stats in
  if decide (map_Forall (fun _ r => is_Some (refresh_percentage r)) stats)
  then Some (omap refresh_percentage stats)
  else None.

End Float64.

(** ** Doubles: what the resolution loop performs *)

(** The resolution loop of [battle_vgc] together with what it performs:
    the entries for which [perform_move] is called, in the order of the
    calls, each with the messages the call returned and the loop draws.
    An entry of another type is passed over. *)
Fixpoint resolve_queue_performed (k : nat) (teams : list Pokemon * list Pokemon)
    (queue : list Queued) (rolls : nat -> Rolls)
    : option (list Pokemon * list Pokemon * list (Queued * list string)) :=
  match queue with
  | [] => Some (teams, [])
  | q :: rest =>
      match q_type q with
      | QAttack move target =>
          match team_of (q_side q) teams !! q_pokemon q,
                team_of (other (q_side q)) teams !! target with
          | Some attacker, Some defender =>
              match perform_move attacker defender move (rolls k) with
              | Some (attacker', defender', messages) =>
                  let teams :=
                    set_team (other (q_side q))
                      (<[target := defender']> (team_of (other (q_side q)) teams))
                      (set_team (q_side q)
                         (<[q_pokemon q := attacker']> (team_of (q_side q) teams)) teams) in
                  match resolve_queue_performed (S k) teams rest rolls with
                  | Some (teams, performed) => Some (teams, (q, messages) :: performed)
                  | None => None
                  end
              | None => None
              end
          | _, _ => None
          end
      | _ => resolve_queue_performed (S k) teams rest rolls
      end
  end.

(** [all_actions = p1_actions + p2_actions] of one turn, after the forced
    switches. *)
Definition doubles_queued (decide : Player -> nat -> QueuedType) (s : Doubles)
    : list Queued :=
  queue_side decide Player1 (d_teams s).1 (refill (d_teams s).1 (d_p1_active s))
  ++ queue_side decide Player2 (d_teams s).2 (refill (d_teams s).2 (d_p2_active s)).

(** An entry the resolution loop has a branch for. *)
Definition is_attack (q : Queued) : bool := negb (passed_over (q_type q)).

(** * Proofs *)

(** ** Strings *)

Lemma string_length_app (a b : string) :
  String.length (a +:+ b) = (String.length a + String.length b)%nat.
Proof. induction a as [|c a IH]; simpl; [reflexivity | now rewrite IH]. Qed.

Lemma string_app_inj_r (s a b : string) : a +:+ s = b +:+ s -> a = b.
Proof.
  revert b. induction a as [|c a IH]; intros [|c' b] H; simpl in H.
  - reflexivity.
  - apply (f_equal String.length) in H.
    change (String.length s = S (String.length (b +:+ s))) in H.
    rewrite string_length_app in H. lia.
  - apply (f_equal String.length) in H.
    change (S (String.length (a +:+ s)) = String.length s) in H.
    rewrite string_length_app in H. lia.
  - injection H as -> H. f_equal. now apply IH.
Qed.

Lemma string_app_ne (a s : string) : s <> EmptyString -> a +:+ s <> a.
Proof.
  intros Hs H. apply Hs.
  apply (f_equal String.length) in H. rewrite string_length_app in H.
  destruct s; [reflexivity | simpl in H; lia].
Qed.

Lemma endswith_app (a suffix : string) : endswith (a +:+ suffix) suffix = true.
Proof.
  induction a as [|c a IH]; simpl.
  - destruct suffix; simpl; [reflexivity|].
    rewrite Ascii.eqb_refl, String.eqb_refl. reflexivity.
  - rewrite IH. apply orb_true_r.
Qed.

Lemma skipped_key_amt (a : string) : skipped_key (a +:+ "_amt") = true.
Proof. unfold skipped_key. now rewrite endswith_app. Qed.

Lemma not_skipped_not_amt (k a : string) :
  skipped_key k = false -> k <> a +:+ "_amt".
Proof. intros Hk ->. rewrite skipped_key_amt in Hk. discriminate. Qed.

(** ** Field access after an update *)

Lemma status_set_status p st : status (set_status p st) = st.
Proof. reflexivity. Qed.

Lemma status_get_insert_eq st k n : status_get (<[k := VInt n]> st) k = n.
Proof. unfold status_get. now rewrite lookup_insert_eq. Qed.

Lemma status_get_insert_ne st k k' v :
  k <> k' -> status_get (<[k := v]> st) k' = status_get st k'.
Proof. intros H. unfold status_get. now rewrite lookup_insert_ne. Qed.

(** ** Stacking of the stat modifiers *)

Lemma stack_modifier_turns key p amount turns :
  status_get (status (stack_modifier key p amount turns)) key
  = status_get (status p) key + turns.
Proof.
  unfold stack_modifier. rewrite status_set_status.
  rewrite status_get_insert_ne by (apply string_app_ne; discriminate).
  apply status_get_insert_eq.
Qed.

Lemma stack_modifier_amount key p amount turns :
  status_get (status (stack_modifier key p amount turns)) (key +:+ "_amt")
  = status_get (status p) (key +:+ "_amt") + amount.
Proof.
  unfold stack_modifier. rewrite status_set_status, status_get_insert_eq.
  rewrite status_get_insert_ne; [reflexivity|].
  intros H. symmetry in H. revert H. apply string_app_ne. discriminate.
Qed.

Lemma stack_modifier_twice key p a1 t1 a2 t2 :
  let p2 := stack_modifier key (stack_modifier key p a1 t1) a2 t2 in
  status_get (status p2) key = status_get (status p) key + (t1 + t2) /\
  status_get (status p2) (key +:+ "_amt")
  = status_get (status p) (key +:+ "_amt") + (a1 + a2).
Proof.
  cbv zeta. rewrite !stack_modifier_turns, !stack_modifier_amount. lia.
Qed.

(** ** The duration loop *)

Lemma decrement_key_other st a k :
  k <> a -> k <> a +:+ "_amt" -> decrement_key st a !! k = st !! k.
Proof.
  intros H1 H2. unfold decrement_key.
  destruct (skipped_key a); [reflexivity|].
  destruct (st !! a) as [[n|d t]|]; try reflexivity.
  destruct (n - 1 <=? 0).
  - now rewrite !lookup_delete_ne by congruence.
  - now rewrite lookup_insert_ne by congruence.
Qed.

Lemma decrement_key_counter st k n :
  skipped_key k = false -> st !! k = Some (VInt n) ->
  decrement_key st k !! k = (if n - 1 <=? 0 then None else Some (VInt (n - 1))).
Proof.
  intros Hk Hn. unfold decrement_key. rewrite Hk, Hn.
  destruct (n - 1 <=? 0).
  - rewrite lookup_delete_ne by (apply string_app_ne; discriminate).
    apply lookup_delete_eq.
  - apply lookup_insert_eq.
Qed.

Lemma decrement_key_amount st k n :
  skipped_key k = false -> st !! k = Some (VInt n) ->
  decrement_key st k !! (k +:+ "_amt")
  = (if n - 1 <=? 0 then None else st !! (k +:+ "_amt")).
Proof.
  intros Hk Hn. unfold decrement_key. rewrite Hk, Hn.
  destruct (n - 1 <=? 0).
  - apply lookup_delete_eq.
  - apply lookup_insert_ne. intros H. symmetry in H. revert H.
    apply string_app_ne. discriminate.
Qed.

(** A key that no iteration can write keeps its entry. *)
Lemma decrement_keys_untouched keys st k :
  (forall a, a ∈ keys -> skipped_key a = false -> k <> a /\ k <> a +:+ "_amt") ->
  decrement_keys keys st !! k = st !! k.
Proof.
  revert st. induction keys as [|a keys IH]; intros st H; [reflexivity|].
  change (decrement_keys (a :: keys) st) with (decrement_keys keys (decrement_key st a)).
  rewrite IH by (intros a' Ha'; apply H; now right).
  destruct (skipped_key a) eqn:Ha.
  - unfold decrement_key. now rewrite Ha.
  - destruct (H a) as [H1 H2]; [now left | assumption |].
    now apply decrement_key_other.
Qed.

Lemma decrement_keys_counter keys st k n :
  NoDup keys -> k ∈ keys -> skipped_key k = false -> st !! k = Some (VInt n) ->
  decrement_keys keys st !! k = (if n - 1 <=? 0 then None else Some (VInt (n - 1))).
Proof.
  intros Hnd. revert st. induction Hnd as [|a keys Hnotin Hnd IH]; intros st Hin Hk Hn.
  - inversion Hin.
  - change (decrement_keys (a :: keys) st) with (decrement_keys keys (decrement_key st a)).
    destruct (decide (k = a)) as [->|Hne].
    + rewrite decrement_keys_untouched.
      * now apply decrement_key_counter.
      * intros a' Ha' _. split; [intros ->; contradiction|].
        now apply not_skipped_not_amt.
    + apply IH; try assumption.
      * apply elem_of_cons in Hin as [?|?]; [contradiction | assumption].
      * rewrite decrement_key_other; [assumption | assumption |].
        now apply not_skipped_not_amt.
Qed.

Lemma decrement_keys_amount keys st k n :
  NoDup keys -> k ∈ keys -> skipped_key k = false -> st !! k = Some (VInt n) ->
  decrement_keys keys st !! (k +:+ "_amt")
  = (if n - 1 <=? 0 then None else st !! (k +:+ "_amt")).
Proof.
  intros Hnd. revert st. induction Hnd as [|a keys Hnotin Hnd IH]; intros st Hin Hk Hn.
  - inversion Hin.
  - change (decrement_keys (a :: keys) st) with (decrement_keys keys (decrement_key st a)).
    destruct (decide (k = a)) as [->|Hne].
    + rewrite decrement_keys_untouched.
      * now apply decrement_key_amount.
      * intros a' Ha' Hs. split.
        -- intros <-. rewrite skipped_key_amt in Hs. discriminate.
        -- intros H. apply string_app_inj_r in H. subst a'. contradiction.
    + apply elem_of_cons in Hin as [?|Hin]; [contradiction|].
      rewrite IH; try assumption.
      * assert (decrement_key st a !! (k +:+ "_amt") = st !! (k +:+ "_amt")) as ->;
          [|reflexivity].
        destruct (skipped_key a) eqn:Ha.
        -- unfold decrement_key. now rewrite Ha.
        -- apply decrement_key_other.
           ++ intros <-. rewrite skipped_key_amt in Ha. discriminate.
           ++ intros H. apply string_app_inj_r in H. congruence.
      * rewrite decrement_key_other; [assumption | assumption |].
        now apply not_skipped_not_amt.
Qed.

(** The entries of poison, burn and paralysis are not touched by the loop. *)
Lemma decrement_keys_timed keys st k :
  skipped_key k = true -> endswith k "_amt" = false ->
  decrement_keys keys st !! k = st !! k.
Proof.
  intros Hk He. apply decrement_keys_untouched. intros a _ Ha. split.
  - intros ->. congruence.
  - intros ->. rewrite endswith_app in He. discriminate.
Qed.

Lemma status_keys_elem (st : gmap string StatusValue) k v :
  st !! k = Some v -> k ∈ (map_to_list st).*1.
Proof.
  intros H. apply list_elem_of_fmap. exists (k, v). split; [reflexivity|].
  now apply elem_of_map_to_list.
Qed.

Lemma decrement_durations_counter p k n :
  skipped_key k = false -> status p !! k = Some (VInt n) ->
  status (decrement_durations p) !! k
  = (if n - 1 <=? 0 then None else Some (VInt (n - 1))) /\
  status (decrement_durations p) !! (k +:+ "_amt")
  = (if n - 1 <=? 0 then None else status p !! (k +:+ "_amt")).
Proof.
  intros Hk Hn. unfold decrement_durations. rewrite status_set_status. split.
  - apply decrement_keys_counter; try assumption.
    + apply NoDup_fst_map_to_list.
    + eapply status_keys_elem; eassumption.
  - apply decrement_keys_amount; try assumption.
    + apply NoDup_fst_map_to_list.
    + eapply status_keys_elem; eassumption.
Qed.

Lemma decrement_durations_timed p k :
  skipped_key k = true -> endswith k "_amt" = false ->
  status (decrement_durations p) !! k = status p !! k.
Proof. intros. unfold decrement_durations. now apply decrement_keys_timed. Qed.

(** ** The timed blocks of the end-of-turn processing *)

Lemma tick_damage_over_time_other key p k :
  k <> key -> status (tick_damage_over_time key p) !! k = status p !! k.
Proof.
  intros Hne. unfold tick_damage_over_time.
  destruct (status p !! key) as [[n|d t]|]; try reflexivity.
  destruct (0 <? t); [|reflexivity].
  destruct (t - 1 <=? 0); simpl.
  - now apply lookup_delete_ne.
  - now apply lookup_insert_ne.
Qed.

Lemma tick_damage_over_time_self key p d t :
  status p !! key = Some (VDict d t) -> 0 < t ->
  status (tick_damage_over_time key p) !! key
  = (if t - 1 <=? 0 then None else Some (VDict d (t - 1))).
Proof.
  intros H Ht. unfold tick_damage_over_time. rewrite H.
  apply Z.ltb_lt in Ht. rewrite Ht.
  destruct (t - 1 <=? 0); simpl.
  - apply lookup_delete_eq.
  - apply lookup_insert_eq.
Qed.

Lemma tick_paralysis_other p k :
  k <> "paralysis" -> status (tick_paralysis p) !! k = status p !! k.
Proof.
  intros Hne. unfold tick_paralysis.
  destruct (status p !! "paralysis") as [[n|d t]|]; try reflexivity.
  destruct (0 <? t); [|reflexivity].
  destruct (t - 1 <=? 0); simpl.
  - now apply lookup_delete_ne.
  - now apply lookup_insert_ne.
Qed.

Lemma tick_paralysis_self p d t :
  status p !! "paralysis" = Some (VDict d t) -> 0 < t ->
  status (tick_paralysis p) !! "paralysis"
  = (if t - 1 <=? 0 then None else Some (VDict d (t - 1))).
Proof.
  intros H Ht. unfold tick_paralysis. rewrite H.
  apply Z.ltb_lt in Ht. rewrite Ht.
  destruct (t - 1 <=? 0); simpl.
  - apply lookup_delete_eq.
  - apply lookup_insert_eq.
Qed.

Lemma skipped_key_false_ne k k' :
  skipped_key k = false -> skipped_key k' = true -> k <> k'.
Proof. intros H1 H2 ->. congruence. Qed.

Lemma end_of_turn_modifier p k n :
  alive p = true -> skipped_key k = false -> status p !! k = Some (VInt n) ->
  status (apply_end_of_turn p) !! k
  = (if n - 1 <=? 0 then None else Some (VInt (n - 1))) /\
  status (apply_end_of_turn p) !! (k +:+ "_amt")
  = (if n - 1 <=? 0 then None else status p !! (k +:+ "_amt")).
Proof.
  intros Ha Hk Hn. unfold apply_end_of_turn. rewrite Ha. simpl.
  assert (Hpo : k <> "poison") by (apply skipped_key_false_ne; [assumption | reflexivity]).
  assert (Hbu : k <> "burn") by (apply skipped_key_false_ne; [assumption | reflexivity]).
  assert (Hpa : k <> "paralysis") by (apply skipped_key_false_ne; [assumption | reflexivity]).
  assert (Hamt : forall k', endswith k' "_amt" = false -> k +:+ "_amt" <> k').
  { intros k' He <-. rewrite endswith_app in He. discriminate. }
  rewrite !tick_paralysis_other by (try assumption; apply Hamt; reflexivity).
  set (q := tick_damage_over_time "burn" (tick_damage_over_time "poison" p)).
  assert (Hq : forall k', k' <> "poison" -> k' <> "burn" -> status q !! k' = status p !! k').
  { intros k' H1 H2. unfold q. now rewrite !tick_damage_over_time_other. }
  destruct (decrement_durations_counter q k n) as [H1 H2]; [assumption | | ].
  - now rewrite Hq.
  - rewrite H1, H2, Hq; [split; reflexivity | |]; apply Hamt; reflexivity.
Qed.

Lemma end_of_turn_poison p d t :
  alive p = true -> status p !! "poison" = Some (VDict d t) -> 0 < t ->
  status (apply_end_of_turn p) !! "poison"
  = (if t - 1 <=? 0 then None else Some (VDict d (t - 1))).
Proof.
  intros Ha H Ht. unfold apply_end_of_turn. rewrite Ha. simpl.
  rewrite tick_paralysis_other by discriminate.
  rewrite decrement_durations_timed by reflexivity.
  rewrite tick_damage_over_time_other by discriminate.
  now apply tick_damage_over_time_self.
Qed.

Lemma end_of_turn_burn p d t :
  alive p = true -> status p !! "burn" = Some (VDict d t) -> 0 < t ->
  status (apply_end_of_turn p) !! "burn"
  = (if t - 1 <=? 0 then None else Some (VDict d (t - 1))).
Proof.
  intros Ha H Ht. unfold apply_end_of_turn. rewrite Ha. simpl.
  rewrite tick_paralysis_other by discriminate.
  rewrite decrement_durations_timed by reflexivity.
  apply tick_damage_over_time_self; [|assumption].
  now rewrite tick_damage_over_time_other by discriminate.
Qed.

Lemma end_of_turn_paralysis p d t :
  alive p = true -> status p !! "paralysis" = Some (VDict d t) -> 0 < t ->
  status (apply_end_of_turn p) !! "paralysis"
  = (if t - 1 <=? 0 then None else Some (VDict d (t - 1))).
Proof.
  intros Ha H Ht. unfold apply_end_of_turn. rewrite Ha. simpl.
  apply tick_paralysis_self; [|assumption].
  rewrite decrement_durations_timed by reflexivity.
  now rewrite !tick_damage_over_time_other by discriminate.
Qed.

(** ** Claim C1: the stacking law *)

Lemma apply_modifier_unfold k p amount turns :
  modifier_amount_ok k amount ->
  apply_modifier k p amount turns = stack_modifier (modifier_key k) p amount turns.
Proof.
  destruct k; simpl; intros H; try reflexivity; unfold speed_boost.
  - apply Z.ltb_lt in H. now rewrite H.
  - replace (0 <? - amount) with false by (symmetry; apply Z.ltb_ge; lia).
    f_equal. lia.
Qed.

Lemma modifier_key_not_skipped k : skipped_key (modifier_key k) = false.
Proof. now destruct k. Qed.

Lemma counter_reaches_zero n : 0 < n -> (n - 1 <=? 0) = (n =? 1).
Proof.
  intros H. destruct (Z.eqb_spec n 1) as [->|Hne]; [reflexivity|].
  apply Z.leb_gt. lia.
Qed.

(** C1, as the code has it.  (1) Applying a stat modifier twice adds both
    the amounts and the turn counters to what the combatant already holds
    (from an empty status: [amount1 + amount2] for [turns1 + turns2]
    turns).  (2) Poison, burn and paralysis do not stack: the second
    application replaces the stored dict, which then holds [amount2] and
    [turns2].  (3), (4) Each end-of-turn processing of a living combatant
    lowers a positive counter by one, and the kind (for a modifier: its
    counter and its amount together) is removed exactly when the counter
    reaches 0, never before. *)
Theorem status_stacking_law :
  (forall k p amount1 turns1 amount2 turns2,
      modifier_amount_ok k amount1 -> modifier_amount_ok k amount2 ->
      let p2 := apply_modifier k (apply_modifier k p amount1 turns1) amount2 turns2 in
      status_get (status p2) (modifier_key k)
      = status_get (status p) (modifier_key k) + (turns1 + turns2) /\
      status_get (status p2) (modifier_key k +:+ "_amt")
      = status_get (status p) (modifier_key k +:+ "_amt") + (amount1 + amount2)) /\
  (forall k p amount1 turns1 amount2 turns2,
      status (apply_timed k (apply_timed k p amount1 turns1) amount2 turns2) !! timed_key k
      = Some (timed_entry k amount2 turns2)) /\
  (forall k p n,
      alive p = true -> status p !! modifier_key k = Some (VInt n) -> 0 < n ->
      status (apply_end_of_turn p) !! modifier_key k
      = (if n =? 1 then None else Some (VInt (n - 1))) /\
      status (apply_end_of_turn p) !! (modifier_key k +:+ "_amt")
      = (if n =? 1 then None else status p !! (modifier_key k +:+ "_amt"))) /\
  (forall k p dmg turns,
      alive p = true -> status p !! timed_key k = Some (VDict dmg turns) -> 0 < turns ->
      status (apply_end_of_turn p) !! timed_key k
      = (if turns =? 1 then None else Some (VDict dmg (turns - 1)))).
Proof.
  repeat split.
  - rewrite !apply_modifier_unfold by assumption.
    apply stack_modifier_twice.
  - rewrite !apply_modifier_unfold by assumption.
    apply stack_modifier_twice.
  - intros k p a1 t1 a2 t2. destruct k; apply lookup_insert_eq.
  - rewrite <- counter_reaches_zero by assumption.
    now apply end_of_turn_modifier; [|apply modifier_key_not_skipped|].
  - rewrite <- counter_reaches_zero by assumption.
    now apply end_of_turn_modifier; [|apply modifier_key_not_skipped|].
  - intros k p dmg turns Ha H Ht. rewrite <- counter_reaches_zero by assumption.
    destruct k.
    + now apply end_of_turn_poison.
    + now apply end_of_turn_burn.
    + now apply end_of_turn_paralysis.
Qed.

(** "+2 defense for 3 turns" applied twice to a fresh combatant gives +4
    defense for 6 turns; the sixth end-of-turn processing is the one that
    removes it. *)
Lemma status_stacking_law_witness :
  let p2 := def_boost (def_boost cbroman 2 3) 2 3 in
  (status_get (status p2) "def_up" = 6 /\ status_get (status p2) "def_up_amt" = 4) /\
  status (apply_end_of_turn p2) !! "def_up" = Some (VInt 5) /\
  status (Nat.iter 6 apply_end_of_turn p2) !! "def_up" = None /\
  status (apply_end_of_turn (apply_poison cbroman 6 1)) !! "poison" = None.
Proof.
  destruct status_stacking_law as (Hstack & _ & Htick & Htimed).
  split; [|split; [|split]].
  - apply (Hstack DefenseUp cbroman 2 3 2 3); exact I.
  - apply (Htick DefenseUp (def_boost (def_boost cbroman 2 3) 2 3) 6);
      [reflexivity | reflexivity | lia].
  - apply (Htick DefenseUp
             (Nat.iter 5 apply_end_of_turn (def_boost (def_boost cbroman 2 3) 2 3)) 1);
      [reflexivity | reflexivity | lia].
  - apply (Htimed Poison (apply_poison cbroman 6 1) (Some 6) 1);
      [reflexivity | reflexivity | lia].
Defined.

(** Poison applied with (6, 3) and again with (6, 3) leaves 6 damage per
    turn for 3 turns, not 12 for 6. *)
Lemma poison_does_not_stack :
  let p2 := apply_poison (apply_poison cbroman 6 3) 6 3 in
  status p2 !! "poison" = Some (VDict (Some 6) 3) /\
  status p2 !! "poison" <> Some (VDict (Some (6 + 6)) (3 + 3)).
Proof. split; [reflexivity | discriminate]. Qed.

(** ** Numbers *)

Lemma int_of_float_floor (x : Q) : (0 <= x)%Q -> int_of_float x = Qfloor x.
Proof.
  destruct x as [n d]. unfold Qle, int_of_float, Qfloor. simpl. intros H.
  apply Z.quot_div_nonneg; lia.
Qed.

Lemma max_1_Qmax (x : Q) : max_1 x = Qmax 1 x.
Proof.
  unfold max_1, Qmax, GenericMinMax.gmax, Qle_bool, Qcompare.
  destruct x as [n d]. cbn [Qnum Qden].
  destruct (Z.leb_spec (n * 1) (1 * Z.pos d)),
           (Z.compare_spec (1 * Z.pos d) (n * 1));
    try reflexivity; lia.
Qed.

Lemma max_1_ge (x : Q) : (1 <= max_1 x)%Q.
Proof.
  unfold max_1. destruct (Qle_bool x 1) eqn:E.
  - apply Qle_refl.
  - apply Qnot_lt_le. intros H. apply Qlt_le_weak, Qle_bool_iff in H. congruence.
Qed.

Lemma max_1_comp (x y : Q) : (x == y)%Q -> (max_1 x == max_1 y)%Q.
Proof.
  intros H. unfold max_1. rewrite (Qleb_comp x y H 1%Q 1%Q (Qeq_refl 1)).
  destruct (Qle_bool y 1); [reflexivity | assumption].
Qed.

Lemma floor_max_1_ge (x : Q) : 1 <= Qfloor (max_1 x).
Proof.
  change 1 with (Qfloor (inject_Z 1)) at 1. apply Qfloor_resp_le, max_1_ge.
Qed.

Lemma critical_ge (dmg : Z) : 1 <= dmg -> 1 <= Qfloor (inject_Z dmg * (18 # 10)).
Proof.
  intros H. change 1 with (Qfloor (inject_Z 1)) at 1. apply Qfloor_resp_le.
  unfold Qle, inject_Z, Qmult. simpl. lia.
Qed.

Lemma critical_nonneg (dmg : Z) : 0 <= dmg -> (0 <= inject_Z dmg * (18 # 10))%Q.
Proof. intros H. unfold Qle, inject_Z, Qmult. simpl. lia. Qed.

(** ** The damage formula *)

Lemma stacked_amount_unfold st kind :
  stacked_amount st kind
  = if 0 <? status_get st kind then status_get st (kind +:+ "_amt") else 0.
Proof. reflexivity. Qed.

(** [compute_damage] on a move of positive power is the formula evaluated
    at the effective defense and attack the code computes. *)
Lemma compute_damage_formula_eq attacker defender move variance crit_roll :
  0 < power move ->
  compute_damage attacker defender move variance crit_roll
  = (formula_damage (code_effective_defense defender)
       (atk attacker + stacked_amount (status attacker) "atk_up")
       (power move) (lvl attacker - lvl defender) variance crit_roll,
     Qlt_bool crit_roll (7 # 100)).
Proof.
  intros Hp. unfold compute_damage, formula_damage.
  replace (power move <=? 0) with false by (symmetry; apply Z.leb_gt; lia).
  set (def_code := if 0 <? status_get (status defender) "def_up" then _ else _).
  assert (Hdef : def_code = code_effective_defense defender).
  { unfold def_code, code_effective_defense. rewrite stacked_amount_unfold.
    change ("def_up" +:+ "_amt") with "def_up_amt".
    destruct (0 <? status_get (status defender) "def_up"); lia. }
  set (atk_code := if 0 <? status_get (status attacker) "atk_up" then _ else _).
  assert (Hatk : atk_code = atk attacker + stacked_amount (status attacker) "atk_up").
  { unfold atk_code. rewrite stacked_amount_unfold.
    change ("atk_up" +:+ "_amt") with "atk_up_amt".
    destruct (0 <? status_get (status attacker) "atk_up"); lia. }
  rewrite Hdef, Hatk. clear def_code Hdef atk_code Hatk.
  set (d := code_effective_defense defender).
  set (a := atk attacker + stacked_amount (status attacker) "atk_up").
  set (x := (inject_Z (power move) * (inject_Z a / inject_Z (Z.max 1 d))
             * (1 + inject_Z (lvl attacker - lvl defender) * (5 # 1000)) * variance)%Q).
  set (y := (inject_Z (power move) * (inject_Z a / inject_Z (Z.max 1 d))
             * (1 + (5 # 1000) * inject_Z (lvl attacker - lvl defender)) * variance)%Q).
  assert (Hxy : (x == y)%Q) by (unfold x, y; ring).
  assert (Hdmg : int_of_float (max_1 x) = Qfloor (Qmax 1 y)).
  { rewrite int_of_float_floor.
    - rewrite <- max_1_Qmax. apply Qfloor_comp, max_1_comp, Hxy.
    - eapply Qle_trans; [|apply max_1_ge]. discriminate. }
  rewrite Hdmg. f_equal.
  destruct (Qlt_bool crit_roll (7 # 100)); [|reflexivity].
  apply int_of_float_floor, critical_nonneg.
  rewrite <- Hdmg, int_of_float_floor.
  - pose proof (floor_max_1_ge x). lia.
  - eapply Qle_trans; [|apply max_1_ge]. discriminate.
Qed.

Lemma formula_damage_ge_1 def_eff atk_eff base lvl_diff variance crit_roll :
  1 <= formula_damage def_eff atk_eff base lvl_diff variance crit_roll.
Proof.
  unfold formula_damage. rewrite <- max_1_Qmax.
  destruct (Qlt_bool crit_roll (7 # 100)).
  - apply critical_ge, floor_max_1_ge.
  - apply floor_max_1_ge.
Qed.

Lemma compute_damage_nonneg attacker defender move variance crit_roll :
  0 <= fst (compute_damage attacker defender move variance crit_roll).
Proof.
  destruct (Z_lt_le_dec 0 (power move)) as [Hp|Hp].
  - rewrite compute_damage_formula_eq by assumption. simpl.
    pose proof (formula_damage_ge_1 (code_effective_defense defender)
                  (atk attacker + stacked_amount (status attacker) "atk_up")
                  (power move) (lvl attacker - lvl defender) variance crit_roll). lia.
  - unfold compute_damage.
    replace (power move <=? 0) with true by (symmetry; apply Z.leb_le; lia).
    simpl. lia.
Qed.

(** ** Claim C4: the damage formula *)

Lemma status_get_empty key : status_get ∅ key = 0.
Proof. unfold status_get. now rewrite lookup_empty. Qed.

(** *** Double-precision arithmetic *)

Lemma fexp_64 e : fexp Float64.prec Float64.emax e = Z.max (e - 53) (-1074).
Proof. reflexivity. Qed.

Lemma Zdigits2_log2 m : 0 < m -> Zdigits2 m = Z.log2 m + 1.
Proof.
  destruct m as [|p|p]; try lia. intros _. simpl.
  induction p as [p IH|p IH|]; simpl; try reflexivity.
  - rewrite Pos2Z.inj_succ, IH. destruct p; simpl; lia.
  - rewrite Pos2Z.inj_succ, IH. destruct p; simpl; lia.
Qed.

Lemma Zdigits2_nonneg m : 0 <= Zdigits2 m.
Proof. destruct m; simpl; lia. Qed.

(** A non-negative integer below [2 ^ k] has at most [k] binary digits. *)
Lemma Zdigits2_bound m k : 0 <= k -> 0 <= m < 2 ^ k -> Zdigits2 m <= k.
Proof.
  intros Hk [H0 Hm]. destruct (Z.eq_dec m 0) as [->|Hne]; [simpl; lia|].
  rewrite Zdigits2_log2 by lia.
  assert (Z.log2 m < k) by (apply Z.log2_lt_pow2; lia). lia.
Qed.

Lemma shr_1_m mrs : 0 <= shr_m mrs -> 0 <= shr_m (shr_1 mrs) <= shr_m mrs.
Proof.
  destruct mrs as [m r s]. simpl. intros Hm.
  destruct m as [|[p|p|]|p]; simpl; lia.
Qed.

Lemma iter_shr_1_m p : forall mrs,
  0 <= shr_m mrs -> 0 <= shr_m (SpecFloat.iter_pos shr_1 p mrs) <= shr_m mrs.
Proof.
  induction p as [p IH|p IH|]; intros mrs Hm; simpl.
  - pose proof (shr_1_m mrs Hm) as H1.
    pose proof (IH (shr_1 mrs) (proj1 H1)) as H2.
    pose proof (IH _ (proj1 H2)) as H3. lia.
  - pose proof (IH mrs Hm) as H2.
    pose proof (IH _ (proj1 H2)) as H3. lia.
  - now apply shr_1_m.
Qed.

(** Shifting a mantissa to the exponent [fexp] asks for makes it no
    larger and gives it the larger of the two exponents. *)
Lemma shr_fexp_bounds m e l mrs' e' :
  0 <= m ->
  shr_fexp Float64.prec Float64.emax m e l = (mrs', e') ->
  0 <= shr_m mrs' <= m /\
  e' = Z.max e (fexp Float64.prec Float64.emax (Zdigits2 m + e)).
Proof.
  intros Hm. unfold shr_fexp, shr.
  set (f := fexp Float64.prec Float64.emax (Zdigits2 m + e)).
  assert (Hrec : shr_m (shr_record_of_loc m l) = m) by (destruct l as [|[]]; reflexivity).
  destruct (f - e) as [|p|p] eqn:E; intros [= <- <-].
  - rewrite Hrec. lia.
  - pose proof (iter_shr_1_m p (shr_record_of_loc m l)) as H. rewrite Hrec in H. lia.
  - rewrite Hrec. lia.
Qed.

Lemma round_nearest_even_bounds m l :
  m <= round_nearest_even m l <= m + 1.
Proof. destruct l as [|[]]; simpl; try lia. destruct (Z.even m); lia. Qed.

(** The infinity test of [binary_round_aux]: the result is finite when
    the exponent and the magnitude stay clear of [emax]. *)
Lemma binary_round_aux_finite sx mx ex lx k :
  0 <= mx < 2 ^ k -> 0 <= k -> ex <= 971 ->
  k + 1 + Z.max ex (Z.max (k + ex - 53) (-1074)) <= 1024 ->
  forall s, binary_round_aux Float64.prec Float64.emax sx mx ex lx <> S754_infinity s.
Proof.
  intros Hmx Hk Hex Hbound s. unfold binary_round_aux.
  destruct (shr_fexp _ _ mx ex lx) as [mrs1 e1] eqn:E1.
  apply shr_fexp_bounds in E1 as [Hm1 He1]; [|lia].
  set (mr := round_nearest_even (shr_m mrs1) (loc_of_shr_record mrs1)).
  pose proof (round_nearest_even_bounds (shr_m mrs1) (loc_of_shr_record mrs1)) as Hmr.
  fold mr in Hmr.
  destruct (shr_fexp _ _ mr e1 loc_Exact) as [mrs2 e2] eqn:E2.
  apply shr_fexp_bounds in E2 as [Hm2 He2]; [|lia].
  destruct (shr_m mrs2) as [|m2|m2]; try discriminate.
  destruct (Z.leb_spec e2 (Float64.emax - Float64.prec)) as [|Hgt]; [discriminate|].
  exfalso. change (Float64.emax - Float64.prec) with 971 in Hgt.
  rewrite fexp_64 in He1, He2.
  assert (Hd1 : Zdigits2 mx <= k) by (apply Zdigits2_bound; lia).
  assert (Hdr : Zdigits2 mr <= k + 1).
  { apply Zdigits2_bound; [lia|]. rewrite Z.pow_add_r by lia. lia. }
  pose proof (Zdigits2_nonneg mx). pose proof (Zdigits2_nonneg mr). lia.
Qed.

Lemma Zdigits2_mono a b : 0 < a <= b -> Zdigits2 a <= Zdigits2 b.
Proof.
  intros H. rewrite !Zdigits2_log2 by lia.
  pose proof (Z.log2_le_mono a b). lia.
Qed.

(** A quotient of at most 1 is a double: the division does not
    overflow. *)
Lemma nearest_quotient_finite a b s :
  0 <= a <= b -> 0 < b -> Float64.nearest_quotient a b <> S754_infinity s.
Proof.
  intros Ha Hb. unfold Float64.nearest_quotient.
  destruct (Z.eqb_spec a 0) as [->|Hne]; [discriminate|].
  rewrite !Z.abs_eq by lia. unfold SFdiv_core_binary.
  rewrite !Z.add_0_r, Z.sub_diag, fexp_64.
  pose proof (Zdigits2_mono a b ltac:(lia)) as Hd.
  set (e' := Z.min (Z.max (Zdigits2 a - Zdigits2 b - 53) (-1074)) 0).
  assert (He' : -1074 <= e' <= -53) by (unfold e'; lia).
  replace (0 - e') with (- e') by lia.
  destruct (- e') as [|p|p] eqn:Es; try lia.
  rewrite Z.shiftl_mul_pow2 by lia.
  destruct (Z.div_eucl (a * 2 ^ Z.pos p) b) as [q r] eqn:Eq.
  assert (Hq : q = a * 2 ^ Z.pos p / b) by (unfold Z.div; now rewrite Eq).
  assert (Hpow : 0 < 2 ^ Z.pos p) by (apply Z.pow_pos_nonneg; lia).
  assert (Hq0 : 0 <= q) by (rewrite Hq; apply Z.div_pos; nia).
  assert (Hq1 : q <= 2 ^ Z.pos p).
  { rewrite Hq. apply Z.div_le_upper_bound; nia. }
  apply (binary_round_aux_finite _ q e' _ (Z.pos p + 1)); try lia.
  rewrite Z.pow_add_r by lia. lia.
Qed.

Lemma int_truediv_proper_fraction a b :
  0 <= a <= b -> 0 < b -> is_Some (Float64.int_truediv a b).
Proof.
  intros Ha Hb. unfold Float64.int_truediv.
  replace (b =? 0) with false by (symmetry; apply Z.eqb_neq; lia).
  pose proof (fun s => nearest_quotient_finite a b s Ha Hb) as H.
  destruct (Float64.nearest_quotient a b) as [s|s| |s m e]; eauto.
  now destruct (H s).
Qed.

(** *** The formula *)

Lemma float_mul_comm x y : Float64.mul x y = Float64.mul y x.
Proof.
  unfold Float64.mul.
  destruct x as [sx|sx| |sx mx ex], y as [sy|sy| |sy my ey]; simpl;
    rewrite ?(xorb_comm sx sy); try reflexivity.
  now rewrite (Pos.mul_comm mx my), (Z.add_comm ex ey).
Qed.

(** A float above 1 is positive. *)
Lemma ltb_one_positive x :
  Float64.ltb Float64.one x = true ->
  x = S754_infinity false \/ exists m e, x = S754_finite false m e.
Proof.
  destruct x as [s|[|]| |[|] m e]; try discriminate; eauto.
Qed.

Lemma floor_to_int x :
  (forall m e, x <> S754_finite true m e) -> Float64.floor x = Float64.to_int x.
Proof.
  destruct x as [s|s| |[|] m e]; try reflexivity.
  intros H. now destruct (H m e).
Qed.

(** [floor(max(1, x))] is what [int(max(1, x))] computes. *)
Lemma floor_max_1 x : Float64.floor (Float64.max_1 x) = Float64.int_max_1 x.
Proof.
  unfold Float64.max_1, Float64.int_max_1.
  destruct (Float64.ltb Float64.one x) eqn:E; [|reflexivity].
  apply floor_to_int. intros m e ->. discriminate.
Qed.

Lemma int_max_1_nonneg x dmg : Float64.int_max_1 x = Some dmg -> 0 <= dmg.
Proof.
  unfold Float64.int_max_1. destruct (Float64.ltb Float64.one x) eqn:E.
  - apply ltb_one_positive in E as [->|(m & e & ->)]; [discriminate|].
    intros [= <-]. simpl. apply Z.shiftl_nonneg. lia.
  - intros [= <-]. lia.
Qed.

(** Rounding keeps the sign it is given. *)
Lemma binary_round_aux_sign sx mx ex lx m e :
  binary_round_aux Float64.prec Float64.emax sx mx ex lx <> S754_finite (negb sx) m e.
Proof.
  unfold binary_round_aux.
  destruct (shr_fexp _ _ mx ex lx) as [mrs1 e1].
  destruct (shr_fexp _ _ _ e1 loc_Exact) as [mrs2 e2].
  destruct (shr_m mrs2); [discriminate| |discriminate].
  destruct (_ <=? _); [|discriminate]. intros [= H _ _]. now destruct sx.
Qed.

Lemma of_Z_nonneg i m e : 0 <= i -> Float64.of_Z i <> S754_finite true m e.
Proof.
  intros Hi. unfold Float64.of_Z, binary_normalize.
  destruct i as [|p|p]; [discriminate| |lia].
  unfold binary_round. destruct (shl_align _ _ _) as [mz ez].
  apply (binary_round_aux_sign false).
Qed.

Lemma mul_nonneg x y m e :
  (forall m e, x <> S754_finite true m e) ->
  (exists my ey, y = S754_finite false my ey) ->
  Float64.mul x y <> S754_finite true m e.
Proof.
  intros Hx (my & ey & ->). unfold Float64.mul.
  destruct x as [sx|sx| |sx mx ex]; try discriminate. simpl.
  destruct sx; [now destruct (Hx mx ex)|]. apply (binary_round_aux_sign false).
Qed.

(** The damage of a critical hit: [floor] and [int] agree on it. *)
Lemma critical_floor dmg :
  0 <= dmg ->
  (Float64.of_int dmg ≫= fun damage_f =>
     Float64.floor (Float64.mul damage_f (Float64.literal 18 10)))
  = (Float64.of_int dmg ≫= fun dmg_f =>
       Float64.to_int (Float64.mul dmg_f (Float64.literal 18 10))).
Proof.
  intros Hd.
  assert (H : forall x, (forall m e, x <> S754_finite true m e) ->
                Float64.floor (Float64.mul x (Float64.literal 18 10))
                = Float64.to_int (Float64.mul x (Float64.literal 18 10))).
  { intros x Hx. apply floor_to_int. intros m e. apply mul_nonneg; [assumption|].
    eexists _, _. vm_compute. reflexivity. }
  unfold Float64.of_int.
  pose proof (fun m e => of_Z_nonneg dmg m e Hd) as Hs.
  destruct (Float64.of_Z dmg) as [s|s| |s m e]; try reflexivity;
    cbn [mbind option_bind]; now apply H.
Qed.

(** [compute_damage] on a move of positive power is the formula evaluated
    at the effective defense and attack the code computes. *)
Lemma float_compute_damage_formula attacker defender move variance crit_roll :
  0 < power move ->
  Float64.compute_damage attacker defender move variance crit_roll
  = (fun damage => (damage, Float64.ltb crit_roll (Float64.literal 7 100)))
    <$> Float64.formula_damage (code_effective_defense defender)
          (atk attacker + stacked_amount (status attacker) "atk_up")
          (power move) (lvl attacker - lvl defender) variance crit_roll.
Proof.
  intros Hp. unfold Float64.compute_damage, Float64.formula_damage.
  replace (power move <=? 0) with false by (symmetry; apply Z.leb_gt; lia).
  set (def_code := if 0 <? status_get (status defender) "def_up" then _ else _).
  assert (Hdef : def_code = code_effective_defense defender).
  { unfold def_code, code_effective_defense. rewrite stacked_amount_unfold.
    change ("def_up" +:+ "_amt") with "def_up_amt".
    destruct (0 <? status_get (status defender) "def_up"); lia. }
  set (atk_code := if 0 <? status_get (status attacker) "atk_up" then _ else _).
  assert (Hatk : atk_code = atk attacker + stacked_amount (status attacker) "atk_up").
  { unfold atk_code. rewrite stacked_amount_unfold.
    change ("atk_up" +:+ "_amt") with "atk_up_amt".
    destruct (0 <? status_get (status attacker) "atk_up"); lia. }
  rewrite Hdef, Hatk. clear def_code Hdef atk_code Hatk.
  destruct (Float64.int_truediv _ _) as [ratio|]; [|reflexivity]. simpl.
  destruct (Float64.of_int (power move)) as [base_f|]; [|reflexivity]. simpl.
  destruct (Float64.of_int (lvl attacker - lvl defender)) as [lvl_f|]; [|reflexivity]. simpl.
  rewrite (float_mul_comm lvl_f), floor_max_1.
  destruct (Float64.int_max_1 _) as [dmg|] eqn:Ed; [|reflexivity]. simpl.
  destruct (Float64.ltb crit_roll (Float64.literal 7 100)); [|reflexivity].
  rewrite (critical_floor dmg) by (eapply int_max_1_nonneg, Ed).
  destruct (Float64.of_int dmg) as [dmg_f|]; [|reflexivity]. simpl.
  destruct (Float64.to_int _); reflexivity.
Qed.

(** C4, as the code has it.  For a move of positive power the damage is
    the formula of the specification evaluated in double precision, each
    operation rounded to the nearest double in the order written, at
    [atk_eff], the attack plus the stacked attack-up amount, and at the
    effective defense of the code: the defense lowered by the stacked
    defense-down amount and clamped to 1, and only then raised by the
    stacked defense-up amount (the ratio clamps the sum to 1 once more).
    It is the net-amount formula of the specification whenever
    defense-down or defense-up is absent or the lowered defense is at
    least 1.  With attack 1824, defense 1102, equal levels, power 40, no
    modifiers, variance 1.0 and no critical hit the damage is 66. *)
Theorem compute_damage_formula attacker defender move variance crit_roll :
  0 < power move ->
  Float64.compute_damage attacker defender move variance crit_roll
  = (fun damage => (damage, Float64.ltb crit_roll (Float64.literal 7 100)))
    <$> Float64.formula_damage (code_effective_defense defender)
          (atk attacker + stacked_amount (status attacker) "atk_up")
          (power move) (lvl attacker - lvl defender) variance crit_roll /\
  (status_get (status defender) "def_down" <= 0 \/
   status_get (status defender) "def_up" <= 0 \/
   1 <= dfns defender - status_get (status defender) "def_down_amt" ->
   fst <$> Float64.compute_damage attacker defender move variance crit_roll
   = Float64.spec_damage attacker defender move variance crit_roll) /\
  (atk attacker = 1824 -> dfns defender = 1102 -> lvl attacker = lvl defender ->
   power move = 40 -> status attacker = ∅ -> status defender = ∅ ->
   variance = Float64.one -> Float64.ltb crit_roll (Float64.literal 7 100) = false ->
   Float64.compute_damage attacker defender move variance crit_roll = Some (66, false)).
Proof.
  intros Hp. rewrite float_compute_damage_formula by assumption.
  split; [reflexivity | split].
  - intros H. unfold Float64.spec_damage, Float64.formula_damage.
    assert (Hmax : Z.max 1 (code_effective_defense defender)
                   = Z.max 1 (spec_effective_value (dfns defender)
                                (stacked_amount (status defender) "def_up")
                                (stacked_amount (status defender) "def_down"))).
    { unfold code_effective_defense, spec_effective_value.
      rewrite !stacked_amount_unfold.
      change ("def_up" +:+ "_amt") with "def_up_amt".
      change ("def_down" +:+ "_amt") with "def_down_amt".
      destruct (Z.ltb_spec 0 (status_get (status defender) "def_down")),
               (Z.ltb_spec 0 (status_get (status defender) "def_up")); lia. }
    rewrite Hmax, <- option_fmap_compose.
    apply option_fmap_id.
  - intros Ha Hd Hl Hpw Hsa Hsd Hv Hc.
    unfold Float64.formula_damage, code_effective_defense, stacked_amount.
    rewrite Ha, Hd, Hl, Hpw, Hsa, Hsd, Hv, Hc, !status_get_empty, Z.sub_diag.
    vm_compute. reflexivity.
Qed.

(** The scenario is Cbroman's Lightning Rush against another Cbroman. *)
Lemma compute_damage_formula_witness :
  Float64.compute_damage cbroman cbroman (mkMove "Lightning Rush" 40 81 "special" None)
    Float64.one Float64.one
  = Some (66, false).
Proof.
  apply (compute_damage_formula cbroman cbroman
           (mkMove "Lightning Rush" 40 81 "special" None) Float64.one Float64.one);
    first [reflexivity | simpl; lia].
Defined.

(** Shelltron (defense 1276) after eleven of GigaCodes' Compile Error
    (defense down by 125 each) and one Fortify of its own (defense up by
    2) is hit by GigaCodes' Binary Strike.  The code divides the attack by
    [max(1, 1276 - 1375) + 2 = 3]; the net-amount formula divides it by
    [max(1, 1276 + 2 - 1375) = 1]. *)
Lemma effective_defense_counterexample :
  let defender := def_boost (Nat.iter 11 (fun p => def_lower p 125 6) shelltron) 2 3 in
  let move := mkMove "Binary Strike" 190 66 "physical" None in
  Float64.compute_damage GigaCodes defender move Float64.one Float64.one
  = Some (139898, false) /\
  Float64.spec_damage GigaCodes defender move Float64.one Float64.one = Some 419694 /\
  fst <$> Float64.compute_damage GigaCodes defender move Float64.one Float64.one
  <> Float64.spec_damage GigaCodes defender move Float64.one Float64.one.
Proof. vm_compute. repeat split; discriminate. Qed.

(** The rounding of the doubles shows: HappyPIG's HomelessShot against
    Voltaicor, variance 1.0 and no critical hit, deals 41, the product
    before truncation being just below the 42 of exact arithmetic. *)
Lemma double_rounding_shows :
  let move := mkMove "HomelessShot" 25 65 "physical" None in
  Float64.compute_damage ishowpig voltaicor move Float64.one Float64.one = Some (41, false) /\
  fst (compute_damage ishowpig voltaicor move 1 1) = 42.
Proof. vm_compute. split; reflexivity. Qed.

(** ** Claim C7: minimum damage *)



(** ** Claim C3: energy gating *)

(** C3.  When the move costs more energy than the attacker has,
    [perform_move] returns without changing either combatant (energy, HP
    and status included) and reports one failure message: that the
    attacker lacked energy, or, when the paralysis check cancelled the
    action first, that it is fully paralyzed.  No other combatant is
    within reach: the team arguments of [perform_move] are only drawn. *)
Theorem insufficient_energy_is_noop attacker defender move r :
  energy attacker < energy_cost move ->
  exists messages,
    perform_move attacker defender move r = Some (attacker, defender, messages) /\
    messages =
      [if is_paralyzed attacker && Qlt_bool (para_roll r) (25 # 100)
       then name attacker +:+ " is fully paralyzed!"
       else name attacker +:+ " tried to use " +:+ move_name move
            +:+ " but lacked energy!"].
Proof.
  intros H. unfold perform_move.
  destruct (is_paralyzed attacker && Qlt_bool (para_roll r) (25 # 100)).
  - eexists. split; reflexivity.
  - apply Z.ltb_lt in H. rewrite H. eexists. split; reflexivity.
Qed.

(** A combatant left with 50 energy attempts a move that costs 80. *)
Lemma insufficient_energy_is_noop_witness :
  exists messages,
    perform_move (set_energy cbroman 50) shelltron
      (mkMove "Much Wow" 35 80 "special" None) (mkRolls 1 1 1 1 1)
    = Some (set_energy cbroman 50, shelltron, messages) /\
    messages = ["Cbroman tried to use Much Wow but lacked energy!"].
Proof.
  apply (insufficient_energy_is_noop (set_energy cbroman 50) shelltron
           (mkMove "Much Wow" 35 80 "special" None) (mkRolls 1 1 1 1 1)).
  simpl. lia.
Defined.

(** ** Claim C2: percent-of-max-HP damage *)

(** C2 does not hold of the code.  The percent-of-max-HP hooks of the
    roster call [deal_percent_max_hp] themselves and return nothing, so
    [perform_move] never reaches the branch that sets the formula damage
    to 0: the defender loses the percentage and the formula damage.  Suddymoodda's KillerStrike (40
    percent) against a fresh Cbroman (max HP 1758), variance 1, no
    critical hit: 703 + 746 HP are lost and 309 remain, where the
    percentage alone would leave 1055. *)
Lemma percent_damage_is_added :
  let move := mkMove "KillerStrike" 380 79 "special" (Some (HPercentMaxHp OnDefender 40)) in
  let r := mkRolls 1 1 1 1 1 in
  moves SuddyyModa !! 0%nat = Some move /\
  percent_max_hp_amount cbroman 40 = 703 /\
  fst (compute_damage SuddyyModa cbroman move 1 1) = 746 /\
  exists attacker' defender' messages,
    perform_move SuddyyModa cbroman move r = Some (attacker', defender', messages) /\
    hp defender' = hp cbroman - 703 - 746 /\
    hp defender' <> hp cbroman - 703.
Proof.
  cbv zeta. split; [reflexivity | split; [reflexivity | split; [reflexivity|]]].
  eexists _, _, _. split; [vm_compute; reflexivity|].
  split; [reflexivity | discriminate].
Qed.

(** A hook that returns the tuple [("percent_max_hp", percent)] takes the
    branch that replaces the formula damage. *)
Lemma percent_damage_tuple_replaces :
  let move := mkMove "KillerStrike" 380 79 "special" (Some (HTuple (TPercentMaxHp 40))) in
  exists attacker' defender' messages,
    perform_move SuddyyModa cbroman move (mkRolls 1 1 1 1 1)
    = Some (attacker', defender', messages) /\
    hp defender' = hp cbroman - 703.
Proof.
  cbv zeta. eexists _, _, _. split; [vm_compute; reflexivity | reflexivity].
Qed.

(** ** Claim C10: the switch action *)

Lemma fields_set_energy p e :
  name (set_energy p e) = name p /\ lvl (set_energy p e) = lvl p /\
  max_hp (set_energy p e) = max_hp p /\ atk (set_energy p e) = atk p /\
  dfns (set_energy p e) = dfns p /\ spd (set_energy p e) = spd p /\
  energy_max (set_energy p e) = energy_max p /\ moves (set_energy p e) = moves p /\
  hp (set_energy p e) = hp p /\ status (set_energy p e) = status p.
Proof. repeat split. Qed.

Lemma pvp_switch_spec who new_idx b p :
  battle_team who b !! new_idx = Some p ->
  exists b',
    pvp_switch who new_idx b = Some b' /\
    active_idx who b' = new_idx /\
    active_idx (other who) b' = active_idx (other who) b /\
    battle_team who b' = <[new_idx := regain_energy 8 p]> (battle_team who b) /\
    battle_team (other who) b' = battle_team (other who) b.
Proof.
  intros H. destruct who; simpl in *; unfold pvp_switch; rewrite H;
    eexists; repeat split.
Qed.

(** C10.  In [battle_pvp] (either player) and in [battle_1v3] (the
    player) a switch to a team member makes it the active combatant and
    sets its energy to [min(energy_max, energy + 8)]; every other field of
    it (HP and status among them), every other member of its team and the
    whole opposing team, with its active index, stay as they were. *)
Theorem switch_only_regains_energy who new_idx b p :
  battle_team who b !! new_idx = Some p ->
  exists b' p',
    pvp_switch who new_idx b = Some b' /\
    (who = Player1 -> gauntlet_switch new_idx b = Some b') /\
    active_idx who b' = new_idx /\
    battle_team who b' !! new_idx = Some p' /\
    energy p' = Z.min (energy_max p) (energy p + 8) /\
    (name p' = name p /\ lvl p' = lvl p /\ max_hp p' = max_hp p /\ atk p' = atk p /\
     dfns p' = dfns p /\ spd p' = spd p /\ energy_max p' = energy_max p /\
     moves p' = moves p /\ hp p' = hp p /\ status p' = status p) /\
    length (battle_team who b') = length (battle_team who b) /\
    (forall i, i <> new_idx -> battle_team who b' !! i = battle_team who b !! i) /\
    battle_team (other who) b' = battle_team (other who) b /\
    active_idx (other who) b' = active_idx (other who) b.
Proof.
  intros H. destruct (pvp_switch_spec who new_idx b p H) as (b' & Hs & Hi & Hoi & Ht & Hot).
  exists b', (regain_energy 8 p). split; [assumption|].
  split.
  { intros ->. simpl in H. unfold gauntlet_switch. rewrite H.
    unfold pvp_switch in Hs. rewrite H in Hs. assumption. }
  split; [assumption|]. rewrite Ht.
  split.
  { apply list_lookup_insert_eq. eapply lookup_lt_Some. eassumption. }
  split; [reflexivity|].
  split; [apply fields_set_energy|].
  split; [apply length_insert|].
  split; [|split; assumption].
  intros i Hne. apply list_lookup_insert_ne. congruence.
Qed.

(** Player 1 switches from Cbroman to a Shelltron that is 5 energy short
    of its maximum: it gains 5, not 8. *)
Lemma switch_only_regains_energy_witness :
  let tired := set_energy shelltron (energy_max shelltron - 5) in
  let b := mkBattle [cbroman; tired; emberfox] [aquabyte; nullvoid; chaddoge] 0 0 in
  exists b' p',
    pvp_switch Player1 1 b = Some b' /\
    (Player1 = Player1 -> gauntlet_switch 1 b = Some b') /\
    active_idx Player1 b' = 1%nat /\
    battle_team Player1 b' !! 1%nat = Some p' /\
    energy p' = Z.min (energy_max tired) (energy tired + 8) /\
    (name p' = name tired /\ lvl p' = lvl tired /\ max_hp p' = max_hp tired /\
     atk p' = atk tired /\ dfns p' = dfns tired /\ spd p' = spd tired /\
     energy_max p' = energy_max tired /\ moves p' = moves tired /\
     hp p' = hp tired /\ status p' = status tired) /\
    length (battle_team Player1 b') = length (battle_team Player1 b) /\
    (forall i, i <> 1%nat -> battle_team Player1 b' !! i = battle_team Player1 b !! i) /\
    battle_team (other Player1) b' = battle_team (other Player1) b /\
    active_idx (other Player1) b' = active_idx (other Player1) b.
Proof.
  cbv zeta.
  apply (switch_only_regains_energy Player1 1
           (mkBattle [cbroman; set_energy shelltron (energy_max shelltron - 5); emberfox]
                     [aquabyte; nullvoid; chaddoge] 0 0)
           (set_energy shelltron (energy_max shelltron - 5))).
  reflexivity.
Defined.

(** ** Claim C8: the statistics invariant *)

Lemma before_refresh_Forall (P : Float64.StatRecord -> Prop)
    (stats : gmap string Float64.StatRecord) w l :
  P Float64.new_record ->
  (forall r, P r -> P (Float64.record_win r)) ->
  (forall r, P r -> P (Float64.record_loss r)) ->
  map_Forall (fun _ r => P r) stats ->
  map_Forall (fun _ r => P r)
    (alter Float64.record_loss l
       (Float64.ensure_record l
          (alter Float64.record_win w (Float64.ensure_record w stats)))).
Proof.
  intros Hnew Hwin Hloss H.
  assert (Hens : forall n (m : gmap string Float64.StatRecord),
             map_Forall (fun _ r => P r) m ->
             map_Forall (fun _ r => P r) (Float64.ensure_record n m)).
  { intros n m Hm. unfold Float64.ensure_record. destruct (m !! n); [assumption|].
    now apply map_Forall_insert_2. }
  assert (Halt : forall f n (m : gmap string Float64.StatRecord),
             (forall r, P r -> P (f r)) ->
             map_Forall (fun _ r => P r) m -> map_Forall (fun _ r => P r) (alter f n m)).
  { intros f n m Hf Hm k r. rewrite lookup_alter. case_decide as Hk; [|apply Hm].
    subst k. destruct (m !! n) as [r0|] eqn:E; [|discriminate].
    intros [= <-]. apply Hf. exact (Hm n r0 E). }
  apply Halt; [assumption|]. apply Hens. apply Halt; [assumption|]. now apply Hens.
Qed.

Lemma refresh_percentage_Some r r' :
  Float64.refresh_percentage r = Some r' ->
  Float64.wins r' = Float64.wins r /\ Float64.losses r' = Float64.losses r /\
  Float64.matches r' = Float64.matches r /\
  Some (Float64.win_percentage r')
  = Float64.percentage (Float64.wins r) (Float64.matches r).
Proof.
  unfold Float64.refresh_percentage, Float64.percentage.
  destruct (0 <? Float64.matches r).
  - destruct (Float64.int_truediv _ _); [|discriminate]. intros [= <-]. repeat split.
  - intros [= <-]. repeat split.
Qed.

(** C8.  If every record of the statistics satisfies
    [wins + losses = matches], so does every record after [update_stats],
    and every record then has [win_percentage] equal to
    [round(wins / matches * 100, 2)], computed in double precision as
    Python does, when [matches > 0] and to [0.0] otherwise.  With counters
    that are not negative the update does not raise. *)
Theorem update_stats_invariant (stats : gmap string Float64.StatRecord)
    winner_pokemon loser_pokemon :
  (forall n r, stats !! n = Some r ->
               Float64.wins r + Float64.losses r = Float64.matches r) ->
  (forall stats' n r,
     Float64.update_stats stats winner_pokemon loser_pokemon = Some stats' ->
     stats' !! n = Some r ->
     Float64.wins r + Float64.losses r = Float64.matches r /\
     Some (Float64.win_percentage r)
     = Float64.percentage (Float64.wins r) (Float64.matches r)) /\
  ((forall n r, stats !! n = Some r -> 0 <= Float64.wins r /\ 0 <= Float64.losses r) ->
   is_Some (Float64.update_stats stats winner_pokemon loser_pokemon)).
Proof.
  intros Hbal. unfold Float64.update_stats. cbv zeta.
  set (st := alter Float64.record_loss _ _).
  assert (Hst : map_Forall (fun _ r => Float64.wins r + Float64.losses r = Float64.matches r) st).
  { apply (before_refresh_Forall
             (fun r => Float64.wins r + Float64.losses r = Float64.matches r));
      [reflexivity | intros r; simpl; lia | intros r; simpl; lia | exact Hbal]. }
  split.
  - intros stats' n r. case_decide; [|discriminate]. intros [= <-].
    rewrite lookup_omap. destruct (st !! n) as [r0|] eqn:E; [|discriminate]. simpl.
    intros Hr. apply refresh_percentage_Some in Hr as (-> & -> & -> & ->).
    split; [exact (Hst n r0 E) | reflexivity].
  - intros Hpos.
    assert (Hst' : map_Forall (fun _ r => 0 <= Float64.wins r /\ 0 <= Float64.losses r) st).
    { apply (before_refresh_Forall (fun r => 0 <= Float64.wins r /\ 0 <= Float64.losses r));
        [simpl; lia | intros r; simpl; lia | intros r; simpl; lia | exact Hpos]. }
    rewrite decide_True; [eauto|].
    intros n r Hr. specialize (Hst n r Hr). specialize (Hst' n r Hr). simpl in Hst, Hst'.
    unfold Float64.refresh_percentage.
    destruct (Z.ltb_spec 0 (Float64.matches r)) as [Hm|Hm]; [|eauto].
    destruct (int_truediv_proper_fraction (Float64.wins r) (Float64.matches r))
      as [q ->]; [lia | assumption|].
    simpl. eauto.
Qed.

(** Cbroman, on 22 wins out of 159, beats a Shelltron that has no record
    yet: 23 of 160 is stored as 14.37 (the product [(23 / 160) * 100] is
    the double just below 14.375), 0 of 1 as 0.0. *)
Lemma update_stats_invariant_witness :
  let stats : gmap string Float64.StatRecord :=
    {["Cbroman" := Float64.mkStat 22 137 159 (Float64.literal 1384 100)]} in
  exists stats',
    Float64.update_stats stats cbroman shelltron = Some stats' /\
    stats' !! "Cbroman" = Some (Float64.mkStat 23 137 160 (Float64.literal 1437 100)) /\
    stats' !! "Shelltron" = Some (Float64.mkStat 0 1 1 (S754_zero false)) /\
    (Float64.wins (Float64.mkStat 23 137 160 (Float64.literal 1437 100))
     + Float64.losses (Float64.mkStat 23 137 160 (Float64.literal 1437 100))
     = Float64.matches (Float64.mkStat 23 137 160 (Float64.literal 1437 100)) /\
     Some (Float64.literal 1437 100) = Float64.percentage 23 160).
Proof.
  cbv zeta. eexists. split; [vm_compute; reflexivity|].
  split; [vm_compute; reflexivity|]. split; [vm_compute; reflexivity|].
  refine (proj1 (update_stats_invariant
                   {["Cbroman" := Float64.mkStat 22 137 159 (Float64.literal 1384 100)]}
                   cbroman shelltron _) _ "Cbroman" _ _ _).
  - intros n r H. apply lookup_singleton_Some in H as [_ <-]. reflexivity.
  - vm_compute. reflexivity.
  - vm_compute. reflexivity.
Defined.

(** ** Sorting by descending key *)

Section SortDesc.
Context {A : Type} (key : A -> Z).

Lemma insert_desc_perm x l : Permutation (insert_desc key x l) (x :: l).
Proof.
  induction l as [|y l IH]; simpl; [reflexivity|].
  destruct (key y <=? key x); [reflexivity|].
  rewrite IH. apply perm_swap.
Qed.

Lemma sort_desc_perm l : Permutation (sort_desc key l) l.
Proof.
  induction l as [|x l IH]; simpl; [reflexivity|].
  rewrite insert_desc_perm. now apply perm_skip.
Qed.

Lemma insert_desc_sorted x l :
  StronglySorted (fun a b => key b <= key a) l ->
  StronglySorted (fun a b => key b <= key a) (insert_desc key x l).
Proof.
  induction 1 as [|y l Hs IH Hy]; simpl.
  - constructor; constructor.
  - destruct (Z.leb_spec (key y) (key x)) as [Hle|Hgt].
    + constructor; [now constructor|].
      constructor; [exact Hle|].
      eapply Forall_impl; [exact Hy|]. simpl. intros z Hz. lia.
    + constructor; [exact IH|].
      eapply Permutation_Forall; [symmetry; apply insert_desc_perm|].
      constructor; [lia | exact Hy].
Qed.

Lemma sort_desc_sorted l :
  StronglySorted (fun a b => key b <= key a) (sort_desc key l).
Proof.
  induction l as [|x l IH]; simpl; [constructor|].
  now apply insert_desc_sorted.
Qed.

(** Insertion walks only past elements of strictly larger key, so the
    elements of any one key keep their order. *)
Lemma insert_desc_filter v x l :
  List.filter (fun a => key a =? v) (insert_desc key x l)
  = List.filter (fun a => key a =? v) (x :: l).
Proof.
  induction l as [|y l IH]; [reflexivity|].
  cbn [insert_desc]. destruct (Z.leb_spec (key y) (key x)) as [Hle|Hgt]; [reflexivity|].
  cbn [List.filter] in *. rewrite IH.
  destruct (Z.eqb_spec (key x) v) as [Hx|Hx]; [|reflexivity].
  destruct (Z.eqb_spec (key y) v) as [Hy|Hy]; [lia | reflexivity].
Qed.

Lemma sort_desc_stable v l :
  List.filter (fun a => key a =? v) (sort_desc key l)
  = List.filter (fun a => key a =? v) l.
Proof.
  induction l as [|x l IH]; [reflexivity|].
  cbn [sort_desc foldr]. rewrite insert_desc_filter.
  cbn [List.filter]. fold (sort_desc key l). now rewrite IH.
Qed.

Lemma filter_all (f : A -> bool) l :
  (forall a, In a l -> f a = true) -> List.filter f l = l.
Proof.
  induction l as [|x l IH]; intros H; [reflexivity|].
  cbn [List.filter]. rewrite (H x) by now left.
  f_equal. apply IH. intros a Ha. apply H. now right.
Qed.

Lemma sort_desc_all_tied v l :
  (forall a, In a l -> key a = v) -> sort_desc key l = l.
Proof.
  intros H.
  rewrite <- (filter_all (fun a => key a =? v) (sort_desc key l)).
  - rewrite sort_desc_stable. apply filter_all.
    intros a Ha. apply Z.eqb_eq. now apply H.
  - intros a Ha. apply Z.eqb_eq, H.
    eapply Permutation_in; [apply sort_desc_perm | exact Ha].
Qed.
End SortDesc.

(** ** Claim C9: speed ties *)

Lemma slot_action_slot choice who team active slot_idx a :
  In a (slot_action choice who team active slot_idx) ->
  act_slot a = slot_idx /\ act_type a = choice who slot_idx /\
  exists idx, active !! slot_idx = Some idx /\ team !! idx = Some (act_pokemon a).
Proof.
  unfold slot_action.
  destruct (active !! slot_idx) as [idx|]; [|intros []].
  destruct (team !! idx) as [p|] eqn:E; [|intros []].
  destruct (alive p); [|intros []].
  intros [<-|[]]. repeat split. exists idx. split; [reflexivity | exact E].
Qed.

(** C9.  The actions are collected in the order player 1 slot 1, player 1
    slot 2, player 2 slot 1, player 2 slot 2 (a slot without a living
    combatant contributes none).  Sorting by speed keeps the collected
    order among the actions of any one speed; in particular, when all
    queued actions have the same speed they resolve in exactly the
    collected order.  The resolution order is a function of the queued
    actions and their combatants' speeds. *)
Theorem doubles_speed_ties choice team1 team2 p1_active p2_active :
  let queued := all_actions choice team1 team2 p1_active p2_active in
  let order := resolution_order choice team1 team2 p1_active p2_active in
  queued = slot_action choice Player1 team1 p1_active 0
           ++ slot_action choice Player1 team1 p1_active 1
           ++ slot_action choice Player2 team2 p2_active 0
           ++ slot_action choice Player2 team2 p2_active 1 /\
  (forall who team active slot_idx a,
      In a (slot_action choice who team active slot_idx) -> act_slot a = slot_idx) /\
  order = sort_desc action_speed queued /\
  (forall v,
      List.filter (fun a => action_speed a =? v) order
      = List.filter (fun a => action_speed a =? v) queued) /\
  (forall v, (forall a, In a queued -> action_speed a = v) -> order = queued).
Proof.
  cbv zeta. unfold resolution_order.
  split; [|split; [|split; [reflexivity | split]]].
  - unfold all_actions, side_actions. now rewrite <- !app_assoc.
  - intros who team active slot_idx a Ha.
    now apply slot_action_slot in Ha as [? _].
  - intros v. apply sort_desc_stable.
  - intros v H. eapply sort_desc_all_tied. exact H.
Qed.

(** Four combatants of speed 1387, player 2's slots naming its team in
    reverse: every action ties, and the actions resolve as collected. *)
Lemma doubles_speed_ties_witness :
  let mk := fun n => new_pokemon n 100 1000 1000 1000 1387 1000 [] in
  let choice := fun who slot =>
    match who with Player1 => ActPass | Player2 => ActStatus (mkMove "Heal" 0 58 "status" None) end in
  resolution_order choice [mk "A"; mk "B"] [mk "C"; mk "D"] [0%nat; 1%nat] [1%nat; 0%nat]
  = [mkAction ActPass (mk "A") 0; mkAction ActPass (mk "B") 1;
     mkAction (ActStatus (mkMove "Heal" 0 58 "status" None)) (mk "D") 0;
     mkAction (ActStatus (mkMove "Heal" 0 58 "status" None)) (mk "C") 1].
Proof.
  cbv zeta.
  refine (proj2 (proj2 (proj2 (proj2 (doubles_speed_ties _ _ _ _ _)))) 1387 _).
  intros a Ha. cbn in Ha.
  destruct Ha as [<-|[<-|[<-|[<-|[]]]]]; reflexivity.
Defined.

(** ** Claim C5: the bounds invariant *)

Lemma combatant_ok_set_hp p h :
  combatant_ok p -> 0 <= h <= max_hp p -> combatant_ok (set_hp p h).
Proof. intros [[Hh He] Hd] H. repeat split; simpl; try lia. exact Hd. Qed.

Lemma combatant_ok_set_energy p e :
  combatant_ok p -> 0 <= e <= energy_max p -> combatant_ok (set_energy p e).
Proof. intros [[Hh He] Hd] H. repeat split; simpl; try lia. exact Hd. Qed.

Lemma combatant_ok_set_status p st :
  combatant_ok p -> dot_ok st -> combatant_ok (set_status p st).
Proof. intros [[Hh He] Hd] H. repeat split; simpl; try lia. exact H. Qed.

Lemma dot_ok_insert_int st k n : dot_ok st -> dot_ok (<[k := VInt n]> st).
Proof.
  intros H key dmg turns Hk. rewrite lookup_insert. case_decide.
  - discriminate.
  - now apply H.
Qed.

Lemma dot_ok_insert_dict st k dmg turns :
  dot_ok st -> (forall x, dmg = Some x -> 0 <= x) ->
  dot_ok (<[k := VDict dmg turns]> st).
Proof.
  intros H Hd key dmg' turns' Hk. rewrite lookup_insert. case_decide.
  - intros [= Hx _]. now apply Hd.
  - now apply H.
Qed.

Lemma dot_ok_delete st k : dot_ok st -> dot_ok (delete k st).
Proof.
  intros H key dmg turns Hk. rewrite lookup_delete. case_decide.
  - discriminate.
  - now apply H.
Qed.

Lemma dot_ok_same_entries (st st' : gmap string StatusValue) :
  st' !! "poison" = st !! "poison" -> st' !! "burn" = st !! "burn" ->
  dot_ok st -> dot_ok st'.
Proof.
  intros Hp Hb H key dmg turns [->| ->].
  - rewrite Hp. now apply H; left.
  - rewrite Hb. now apply H; right.
Qed.

Lemma stack_modifier_ok key p amount turns :
  combatant_ok p -> combatant_ok (stack_modifier key p amount turns).
Proof.
  intros H. apply combatant_ok_set_status; [assumption|].
  apply dot_ok_insert_int, dot_ok_insert_int, H.
Qed.

Lemma speed_boost_ok p amount turns :
  combatant_ok p -> combatant_ok (speed_boost p amount turns).
Proof. intros H. unfold speed_boost. destruct (0 <? amount); now apply stack_modifier_ok. Qed.

Lemma apply_poison_ok p dmg turns :
  0 <= dmg -> combatant_ok p -> combatant_ok (apply_poison p dmg turns).
Proof.
  intros Hd H. apply combatant_ok_set_status; [assumption|].
  apply dot_ok_insert_dict; [apply H|]. now intros x [= <-].
Qed.

Lemma apply_burn_ok p dmg turns :
  0 <= dmg -> combatant_ok p -> combatant_ok (apply_burn p dmg turns).
Proof.
  intros Hd H. apply combatant_ok_set_status; [assumption|].
  apply dot_ok_insert_dict; [apply H|]. now intros x [= <-].
Qed.

Lemma apply_paralysis_ok p turns :
  combatant_ok p -> combatant_ok (apply_paralysis p turns).
Proof.
  intros H. apply combatant_ok_set_status; [assumption|].
  apply dot_ok_insert_dict; [apply H|]. discriminate.
Qed.

Lemma heal_ok p amount : 0 <= amount -> combatant_ok p -> combatant_ok (heal p amount).
Proof.
  intros Ha H. apply combatant_ok_set_hp; [assumption|].
  destruct H as [[Hh _] _]. lia.
Qed.

Lemma int_of_float_nonneg (x : Q) : (0 <= x)%Q -> 0 <= int_of_float x.
Proof.
  intros H. rewrite int_of_float_floor by assumption.
  change 0 with (Qfloor (inject_Z 0)). now apply Qfloor_resp_le.
Qed.

Lemma percent_max_hp_amount_nonneg p percent :
  0 <= max_hp p -> 0 <= percent -> 0 <= percent_max_hp_amount p percent.
Proof.
  intros Hm Hp. apply int_of_float_nonneg.
  apply Qmult_le_0_compat.
  - change 0%Q with (inject_Z 0). now rewrite <- Zle_Qle.
  - apply Qmult_le_0_compat; [|discriminate].
    change 0%Q with (inject_Z 0). now rewrite <- Zle_Qle.
Qed.

Lemma deal_percent_max_hp_ok p percent :
  0 <= percent -> combatant_ok p -> combatant_ok (deal_percent_max_hp p percent).
Proof.
  intros Hp H. apply combatant_ok_set_hp; [assumption|].
  destruct H as [[Hh _] _].
  pose proof (percent_max_hp_amount_nonneg p percent ltac:(lia) Hp). lia.
Qed.

Lemma animate_hp_drain_ok p damage :
  combatant_ok p -> combatant_ok (animate_hp_drain p damage).
Proof.
  intros H. unfold animate_hp_drain.
  destruct (Z.leb_spec (hp p - Z.max 0 (hp p - damage)) 0); [assumption|].
  apply combatant_ok_set_hp; [assumption|].
  destruct H as [[Hh _] _]. lia.
Qed.

Lemma on_target_ok t f attacker defender a' d' :
  (forall p, combatant_ok p -> combatant_ok (f p)) ->
  combatant_ok attacker -> combatant_ok defender ->
  on_target t f attacker defender = (a', d') ->
  combatant_ok a' /\ combatant_ok d'.
Proof. intros Hf Ha Hd. destruct t; intros [= <- <-]; auto. Qed.

Lemma call_effect_ok h attacker defender a' d' result :
  hook_ok h = true -> combatant_ok attacker -> combatant_ok defender ->
  call_effect h attacker defender = Some (a', d', result) ->
  combatant_ok a' /\ combatant_ok d'.
Proof.
  intros Hh Ha Hd.
  destruct h; simpl in Hh |- *; try apply Z.leb_le in Hh;
    try (intros [= H <-]; revert H; apply on_target_ok; try assumption; intros q Hq).
  - now apply stack_modifier_ok.
  - now apply stack_modifier_ok.
  - now apply speed_boost_ok.
  - now apply stack_modifier_ok.
  - now apply apply_poison_ok.
  - now apply apply_paralysis_ok.
  - now apply apply_burn_ok.
  - now apply heal_ok.
  - now apply deal_percent_max_hp_ok.
  - destruct (bonus_damage_if_hp_above attacker defender threshold); [|discriminate].
    intros [= <- <- _]. auto.
  - intros [= <- <- _]. auto.
Qed.

Lemma call_effect_tuple h attacker defender a' d' r :
  call_effect h attacker defender = Some (a', d', Some r) ->
  h = HTuple r /\ a' = attacker /\ d' = defender.
Proof.
  destruct h; simpl; try (destruct t; simpl); try discriminate.
  - destruct (bonus_damage_if_hp_above attacker defender threshold); discriminate.
  - intros [= <- <- <-]. auto.
Qed.

Lemma resolve_status_move_ok attacker defender move messages a' d' messages' :
  move_ok move = true -> combatant_ok attacker -> combatant_ok defender ->
  resolve_status_move attacker defender move messages = Some (a', d', messages') ->
  combatant_ok a' /\ combatant_ok d'.
Proof.
  intros Hm Ha Hd. unfold resolve_status_move.
  unfold move_ok in Hm. apply andb_true_iff in Hm as [_ Hm].
  destruct (effect move) as [h|]; [|intros [= <- <- _]; auto].
  destruct (call_effect h attacker defender) as [[[a1 d1] result]|] eqn:E; [|discriminate].
  destruct (call_effect_ok _ _ _ _ _ _ Hm Ha Hd E) as [Ha1 Hd1].
  destruct result as [[t amount turns|percent| |threshold|]|];
    try (intros [= <- <- _]; auto).
  - destruct t; simpl; intros [= <- <- _]; split;
      try assumption; now apply stack_modifier_ok.
  - split; [assumption|]. apply deal_percent_max_hp_ok; [|assumption].
    apply call_effect_tuple in E as (-> & _ & _). now apply Z.leb_le.
Qed.

Lemma resolve_damage_move_ok attacker defender move r messages a' d' messages' :
  move_ok move = true -> combatant_ok attacker -> combatant_ok defender ->
  resolve_damage_move attacker defender move r messages = (a', d', messages') ->
  combatant_ok a' /\ combatant_ok d'.
Proof.
  intros Hm Ha Hd. unfold resolve_damage_move.
  unfold move_ok in Hm. apply andb_true_iff in Hm as [_ Hm].
  destruct (compute_damage attacker defender move (variance1 r) (crit_roll1 r))
    as [dmg crit].
  set (hooked := match effect move with Some _ => _ | None => _ end).
  assert (Hhooked : combatant_ok hooked.1.1.1 /\ combatant_ok hooked.1.1.2).
  { unfold hooked. destruct (effect move) as [h|]; [|simpl; auto].
    destruct (call_effect h attacker defender) as [[[a1 d1] result]|] eqn:E;
      [|simpl; auto].
    destruct (call_effect_ok _ _ _ _ _ _ Hm Ha Hd E) as [Ha1 Hd1].
    destruct result as [[t amount turns|percent| |threshold|]|]; simpl; auto.
    - split; [assumption|]. apply deal_percent_max_hp_ok; [|assumption].
      apply call_effect_tuple in E as (-> & _ & _). now apply Z.leb_le.
    - destruct (1 <? double_hit_if_faster a1 d1); simpl; [|auto].
      split; [assumption|]. apply combatant_ok_set_hp; [assumption|].
      pose proof (compute_damage_nonneg a1 d1 move (variance2 r) (crit_roll2 r)).
      destruct Hd1 as [[Hh _] _]. lia.
    - destruct (bonus_damage_if_hp_above a1 d1 threshold) as [multiplier|]; simpl; [|auto].
      destruct (1 <? multiplier); simpl; auto. }
  destruct hooked as [[[a1 d1] dmg1] messages1]. simpl in Hhooked.
  destruct Hhooked as [Ha1 Hd1].
  destruct (0 <? dmg1).
  - destruct (alive (animate_hp_drain d1 dmg1)); intros [= <- <- _];
      (split; [assumption | now apply animate_hp_drain_ok]).
  - destruct (alive d1); intros [= <- <- _]; auto.
Qed.

Lemma perform_move_ok attacker defender move r a' d' messages :
  move_ok move = true -> combatant_ok attacker -> combatant_ok defender ->
  perform_move attacker defender move r = Some (a', d', messages) ->
  combatant_ok a' /\ combatant_ok d'.
Proof.
  intros Hm Ha Hd. unfold perform_move.
  destruct (is_paralyzed attacker && Qlt_bool (para_roll r) (25 # 100));
    [intros [= <- <- _]; auto|].
  destruct (Z.ltb_spec (energy attacker) (energy_cost move)) as [Hlt|Hge];
    [intros [= <- <- _]; auto|].
  assert (Ha1 : combatant_ok (set_energy attacker (Z.max 0 (energy attacker - energy_cost move)))).
  { apply combatant_ok_set_energy; [assumption|].
    unfold move_ok in Hm. apply andb_true_iff in Hm as [Hc _]. apply Z.leb_le in Hc.
    destruct Ha as [[_ He] _]. lia. }
  destruct (String.eqb (category move) "status").
  - now apply resolve_status_move_ok.
  - intros [= H]. revert H. now apply resolve_damage_move_ok.
Qed.

Lemma tick_damage_over_time_ok key p :
  key = "poison" \/ key = "burn" ->
  combatant_ok p -> combatant_ok (tick_damage_over_time key p).
Proof.
  intros Hk H. unfold tick_damage_over_time.
  destruct (status p !! key) as [[n|dmg turns]|] eqn:E; try assumption.
  destruct (0 <? turns); [|assumption].
  assert (Hd : 0 <= default 0 dmg).
  { destruct dmg as [x|]; simpl; [|lia]. destruct H as [_ H]. exact (H key x turns Hk E). }
  assert (H1 : combatant_ok (set_hp p (Z.max 0 (hp p - default 0 dmg)))).
  { apply combatant_ok_set_hp; [assumption|]. destruct H as [[Hh _] _]. lia. }
  destruct (turns - 1 <=? 0); apply combatant_ok_set_status; try assumption; simpl.
  - apply dot_ok_delete, H.
  - apply dot_ok_insert_dict; [apply H|]. intros x ->.
    destruct H as [_ H]. exact (H key x turns Hk E).
Qed.

Lemma decrement_durations_ok p : combatant_ok p -> combatant_ok (decrement_durations p).
Proof.
  intros H. apply combatant_ok_set_status; [assumption|].
  eapply dot_ok_same_entries; [| |apply H];
    now apply decrement_keys_timed.
Qed.

Lemma tick_paralysis_ok p : combatant_ok p -> combatant_ok (tick_paralysis p).
Proof.
  intros H. unfold tick_paralysis.
  destruct (status p !! "paralysis") as [[n|dmg turns]|] eqn:E; try assumption.
  destruct (0 <? turns); [|assumption].
  destruct (turns - 1 <=? 0); apply combatant_ok_set_status; try assumption.
  - apply dot_ok_delete, H.
  - eapply dot_ok_same_entries; [| |apply H]; now apply lookup_insert_ne.
Qed.

Lemma apply_end_of_turn_ok p : combatant_ok p -> combatant_ok (apply_end_of_turn p).
Proof.
  intros H. unfold apply_end_of_turn. destruct (negb (alive p)); [assumption|].
  apply tick_paralysis_ok, decrement_durations_ok.
  apply tick_damage_over_time_ok; [now right|].
  apply tick_damage_over_time_ok; [now left | assumption].
Qed.

Lemma regain_energy_ok k p : 0 <= k -> combatant_ok p -> combatant_ok (regain_energy k p).
Proof.
  intros Hk H. apply combatant_ok_set_energy; [assumption|].
  destruct H as [[_ He] _]. lia.
Qed.

Lemma teams_ok_set_team who t teams :
  Forall combatant_ok t -> teams_ok teams -> teams_ok (set_team who t teams).
Proof. intros Ht [H1 H2]. destruct who; split; assumption. Qed.

Lemma teams_ok_team_of who teams : teams_ok teams -> Forall combatant_ok (team_of who teams).
Proof. intros [H1 H2]. destruct who; assumption. Qed.

Lemma team_of_set_team_other who t teams :
  team_of (other who) (set_team who t teams) = team_of (other who) teams.
Proof. now destruct who. Qed.

(** Every fresh clone of a roster entry satisfies the invariant, every
    roster move is well formed, and every roster entry has a positive max
    HP. *)
Lemma roster_ok :
  Forall (fun p => combatant_ok p /\ 0 < max_hp p /\
                   Forall (fun m => move_ok m = true) (moves p)) ROSTER.
Proof.
  repeat constructor; simpl; try lia; intros key dmg turns _ H;
    rewrite lookup_empty in H; discriminate.
Qed.

(** A raised exception is the only way [perform_move] fails to return, and
    it needs a defender without HP capacity. *)
Lemma perform_move_returns attacker defender move r :
  max_hp defender <> 0 -> is_Some (perform_move attacker defender move r).
Proof.
  intros Hm. unfold perform_move.
  destruct (is_paralyzed attacker && Qlt_bool (para_roll r) (25 # 100)); [eauto|].
  destruct (energy attacker <? energy_cost move); [eauto|].
  destruct (String.eqb (category move) "status"); [|eauto].
  unfold resolve_status_move. destruct (effect move) as [h|]; [|eauto].
  set (a := set_energy attacker _).
  assert (Hc : is_Some (call_effect h a defender)).
  { destruct h; simpl; eauto. unfold bonus_damage_if_hp_above.
    apply Z.eqb_neq in Hm. rewrite Hm.
    destruct (Qle_bool _ _); eauto. }
  destruct Hc as [[[a1 d1] result] ->].
  destruct result as [[t amount turns|percent| |threshold|]|]; try destruct t; simpl; eauto.
Qed.

(** C5.  Every resolution step (a move of a combatant of one side against
    a combatant of the other with a well-formed move, the end-of-turn
    processing of a combatant, an energy gain of 8, 5 or 3) taken from
    teams in which every combatant has [0 <= hp <= max_hp],
    [0 <= energy <= energy_max] and no negative stored poison or burn
    damage leads to teams with the same properties. *)
Theorem bounds_preserved teams teams' :
  resolution_step teams teams' ->
  teams_ok teams ->
  teams_ok teams' /\
  forall p, In p (teams'.1 ++ teams'.2) ->
    0 <= hp p <= max_hp p /\ 0 <= energy p <= energy_max p.
Proof.
  intros Hstep Hok.
  assert (Hok' : teams_ok teams').
  { destruct Hstep as [who i j a d m r a' d' msgs teams Hi Hj Hm Hp
                      | who i p teams Hi
                      | who i k p teams Hi Hk].
    - pose proof (teams_ok_team_of who teams Hok) as H1.
      pose proof (teams_ok_team_of (other who) teams Hok) as H2.
      destruct (perform_move_ok a d m r a' d' msgs Hm) as [Ha' Hd']; try assumption.
      + exact (Forall_lookup_1 _ _ _ _ H1 Hi).
      + exact (Forall_lookup_1 _ _ _ _ H2 Hj).
      + apply teams_ok_set_team; [now apply Forall_insert|].
        apply teams_ok_set_team; [now apply Forall_insert | assumption].
    - pose proof (teams_ok_team_of who teams Hok) as H1.
      apply teams_ok_set_team; [|assumption].
      apply Forall_insert; [assumption|].
      apply apply_end_of_turn_ok. exact (Forall_lookup_1 _ _ _ _ H1 Hi).
    - pose proof (teams_ok_team_of who teams Hok) as H1.
      apply teams_ok_set_team; [|assumption].
      apply Forall_insert; [assumption|].
      apply regain_energy_ok; [lia|]. exact (Forall_lookup_1 _ _ _ _ H1 Hi). }
  split; [assumption|].
  intros p Hp. destruct Hok' as [H1 H2].
  apply in_app_or in Hp as [Hp|Hp].
  - rewrite Forall_forall in H1. apply H1. now apply list_elem_of_In.
  - rewrite Forall_forall in H2. apply H2. now apply list_elem_of_In.
Qed.

(** Cbroman's Thunder Shock on a fresh Shelltron: 59 energy spent, 45 HP
    lost, paralysis stored. *)
Lemma bounds_preserved_witness :
  let teams' := ([set_energy cbroman 1347],
                 [set_hp (apply_paralysis shelltron 4) 1990]) in
  teams_ok teams' /\
  forall p, In p (teams'.1 ++ teams'.2) ->
    0 <= hp p <= max_hp p /\ 0 <= energy p <= energy_max p.
Proof.
  cbv zeta.
  apply (bounds_preserved ([cbroman], [shelltron])).
  - apply (step_move Player1 0 0 cbroman shelltron
             (mkMove "Thunder Shock" 35 59 "special-status" (Some (HParalysis OnDefender 4)))
             (mkRolls 1 1 1 1 1) _ _
             ["Cbroman used Thunder Shock!"; "Dealt 45 damage!"]
             ([cbroman], [shelltron]));
      reflexivity.
  - split; repeat constructor; simpl; try lia;
      intros key dmg turns _ H; rewrite lookup_empty in H; discriminate.
Defined.

(** ** Menus *)

Lemma menu_loop_range n selected_idx keys result :
  0 < n -> 0 <= selected_idx < n ->
  menu_loop n selected_idx keys = Returned result ->
  result = -1 \/ 0 <= result < n.
Proof.
  intros Hn. revert selected_idx.
  induction keys as [|key keys IH]; intros idx Hidx; [discriminate|].
  assert (Hn0 : (n =? 0) = false) by (apply Z.eqb_neq; lia).
  destruct key; simpl; rewrite ?Hn0; try (apply IH; assumption).
  - apply IH. apply Z.mod_pos_bound. lia.
  - apply IH. apply Z.mod_pos_bound. lia.
  - intros [= <-]. now right.
  - intros [= <-]. now left.
Qed.

Lemma menu_loop_returns n selected_idx keys :
  0 < n -> KeyEnter ∈ keys \/ KeyQuit ∈ keys ->
  exists result, menu_loop n selected_idx keys = Returned result.
Proof.
  intros Hn. assert (Hn0 : (n =? 0) = false) by (apply Z.eqb_neq; lia).
  revert selected_idx. induction keys as [|key keys IH]; intros idx Hk.
  - destruct Hk as [Hk|Hk]; inversion Hk.
  - assert (Hrest : key <> KeyEnter -> key <> KeyQuit ->
                    KeyEnter ∈ keys \/ KeyQuit ∈ keys).
    { intros H1 H2. destruct Hk as [Hk|Hk]; apply elem_of_cons in Hk as [Hk|Hk];
        try congruence; auto. }
    destruct key; simpl; rewrite ?Hn0; eauto; apply IH, Hrest; discriminate.
Qed.

(** X1.  On a non-empty menu [get_menu_selection] returns as soon as
    Enter or q is pressed, and what it returns is either -1 (the user
    quit) or the index of an entry: Up and Down wrap around, so the
    highlighted entry never leaves the menu. *)
Theorem get_menu_selection_in_range {A : Type} (items : list A) keys :
  items <> [] ->
  (KeyEnter ∈ keys \/ KeyQuit ∈ keys ->
   exists result, get_menu_selection items keys = Returned result) /\
  (forall result, get_menu_selection items keys = Returned result ->
                  result = -1 \/ 0 <= result < Z.of_nat (length items)).
Proof.
  intros Hne. unfold get_menu_selection.
  assert (0 < Z.of_nat (length items)) by (destruct items; [congruence | simpl; lia]).
  split.
  - now apply menu_loop_returns.
  - intros result. apply menu_loop_range; lia.
Qed.

Lemma get_menu_selection_in_range_witness :
  get_menu_selection ["Attack"; "Switch Pokemon"; "Pass"] [KeyUp; KeyEnter] = Returned 2 /\
  (2 = -1 \/ 0 <= 2 < Z.of_nat (length ["Attack"; "Switch Pokemon"; "Pass"])).
Proof.
  split; [reflexivity|].
  apply (get_menu_selection_in_range ["Attack"; "Switch Pokemon"; "Pass"] [KeyUp; KeyEnter]);
    [discriminate | reflexivity].
Defined.

Lemma list_mem_true x l : list_mem x l = true <-> x ∈ l.
Proof.
  unfold list_mem. rewrite existsb_exists, list_elem_of_In. split.
  - intros (y & Hy & Heq). apply Z.eqb_eq in Heq. now subst.
  - intros H. exists x. split; [assumption | apply Z.eqb_refl].
Qed.

Lemma list_remove_first_elem x y l : y ∈ list_remove_first x l -> y ∈ l.
Proof.
  induction l as [|z l IH]; simpl; [trivial|].
  destruct (x =? z).
  - intros H. now right.
  - intros H. apply elem_of_cons in H as [->|H]; [now left | right; auto].
Qed.

Lemma list_remove_first_NoDup x l : NoDup l -> NoDup (list_remove_first x l).
Proof.
  induction 1 as [|z l Hz Hl IH]; simpl; [constructor|].
  destruct (x =? z); [assumption|].
  constructor; [|assumption]. intros H. apply Hz. eapply list_remove_first_elem, H.
Qed.

Lemma list_remove_first_length x l :
  (length (list_remove_first x l) <= length l)%nat.
Proof.
  induction l as [|z l IH]; simpl; [lia|]. destruct (x =? z); simpl; lia.
Qed.

Lemma list_remove_first_gone x l : NoDup l -> x ∉ list_remove_first x l.
Proof.
  induction 1 as [|z l Hz Hl IH]; simpl; [apply not_elem_of_nil|].
  destruct (Z.eqb_spec x z) as [->|Hne]; [assumption|].
  intros H. apply elem_of_cons in H as [?|?]; [contradiction | now apply IH].
Qed.

Lemma multi_loop_invariant n min_selections max_selections selected current_idx keys result :
  0 < n ->
  NoDup selected -> Forall (fun x => 0 <= x < n) selected ->
  Z.of_nat (length selected) <= Z.max 0 max_selections ->
  0 <= current_idx < n ->
  multi_loop n min_selections max_selections selected current_idx keys = Returned result ->
  NoDup result /\ Forall (fun x => 0 <= x < n) result /\
  Z.of_nat (length result) <= Z.max 0 max_selections /\
  (result = [] \/ min_selections <= Z.of_nat (length result)).
Proof.
  intros Hn. revert selected current_idx.
  assert (Hn0 : (n =? 0) = false) by (apply Z.eqb_neq; lia).
  induction keys as [|key keys IH]; intros sel cur Hnd Hin Hlen Hcur; [discriminate|].
  destruct key; simpl; rewrite ?Hn0.
  - apply IH; try assumption. apply Z.mod_pos_bound. lia.
  - apply IH; try assumption. apply Z.mod_pos_bound. lia.
  - destruct (list_mem cur sel) eqn:Hmem.
    + apply IH; try assumption.
      * now apply list_remove_first_NoDup.
      * rewrite Forall_forall in Hin |- *. intros y Hy.
        apply Hin. eapply list_remove_first_elem, Hy.
      * pose proof (list_remove_first_length cur sel). lia.
    + destruct (Z.ltb_spec (Z.of_nat (length sel)) max_selections) as [Hlt|Hge].
      * apply IH; try assumption.
        -- apply NoDup_app. split; [assumption|]. split; [|apply NoDup_singleton].
           intros y Hy Hy'. apply list_elem_of_singleton in Hy'. subst y.
           apply list_mem_true in Hy. congruence.
        -- apply Forall_app. split; [assumption|]. now constructor.
        -- rewrite length_app. simpl. lia.
      * now apply IH.
  - destruct (Z.leb_spec min_selections (Z.of_nat (length sel))).
    + intros [= <-]. repeat split; try assumption. now right.
    + now apply IH.
  - intros [= <-]. repeat split; [constructor | constructor | simpl; lia | now left].
  - now apply IH.
Qed.

Lemma multi_loop_returns n min_selections max_selections keys :
  0 < n -> KeyQuit ∈ keys ->
  forall selected current_idx,
    exists result,
      multi_loop n min_selections max_selections selected current_idx keys = Returned result.
Proof.
  intros Hn. assert (Hn0 : (n =? 0) = false) by (apply Z.eqb_neq; lia).
  induction keys as [|key keys IH]; intros Hk sel cur; [inversion Hk|].
  assert (Hrest : key <> KeyQuit -> KeyQuit ∈ keys).
  { intros Hne. apply elem_of_cons in Hk as [Hk|Hk]; [congruence | assumption]. }
  destruct key; simpl; rewrite ?Hn0; eauto; try (apply IH, Hrest; discriminate).
  - destruct (list_mem cur sel); [|destruct (_ <? max_selections)];
      apply IH, Hrest; discriminate.
  - destruct (min_selections <=? _); [eauto | apply IH, Hrest; discriminate].
Qed.

(** X2.  Whatever keys are pressed, a selection returned by
    [get_multi_selection] on a non-empty list names entries of the list,
    names none twice, has at most [max_selections] entries and, unless it
    is the empty selection of a quit (or of a minimum of 0), at least
    [min_selections].  Pressing q always ends the selection. *)
Theorem get_multi_selection_valid {A : Type} (items : list A)
    min_selections max_selections keys :
  items <> [] ->
  (KeyQuit ∈ keys ->
   exists result,
     get_multi_selection items min_selections max_selections keys = Returned result) /\
  (forall result,
     get_multi_selection items min_selections max_selections keys = Returned result ->
     NoDup result /\
     Forall (fun x => 0 <= x < Z.of_nat (length items)) result /\
     Z.of_nat (length result) <= Z.max 0 max_selections /\
     (result = [] \/ min_selections <= Z.of_nat (length result))).
Proof.
  intros Hne. unfold get_multi_selection.
  assert (0 < Z.of_nat (length items)) by (destruct items; [congruence | simpl; lia]).
  split.
  - intros Hq. now apply multi_loop_returns.
  - intros result. apply multi_loop_invariant.
    + assumption.
    + apply NoDup_nil_2.
    + apply Forall_nil_2.
    + simpl. lia.
    + lia.
Qed.

(** Toggling entry 0 on, off and on again, a third entry refused at the
    maximum of two. *)
Lemma get_multi_selection_valid_witness :
  let keys := [KeySpace; KeySpace; KeySpace; KeyEnter; KeyDown; KeySpace;
               KeyDown; KeySpace; KeyEnter] in
  get_multi_selection ["a"; "b"; "c"] 2 2 keys = Returned [0; 1] /\
  NoDup [0; 1] /\
  Forall (fun x => 0 <= x < Z.of_nat (length ["a"; "b"; "c"])) [0; 1] /\
  Z.of_nat (length [0; 1]) <= Z.max 0 2 /\
  ([0; 1] = [] \/ 2 <= Z.of_nat (length [0; 1])).
Proof.
  cbv zeta. split; [reflexivity|].
  apply (get_multi_selection_valid ["a"; "b"; "c"] 2 2
           [KeySpace; KeySpace; KeySpace; KeyEnter; KeyDown; KeySpace;
            KeyDown; KeySpace; KeyEnter]);
    [discriminate | reflexivity].
Defined.

(** ** Team selection *)

Lemma py_index_in_range {A : Type} (l : list A) i :
  0 <= i < Z.of_nat (length l) ->
  exists x, py_index l i = Some x /\ l !! Z.to_nat i = Some x.
Proof.
  intros H. unfold py_index.
  replace (i <? 0) with false by (symmetry; apply Z.ltb_ge; lia).
  destruct (l !! Z.to_nat i) as [x|] eqn:E; [eauto|].
  apply lookup_ge_None in E. lia.
Qed.

(** X3.  A selection of exactly [team_size] entries made with
    [get_multi_selection] over the roster is turned by [pick_team] into a
    team of [team_size] members, each a fresh clone (full HP, full
    energy, empty status, the moves of the original) of the roster entry
    at the selected position, and no position is used twice. *)
Theorem picked_team_is_fresh (roster : list Pokemon) team_size keys selected :
  roster <> [] -> 0 < team_size ->
  get_multi_selection roster team_size team_size keys = Returned selected ->
  selected <> [] ->
  exists team,
    build_team roster selected = Some team /\
    Z.of_nat (length team) = team_size /\
    NoDup selected /\
    Forall2 (fun idx p =>
               exists original,
                 roster !! Z.to_nat idx = Some original /\
                 p = clone_pokemon original /\
                 hp p = max_hp original /\ energy p = energy_max original /\
                 status p = ∅ /\ moves p = moves original)
            selected team.
Proof.
  intros Hne Hts Hsel Hnonempty.
  unfold get_multi_selection in Hsel.
  apply multi_loop_invariant in Hsel as (Hnd & Hin & Hlen & Hmin);
    [ | destruct roster; [congruence | simpl; lia] | apply NoDup_nil_2
      | apply Forall_nil_2 | simpl; lia
      | destruct roster; [congruence | simpl; lia] ].
  destruct Hmin as [->|Hmin]; [congruence|].
  assert (Hteam : exists team,
             build_team roster selected = Some team /\
             Forall2 (fun idx p => exists original,
                          roster !! Z.to_nat idx = Some original /\
                          p = clone_pokemon original /\
                          hp p = max_hp original /\ energy p = energy_max original /\
                          status p = ∅ /\ moves p = moves original) selected team).
  { clear Hnd Hlen Hmin Hnonempty. unfold build_team.
    induction Hin as [|idx sel Hidx Hin IH].
    - exists []. split; [reflexivity | constructor].
    - destruct IH as (team & Hteam & Hall).
      destruct (py_index_in_range roster idx Hidx) as (original & Hpy & Hlk).
      exists (clone_pokemon original :: team). split.
      + apply mapM_Some. apply mapM_Some in Hteam.
        constructor; [now rewrite Hpy | assumption].
      + constructor; [|assumption]. exists original. repeat split. assumption. }
  destruct Hteam as (team & Hteam & Hall).
  exists team. repeat split; try assumption.
  apply Forall2_length in Hall. lia.
Qed.

Lemma picked_team_is_fresh_witness :
  exists team,
    build_team ROSTER [1; 0] = Some team /\
    Z.of_nat (length team) = 2 /\
    NoDup [1; 0] /\
    Forall2 (fun idx p =>
               exists original,
                 ROSTER !! Z.to_nat idx = Some original /\
                 p = clone_pokemon original /\
                 hp p = max_hp original /\ energy p = energy_max original /\
                 status p = ∅ /\ moves p = moves original)
            [1; 0] team.
Proof.
  apply (picked_team_is_fresh ROSTER 2 [KeyDown; KeySpace; KeyUp; KeySpace; KeyEnter] [1; 0]);
    [discriminate | lia | reflexivity | discriminate].
Defined.

(** ** Forced switch *)

Lemma alive_indices_from_spec i team idx :
  idx ∈ alive_indices_from i team <->
  (i <= idx)%nat /\ exists p, team !! (idx - i)%nat = Some p /\ alive p = true.
Proof.
  revert i. induction team as [|q team IH]; intros i; simpl.
  - split; [intros H; inversion H | intros (_ & p & H & _); discriminate].
  - assert (Hrest : idx ∈ alive_indices_from (S i) team <->
                    (i < idx)%nat /\ exists p, (q :: team) !! (idx - i)%nat = Some p
                                               /\ alive p = true).
    { rewrite IH. split.
      - intros (Hle & p & Hp & Ha). split; [lia|]. exists p. split; [|assumption].
        replace (idx - i)%nat with (S (idx - S i)) by lia. exact Hp.
      - intros (Hlt & p & Hp & Ha). split; [lia|]. exists p. split; [|assumption].
        replace (idx - i)%nat with (S (idx - S i)) in Hp by lia. exact Hp. }
    destruct (alive q) eqn:Hq.
    + rewrite elem_of_cons, Hrest. split.
      * intros [->|(Hlt & H)]; [|split; [lia | assumption]].
        split; [lia|]. exists q. rewrite Nat.sub_diag. auto.
      * intros (Hle & p & Hp & Ha).
        destruct (decide (idx = i)) as [->|Hne]; [now left|].
        right. split; [lia|]. eauto.
    + rewrite Hrest. split.
      * intros (Hlt & H). split; [lia | assumption].
      * intros (Hle & p & Hp & Ha).
        destruct (decide (idx = i)) as [->|Hne].
        -- rewrite Nat.sub_diag in Hp. simpl in Hp. congruence.
        -- split; [lia|]. eauto.
Qed.

Lemma alive_indices_spec team idx :
  idx ∈ alive_indices team <-> exists p, team !! idx = Some p /\ alive p = true.
Proof.
  unfold alive_indices. rewrite alive_indices_from_spec, Nat.sub_0_r. split.
  - now intros [_ H].
  - intros H. split; [lia | assumption].
Qed.

Lemma alive_indices_nil team :
  alive_indices team = [] <-> Forall (fun p => alive p = false) team.
Proof.
  split.
  - intros H. apply Forall_lookup. intros i p Hp.
    destruct (alive p) eqn:Ha; [|reflexivity].
    assert (Hi : i ∈ alive_indices team) by (apply alive_indices_spec; eauto).
    rewrite H in Hi. inversion Hi.
  - intros H. destruct (alive_indices team) as [|i l] eqn:E; [reflexivity|].
    assert (Hi : i ∈ alive_indices team) by (rewrite E; now left).
    apply alive_indices_spec in Hi as (p & Hp & Ha).
    rewrite Forall_lookup in H. specialize (H i p Hp). simpl in H. congruence.
Qed.

(** X4.  [prompt_switch] returns [None] exactly when the team has no
    living member; any index it returns, also after a cancelled menu, is
    the position of a living member.  It returns as soon as Enter or q is
    pressed, provided no member has max HP 0. *)
Theorem prompt_switch_picks_living team keys :
  (forall result, prompt_switch team keys = Returned result ->
     (result = None <-> Forall (fun p => alive p = false) team) /\
     (forall idx, result = Some idx -> exists p, team !! idx = Some p /\ alive p = true)) /\
  (Forall (fun p => max_hp p <> 0) team -> KeyEnter ∈ keys \/ KeyQuit ∈ keys ->
   exists result, prompt_switch team keys = Returned result).
Proof.
  unfold prompt_switch. destruct (alive_indices team) as [|i0 rest] eqn:E.
  - split; [|eauto]. intros result [= <-]. split.
    + split; [intros _; now apply alive_indices_nil | reflexivity].
    + discriminate.
  - assert (Hnot : ~ Forall (fun p => alive p = false) team).
    { intros H. apply alive_indices_nil in H. congruence. }
    assert (Hsome : forall idx, idx ∈ i0 :: rest ->
                      exists p, team !! idx = Some p /\ alive p = true).
    { intros idx Hidx. apply alive_indices_spec. now rewrite E. }
    assert (Hrange : forall sel, get_menu_selection (i0 :: rest) keys = Returned sel ->
                       sel = -1 \/ 0 <= sel < Z.of_nat (length (i0 :: rest))).
    { intros sel Hmenu. unfold get_menu_selection in Hmenu.
      apply menu_loop_range in Hmenu; [assumption | simpl; lia | simpl; lia]. }
    split.
    + intros result.
      destruct (existsb _ (i0 :: rest)); [discriminate|].
      destruct (get_menu_selection (i0 :: rest) keys) as [sel| |] eqn:Hmenu; try discriminate.
      specialize (Hrange sel eq_refl).
      destruct (Z.eqb_spec sel (-1)) as [->|Hne].
      * intros [= <-]. split; [split; [discriminate | contradiction]|].
        intros idx [= <-]. apply Hsome. now left.
      * destruct Hrange as [?|Hrange]; [contradiction|].
        destruct (py_index_in_range (i0 :: rest) sel Hrange) as (idx & Hpy & Hlk).
        rewrite Hpy. intros [= <-]. split; [split; [discriminate | contradiction]|].
        intros idx' [= <-]. apply Hsome. eapply list_elem_of_lookup_2, Hlk.
    + intros Hmax Hkeys.
      replace (existsb _ (i0 :: rest)) with false.
      * destruct (menu_loop_returns (Z.of_nat (length (i0 :: rest))) 0 keys) as [sel Hmenu];
          [simpl; lia | assumption|].
        unfold get_menu_selection at 1. rewrite Hmenu.
        destruct (Z.eqb_spec sel (-1)) as [->|Hne]; [eauto|].
        destruct (Hrange sel Hmenu) as [?|Hr]; [contradiction|].
        destruct (py_index_in_range (i0 :: rest) sel Hr) as (idx & -> & _). eauto.
      * symmetry. apply not_true_is_false. intros Hex.
        apply existsb_exists in Hex as (idx & _ & Hidx).
        destruct (team !! idx) as [p|] eqn:Hp; [|discriminate].
        apply Z.eqb_eq in Hidx. exact (Forall_lookup_1 _ _ _ _ Hmax Hp Hidx).
Qed.

Lemma prompt_switch_picks_living_witness :
  let team := [set_hp cbroman 0; shelltron; set_hp emberfox 0; aquabyte] in
  prompt_switch team [KeyDown; KeyEnter] = Returned (Some 3%nat) /\
  exists result, prompt_switch team [KeyDown; KeyEnter] = Returned result.
Proof.
  cbv zeta. split; [reflexivity|].
  apply (prompt_switch_picks_living
           [set_hp cbroman 0; shelltron; set_hp emberfox 0; aquabyte]
           [KeyDown; KeyEnter]).
  - repeat constructor; simpl; lia.
  - left. apply list_elem_of_further, list_elem_of_here.
Defined.

(** ** Gauntlet *)

Lemma next_enemy_from_spec i enemy_idx team :
  (forall p, team !! (enemy_idx - i)%nat = Some p -> (i <= enemy_idx)%nat -> alive p = false) ->
  next_enemy_from i enemy_idx team = head (alive_indices_from i team).
Proof.
  revert i. induction team as [|q team IH]; intros i Hdead; [reflexivity|].
  simpl. destruct (Nat.eqb_spec i enemy_idx) as [->|Hne]; simpl.
  - rewrite (Hdead q) by (rewrite ?Nat.sub_diag; auto).
    apply IH. intros p _ Hle. lia.
  - destruct (alive q); [reflexivity|].
    apply IH. intros p Hp Hle. apply Hdead; [|lia].
    replace (enemy_idx - i)%nat with (S (enemy_idx - S i)) by lia. exact Hp.
Qed.

(** X5.  In the gauntlet a living current enemy stays in place.  When it
    has fainted, the enemy that comes in is the first living member of
    the enemy team (by position, from the start of the team), and the
    battle loop is left exactly when no enemy is alive. *)
Theorem replace_fainted_enemy_spec enemy_team enemy_idx enemy :
  enemy_team !! enemy_idx = Some enemy ->
  replace_fainted_enemy enemy_team enemy_idx
  = Some (if alive enemy then Some enemy_idx else head (alive_indices enemy_team)) /\
  (forall i, replace_fainted_enemy enemy_team enemy_idx = Some (Some i) ->
             exists p, enemy_team !! i = Some p /\ alive p = true) /\
  (replace_fainted_enemy enemy_team enemy_idx = Some None <->
   Forall (fun p => alive p = false) enemy_team).
Proof.
  intros He.
  assert (Heq : replace_fainted_enemy enemy_team enemy_idx
                = Some (if alive enemy then Some enemy_idx
                        else head (alive_indices enemy_team))).
  { unfold replace_fainted_enemy. rewrite He.
    destruct (alive enemy) eqn:Ha; [reflexivity|].
    rewrite next_enemy_from_spec
      by (intros p Hp _; rewrite Nat.sub_0_r in Hp; congruence).
    fold (alive_indices enemy_team).
    destruct (alive_indices enemy_team) as [|i rest] eqn:E; [reflexivity|].
    simpl.
    assert (Hi : i ∈ alive_indices enemy_team) by (rewrite E; now left).
    apply alive_indices_spec in Hi as (p & Hp & Hpa).
    replace (existsb alive enemy_team) with true; [reflexivity|].
    symmetry. apply existsb_exists. exists p. split; [|assumption].
    apply list_elem_of_In. eapply list_elem_of_lookup_2, Hp. }
  split; [exact Heq | split].
  - intros i. rewrite Heq. destruct (alive enemy) eqn:Ha.
    + intros [= <-]. eauto.
    + intros [= Hh]. apply alive_indices_spec.
      destruct (alive_indices enemy_team); [discriminate|].
      injection Hh as ->. now left.
  - rewrite Heq, <- alive_indices_nil. destruct (alive enemy) eqn:Ha.
    + split; [discriminate|]. intros Hn.
      assert (Hi : enemy_idx ∈ alive_indices enemy_team)
        by (apply alive_indices_spec; eauto).
      rewrite Hn in Hi. inversion Hi.
    + destruct (alive_indices enemy_team); split; intros; try reflexivity; discriminate.
Qed.

Lemma replace_fainted_enemy_spec_witness :
  let enemy_team := [shelltron; set_hp cbroman 0; emberfox] in
  replace_fainted_enemy enemy_team 1 = Some (Some 0%nat) /\
  (forall i, replace_fainted_enemy enemy_team 1 = Some (Some i) ->
             exists p, enemy_team !! i = Some p /\ alive p = true) /\
  (replace_fainted_enemy enemy_team 1 = Some None <->
   Forall (fun p => alive p = false) enemy_team).
Proof.
  cbv zeta.
  apply (replace_fainted_enemy_spec [shelltron; set_hp cbroman 0; emberfox] 1
           (set_hp cbroman 0)).
  reflexivity.
Defined.

(** ** What a move leaves alone *)

Lemma same_base_refl p : same_base p p.
Proof. repeat split. Qed.

Lemma same_base_trans p q r : same_base p q -> same_base q r -> same_base p r.
Proof.
  unfold same_base. intros (?&?&?&?&?&?&?&?) (?&?&?&?&?&?&?&?).
  repeat split; congruence.
Qed.

Lemma stack_modifier_frame key p amount turns :
  same_base (stack_modifier key p amount turns) p /\
  energy (stack_modifier key p amount turns) = energy p /\
  hp (stack_modifier key p amount turns) = hp p.
Proof. repeat split. Qed.

Lemma speed_boost_frame p amount turns :
  same_base (speed_boost p amount turns) p /\
  energy (speed_boost p amount turns) = energy p /\
  hp (speed_boost p amount turns) = hp p.
Proof. unfold speed_boost. destruct (0 <? amount); apply stack_modifier_frame. Qed.

Ltac frame :=
  repeat match goal with
         | H : same_base _ _ |- _ => destruct H as (?&?&?&?&?&?&?&?)
         | H : _ /\ _ |- _ => destruct H
         end;
  repeat split; simpl; try assumption; try congruence.

Lemma on_target_frame t f attacker defender a' d' :
  (forall p, same_base (f p) p /\ energy (f p) = energy p) ->
  on_target t f attacker defender = (a', d') ->
  (same_base a' attacker /\ energy a' = energy attacker) /\
  (same_base d' defender /\ energy d' = energy defender).
Proof.
  intros Hf. destruct t; intros [= <- <-].
  - pose proof (Hf attacker). frame.
  - pose proof (Hf defender). frame.
Qed.

Lemma call_effect_frame h attacker defender a' d' result :
  call_effect h attacker defender = Some (a', d', result) ->
  (same_base a' attacker /\ energy a' = energy attacker) /\
  (same_base d' defender /\ energy d' = energy defender).
Proof.
  destruct h; simpl;
    try (intros [= H <-]; revert H; apply on_target_frame; intros p;
         first [ pose proof (speed_boost_frame p amount turns); frame | frame ]).
  - destruct (bonus_damage_if_hp_above attacker defender threshold); [|discriminate].
    intros [= <- <- _]. frame.
  - intros [= <- <- _]. frame.
Qed.

Lemma call_effect_hp h attacker defender a' d' result :
  hook_keeps_hp h = true ->
  call_effect h attacker defender = Some (a', d', result) ->
  hp a' = hp attacker /\ hp d' = hp defender.
Proof.
  intros Hh. destruct h; try discriminate; simpl;
    try (destruct t; intros [= <- <- _]; split; first [reflexivity | apply speed_boost_frame]).
  - destruct (bonus_damage_if_hp_above attacker defender threshold); [|discriminate].
    intros [= <- <- _]. split; reflexivity.
  - destruct r; try discriminate; intros [= <- <- _]; split; reflexivity.
Qed.

Lemma resolve_status_move_frame attacker defender move messages a' d' messages' :
  resolve_status_move attacker defender move messages = Some (a', d', messages') ->
  (same_base a' attacker /\ energy a' = energy attacker) /\
  (same_base d' defender /\ energy d' = energy defender).
Proof.
  unfold resolve_status_move.
  destruct (effect move) as [h|]; [|intros [= <- <- _]; frame].
  destruct (call_effect h attacker defender) as [[[a1 d1] result]|] eqn:E; [|discriminate].
  apply call_effect_frame in E.
  destruct result as [[t amount turns|percent| |threshold|]|];
    try (intros [= <- <- _]; frame).
  destruct t; simpl; intros [= <- <- _]; frame.
Qed.

Lemma animate_hp_drain_frame p damage :
  same_base (animate_hp_drain p damage) p /\
  energy (animate_hp_drain p damage) = energy p /\
  status (animate_hp_drain p damage) = status p.
Proof.
  unfold animate_hp_drain. destruct (_ <=? 0); repeat split.
Qed.

Lemma resolve_damage_move_frame attacker defender move r messages a' d' messages' :
  resolve_damage_move attacker defender move r messages = (a', d', messages') ->
  (same_base a' attacker /\ energy a' = energy attacker) /\
  (same_base d' defender /\ energy d' = energy defender).
Proof.
  unfold resolve_damage_move.
  destruct (compute_damage attacker defender move (variance1 r) (crit_roll1 r))
    as [dmg crit].
  set (hooked := match effect move with Some _ => _ | None => _ end).
  assert (Hhooked : (same_base hooked.1.1.1 attacker /\ energy hooked.1.1.1 = energy attacker)
                    /\ (same_base hooked.1.1.2 defender
                        /\ energy hooked.1.1.2 = energy defender)).
  { unfold hooked. destruct (effect move) as [h|]; [|simpl; frame].
    destruct (call_effect h attacker defender) as [[[a1 d1] result]|] eqn:E;
      [|simpl; frame].
    apply call_effect_frame in E.
    destruct result as [[t amount turns|percent| |threshold|]|]; simpl;
      try solve [frame].
    - destruct (1 <? double_hit_if_faster a1 d1); simpl; frame.
    - destruct (bonus_damage_if_hp_above a1 d1 threshold) as [multiplier|]; simpl;
        [|frame].
      destruct (1 <? multiplier); simpl; frame. }
  destruct hooked as [[[a1 d1] dmg1] messages1]. simpl in Hhooked.
  destruct (0 <? dmg1).
  - pose proof (animate_hp_drain_frame d1 dmg1).
    destruct (alive (animate_hp_drain d1 dmg1)); intros [= <- <- _]; frame.
  - destruct (alive d1); intros [= <- <- _]; frame.
Qed.

Lemma perform_move_frame_energy attacker defender move r attacker' defender' messages :
  perform_move attacker defender move r = Some (attacker', defender', messages) ->
  same_base attacker' attacker /\ same_base defender' defender /\
  energy defender' = energy defender /\
  energy attacker'
  = (if move_blocked attacker move r then energy attacker
     else energy attacker - energy_cost move).
Proof.
  unfold perform_move, move_blocked.
  destruct (is_paralyzed attacker && Qlt_bool (para_roll r) (25 # 100)); simpl;
    [intros [= <- <- _]; repeat split|].
  destruct (Z.ltb_spec (energy attacker) (energy_cost move)) as [Hlt|Hge];
    [intros [= <- <- _]; repeat split|].
  set (a1 := set_energy attacker (Z.max 0 (energy attacker - energy_cost move))).
  assert (Ha1 : same_base a1 attacker /\ energy a1 = energy attacker - energy_cost move).
  { split; [repeat split|]. unfold a1. simpl. lia. }
  destruct Ha1 as [Hb He].
  assert (Hgoal : forall a' d',
             (same_base a' a1 /\ energy a' = energy a1) /\
             (same_base d' defender /\ energy d' = energy defender) ->
             same_base a' attacker /\ same_base d' defender /\
             energy d' = energy defender /\
             energy a' = energy attacker - energy_cost move).
  { intros a' d' H. frame. }
  destruct (String.eqb (category move) "status").
  - intros H. apply Hgoal. eapply resolve_status_move_frame, H.
  - intros [= H]. apply Hgoal. eapply resolve_damage_move_frame, H.
Qed.

(** X6.  Whatever the move and its hook, [perform_move] leaves the name,
    level, max HP, attack, defense, speed, max energy and move list of
    both combatants as they were and never touches the defender's
    energy.  The attacker's energy is unchanged when the move is stopped
    by paralysis or by lack of energy, and otherwise drops by exactly the
    move's energy cost. *)
Theorem perform_move_frame attacker defender move r :
  max_hp defender <> 0 ->
  exists attacker' defender' messages,
    perform_move attacker defender move r = Some (attacker', defender', messages) /\
    same_base attacker' attacker /\ same_base defender' defender /\
    energy defender' = energy defender /\
    energy attacker'
    = (if move_blocked attacker move r then energy attacker
       else energy attacker - energy_cost move).
Proof.
  intros Hmax.
  destruct (perform_move_returns attacker defender move r Hmax) as [[[a' d'] messages] H].
  exists a', d', messages. split; [exact H|]. eapply perform_move_frame_energy, H.
Qed.

Lemma perform_move_frame_witness :
  exists attacker' defender' messages,
    perform_move cbroman shelltron
      (mkMove "Thunder Shock" 35 59 "special-status" (Some (HParalysis OnDefender 4)))
      (mkRolls 1 1 1 1 1)
    = Some (attacker', defender', messages) /\
    same_base attacker' cbroman /\ same_base defender' shelltron /\
    energy defender' = energy shelltron /\
    energy attacker' = energy cbroman - 59.
Proof.
  apply (perform_move_frame cbroman shelltron
           (mkMove "Thunder Shock" 35 59 "special-status" (Some (HParalysis OnDefender 4)))
           (mkRolls 1 1 1 1 1)).
  simpl. lia.
Defined.

(** ** The gauntlet's move choice *)

(** X7.  The enemy of the gauntlet passes, regaining up to 5 energy and
    leaving the player untouched, exactly when it can afford none of its
    moves.  Otherwise it uses one of its own moves whose cost it can pay,
    so its move never fails for lack of energy: unless paralysis stops
    it, its energy drops by the cost of the move. *)
Theorem enemy_turn_affordable enemy player pick r :
  max_hp player <> 0 ->
  exists enemy' player' messages,
    enemy_turn enemy player pick r = Some (enemy', player', messages) /\
    ((Forall (fun move => energy enemy < energy_cost move) (moves enemy) /\
      enemy' = regain_energy 5 enemy /\ player' = player) \/
     (exists move,
         move ∈ moves enemy /\ energy_cost move <= energy enemy /\
         perform_move enemy player move r = Some (enemy', player', messages) /\
         energy enemy'
         = if is_paralyzed enemy && Qlt_bool (para_roll r) (25 # 100)
           then energy enemy else energy enemy - energy_cost move)).
Proof.
  intros Hmax. unfold enemy_turn.
  set (available := List.filter (fun move => energy_cost move <=? energy enemy) (moves enemy)).
  destruct available as [|m0 rest] eqn:E.
  - eexists _, _, _. split; [reflexivity|]. left. split; [|split; reflexivity].
    apply Forall_forall. intros move Hm.
    destruct (Z.leb_spec (energy_cost move) (energy enemy)) as [Hle|Hgt]; [|assumption].
    assert (Hin : In move available).
    { apply filter_In. split; [now apply list_elem_of_In | now apply Z.leb_le]. }
    rewrite E in Hin. destruct Hin.
  - destruct ((m0 :: rest) !! (pick mod length (m0 :: rest))%nat) as [move|] eqn:Hpick.
    + destruct (perform_move_returns enemy player move r Hmax)
        as [[[enemy' player'] messages] Hmove].
      exists enemy', player', messages. split; [exact Hmove|]. right. exists move.
      assert (Hin : In move available).
      { rewrite E. apply list_elem_of_In. eapply list_elem_of_lookup_2, Hpick. }
      apply filter_In in Hin as [Hin Hcost]. apply Z.leb_le in Hcost.
      split; [now apply list_elem_of_In|]. split; [assumption|]. split; [assumption|].
      apply perform_move_frame_energy in Hmove as (_ & _ & _ & He).
      rewrite He. unfold move_blocked.
      replace (energy enemy <? energy_cost move) with false
        by (symmetry; apply Z.ltb_ge; lia).
      now rewrite orb_false_r.
    + exfalso. apply lookup_ge_None in Hpick.
      pose proof (Nat.mod_upper_bound pick (length (m0 :: rest))) as Hb.
      simpl in Hb, Hpick. lia.
Qed.

(** A Cbroman down to 60 energy can pay only for Broman's Curse (38) and
    Thunder Shock (59). *)
Lemma enemy_turn_affordable_witness :
  exists enemy' player' messages,
    enemy_turn (set_energy cbroman 60) shelltron 3 (mkRolls 1 1 1 1 1)
    = Some (enemy', player', messages) /\
    ((Forall (fun move => energy (set_energy cbroman 60) < energy_cost move)
        (moves (set_energy cbroman 60)) /\
      enemy' = regain_energy 5 (set_energy cbroman 60) /\ player' = shelltron) \/
     (exists move,
         move ∈ moves (set_energy cbroman 60) /\
         energy_cost move <= energy (set_energy cbroman 60) /\
         perform_move (set_energy cbroman 60) shelltron move (mkRolls 1 1 1 1 1)
         = Some (enemy', player', messages) /\
         energy enemy'
         = if is_paralyzed (set_energy cbroman 60)
              && Qlt_bool (para_roll (mkRolls 1 1 1 1 1)) (25 # 100)
           then energy (set_energy cbroman 60)
           else energy (set_energy cbroman 60) - energy_cost move)).
Proof.
  apply (enemy_turn_affordable (set_energy cbroman 60) shelltron 3 (mkRolls 1 1 1 1 1)).
  simpl. lia.
Defined.

(** ** Moves of category "status" *)

(** X8.  A move whose category is exactly "status" never runs the damage
    formula, whatever its power: unless its hook heals or deals
    percent-of-max-HP damage, it leaves the HP of both combatants as they
    were. *)
Theorem status_move_keeps_hp attacker defender move r :
  category move = "status" ->
  match effect move with Some h => hook_keeps_hp h = true | None => True end ->
  max_hp defender <> 0 ->
  exists attacker' defender' messages,
    perform_move attacker defender move r = Some (attacker', defender', messages) /\
    hp attacker' = hp attacker /\ hp defender' = hp defender.
Proof.
  intros Hcat Hh Hmax.
  destruct (perform_move_returns attacker defender move r Hmax)
    as [[[attacker' defender'] messages] Hpm].
  exists attacker', defender', messages. split; [exact Hpm|].
  revert Hpm. unfold perform_move.
  destruct (is_paralyzed attacker && Qlt_bool (para_roll r) (25 # 100));
    [intros [= <- <- _]; auto|].
  destruct (energy attacker <? energy_cost move); [intros [= <- <- _]; auto|].
  rewrite Hcat. simpl. unfold resolve_status_move.
  destruct (effect move) as [h|]; [|intros [= <- <- _]; auto].
  destruct (call_effect h _ defender) as [[[a1 d1] result]|] eqn:E; [|discriminate].
  pose proof (call_effect_hp _ _ _ _ _ _ Hh E) as [Ha Hd]. simpl in Ha.
  destruct result as [[t amount turns|percent| |threshold|]|];
    try (intros [= <- <- _]; auto).
  - destruct t; simpl; intros [= <- <- _]; auto.
  - apply call_effect_tuple in E as (-> & _ & _). discriminate.
Qed.

(** CuteWings' Feather Stake has power 50 and category "status": the
    target keeps its HP. *)
Lemma status_move_keeps_hp_witness :
  exists attacker' defender' messages,
    perform_move CuteWings cbroman
      (mkMove "Feather Stake" 50 38 "status" (Some (HSpeedBoost OnDefender 132 4)))
      (mkRolls 1 1 1 1 1)
    = Some (attacker', defender', messages) /\
    hp attacker' = hp CuteWings /\ hp defender' = hp cbroman.
Proof.
  apply (status_move_keeps_hp CuteWings cbroman
           (mkMove "Feather Stake" 50 38 "status" (Some (HSpeedBoost OnDefender 132 4)))
           (mkRolls 1 1 1 1 1)); [reflexivity | reflexivity | simpl; lia].
Defined.

(** ** A damaging move without hook *)



(** ** The bonus-damage hook of the roster *)

(** X10.  A hook that calls [bonus_damage_if_hp_above] itself returns a
    number, not a tuple, so [perform_move] ignores it: on a move of a
    category other than "status" the outcome is that of the same move
    without hook, and the damage is never doubled. *)
Theorem bonus_hook_has_no_effect attacker defender move threshold r :
  String.eqb (category move) "status" = false ->
  perform_move attacker defender
    (with_effect move (Some (HBonusDamageIfHpAbove threshold))) r
  = perform_move attacker defender (with_effect move None) r.
Proof.
  intros Hcat. unfold perform_move. cbn [with_effect energy_cost move_name category].
  destruct (is_paralyzed attacker && Qlt_bool (para_roll r) (25 # 100)); [reflexivity|].
  destruct (energy attacker <? energy_cost move); [reflexivity|].
  rewrite Hcat. f_equal. unfold resolve_damage_move.
  change (compute_damage ?a ?d (with_effect move ?e) ?v ?c)
    with (compute_damage a d (with_effect move None) v c).
  cbn [with_effect effect call_effect].
  destruct (bonus_damage_if_hp_above _ defender threshold); reflexivity.
Qed.

(** Atackker's Final Strike (threshold 30) against a Cbroman at full HP. *)
Lemma bonus_hook_has_no_effect_witness :
  perform_move Atackker cbroman
    (mkMove "Final Strike" 350 111 "mystical-special" (Some (HBonusDamageIfHpAbove 30)))
    (mkRolls 1 1 1 1 1)
  = perform_move Atackker cbroman
      (mkMove "Final Strike" 350 111 "mystical-special" None) (mkRolls 1 1 1 1 1).
Proof.
  apply (bonus_hook_has_no_effect Atackker cbroman
           (mkMove "Final Strike" 350 111 "mystical-special" None) 30 (mkRolls 1 1 1 1 1)).
  reflexivity.
Defined.

(** ** Lifetimes of status kinds *)

Lemma hp_decrement_durations p : hp (decrement_durations p) = hp p.
Proof. reflexivity. Qed.

Lemma hp_tick_paralysis p : hp (tick_paralysis p) = hp p.
Proof.
  unfold tick_paralysis. destruct (status p !! "paralysis") as [[n|dmg turns]|]; try reflexivity.
  destruct (0 <? turns); [|reflexivity]. destruct (turns - 1 <=? 0); reflexivity.
Qed.

Lemma tick_damage_over_time_absent key p :
  status p !! key = None -> tick_damage_over_time key p = p.
Proof. intros H. unfold tick_damage_over_time. now rewrite H. Qed.

Lemma end_of_turn_no_dot p :
  status p !! "poison" = None -> status p !! "burn" = None ->
  hp (apply_end_of_turn p) = hp p /\
  status (apply_end_of_turn p) !! "poison" = None /\
  status (apply_end_of_turn p) !! "burn" = None.
Proof.
  intros Hp Hb. unfold apply_end_of_turn. destruct (negb (alive p)); [auto|].
  cbv zeta. rewrite (tick_damage_over_time_absent "poison" p Hp).
  rewrite (tick_damage_over_time_absent "burn" p Hb).
  rewrite hp_tick_paralysis, hp_decrement_durations.
  rewrite !tick_paralysis_other by discriminate.
  rewrite !decrement_durations_timed by reflexivity. auto.
Qed.

Lemma alive_hp p q : hp q = hp p -> alive q = alive p.
Proof. unfold alive. now intros ->. Qed.

Lemma modifier_lifetime_running k p c amount (j : nat) :
  alive p = true -> status p !! "poison" = None -> status p !! "burn" = None ->
  status p !! modifier_key k = Some (VInt c) ->
  status p !! (modifier_key k +:+ "_amt") = Some (VInt amount) ->
  Z.of_nat j < c ->
  let q := Nat.iter j apply_end_of_turn p in
  alive q = true /\ status q !! "poison" = None /\ status q !! "burn" = None /\
  status q !! modifier_key k = Some (VInt (c - Z.of_nat j)) /\
  status q !! (modifier_key k +:+ "_amt") = Some (VInt amount).
Proof.
  intros Ha Hp Hb Hc Hamt. induction j as [|j IH]; intros Hj; cbv zeta.
  - simpl. rewrite Z.sub_0_r. auto.
  - destruct IH as (Ha' & Hp' & Hb' & Hc' & Hamt'); [lia|].
    simpl. set (q := Nat.iter j apply_end_of_turn p) in *.
    destruct (end_of_turn_no_dot q Hp' Hb') as (Hhp & Hp'' & Hb'').
    destruct (end_of_turn_modifier q (modifier_key k) _ Ha'
                (modifier_key_not_skipped k) Hc') as [H1 H2].
    replace (c - Z.of_nat j - 1 <=? 0) with false in H1, H2
      by (symmetry; apply Z.leb_gt; lia).
    repeat split; try assumption.
    + rewrite (alive_hp q); assumption.
    + rewrite H1. do 2 f_equal. lia.
    + now rewrite H2.
Qed.

(** X11.  A stat modifier stored with a turn counter [c] on a living
    combatant that carries no poison and no burn is in force, with its
    full amount, after each of the first [c - 1] end-of-turn processings,
    and the [c]-th removes its counter and its amount together; the
    combatant's HP is the same throughout. *)
Theorem modifier_lifetime k p c amount (j : nat) :
  alive p = true -> status p !! "poison" = None -> status p !! "burn" = None ->
  status p !! modifier_key k = Some (VInt c) ->
  status p !! (modifier_key k +:+ "_amt") = Some (VInt amount) ->
  0 < c ->
  let q := Nat.iter j apply_end_of_turn p in
  (Z.of_nat j < c ->
   status q !! modifier_key k = Some (VInt (c - Z.of_nat j)) /\
   stacked_amount (status q) (modifier_key k) = amount /\ hp q = hp p) /\
  (Z.of_nat j = c ->
   status q !! modifier_key k = None /\
   status q !! (modifier_key k +:+ "_amt") = None /\
   stacked_amount (status q) (modifier_key k) = 0 /\ hp q = hp p).
Proof.
  intros Ha Hp Hb Hc Hamt Hpos. cbv zeta.
  assert (Hhp : forall i : nat, Z.of_nat i < c -> hp (Nat.iter i apply_end_of_turn p) = hp p).
  { induction i as [|i IH]; intros Hi; [reflexivity|].
    simpl.
    destruct (modifier_lifetime_running k p c amount i Ha Hp Hb Hc Hamt ltac:(lia))
      as (_ & Hp' & Hb' & _).
    destruct (end_of_turn_no_dot _ Hp' Hb') as (-> & _). apply IH. lia. }
  split.
  - intros Hj.
    destruct (modifier_lifetime_running k p c amount j Ha Hp Hb Hc Hamt Hj)
      as (_ & _ & _ & H1 & H2).
    split; [assumption|]. split; [|now apply Hhp].
    unfold stacked_amount, status_get. rewrite H1, H2.
    replace (0 <? c - Z.of_nat j) with true by (symmetry; apply Z.ltb_lt; lia).
    reflexivity.
  - intros Hj. destruct j as [|j]; [simpl in Hj; lia|].
    destruct (modifier_lifetime_running k p c amount j Ha Hp Hb Hc Hamt ltac:(lia))
      as (Ha' & Hp' & Hb' & H1 & H2).
    simpl. set (q := Nat.iter j apply_end_of_turn p) in *.
    destruct (end_of_turn_modifier q (modifier_key k) _ Ha'
                (modifier_key_not_skipped k) H1) as [H3 H4].
    replace (c - Z.of_nat j - 1 <=? 0) with true in H3, H4
      by (symmetry; apply Z.leb_le; lia).
    repeat split; try assumption.
    + unfold stacked_amount, status_get. now rewrite H3.
    + destruct (end_of_turn_no_dot q Hp' Hb') as (-> & _). apply Hhp. lia.
Qed.

(** Shelltron's Fortify (+2 defense for 3 turns): in force after two
    end-of-turn processings, gone after the third. *)
Lemma modifier_lifetime_witness :
  let p := def_boost shelltron 2 3 in
  (status (Nat.iter 2 apply_end_of_turn p) !! "def_up" = Some (VInt 1) /\
   stacked_amount (status (Nat.iter 2 apply_end_of_turn p)) "def_up" = 2 /\
   hp (Nat.iter 2 apply_end_of_turn p) = hp p) /\
  (status (Nat.iter 3 apply_end_of_turn p) !! "def_up" = None /\
   status (Nat.iter 3 apply_end_of_turn p) !! "def_up_amt" = None /\
   stacked_amount (status (Nat.iter 3 apply_end_of_turn p)) "def_up" = 0 /\
   hp (Nat.iter 3 apply_end_of_turn p) = hp p).
Proof.
  cbv zeta. split.
  - apply (modifier_lifetime DefenseUp (def_boost shelltron 2 3) 3 2 2);
      first [reflexivity | simpl; lia].
  - apply (modifier_lifetime DefenseUp (def_boost shelltron 2 3) 3 2 3);
      first [reflexivity | simpl; lia].
Defined.

Lemma end_of_turn_poison_tick p d t :
  alive p = true -> status p !! "poison" = Some (VDict (Some d) t) ->
  status p !! "burn" = None -> 0 < t ->
  hp (apply_end_of_turn p) = Z.max 0 (hp p - d) /\
  status (apply_end_of_turn p) !! "poison"
  = (if t - 1 <=? 0 then None else Some (VDict (Some d) (t - 1))) /\
  status (apply_end_of_turn p) !! "burn" = None.
Proof.
  intros Ha Hp Hb Ht. split; [|split].
  - unfold apply_end_of_turn. rewrite Ha. simpl.
    rewrite hp_tick_paralysis, hp_decrement_durations.
    rewrite (tick_damage_over_time_absent "burn")
      by (now rewrite tick_damage_over_time_other by discriminate).
    unfold tick_damage_over_time. rewrite Hp.
    apply Z.ltb_lt in Ht. rewrite Ht. destruct (t - 1 <=? 0); reflexivity.
  - now apply end_of_turn_poison.
  - unfold apply_end_of_turn. rewrite Ha. simpl.
    rewrite tick_paralysis_other by discriminate.
    rewrite decrement_durations_timed by reflexivity.
    rewrite (tick_damage_over_time_absent "burn");
      now rewrite tick_damage_over_time_other by discriminate.
Qed.

Lemma poison_running p d t (j : nat) :
  alive p = true -> status p !! "poison" = Some (VDict (Some d) t) ->
  status p !! "burn" = None -> 0 <= d ->
  Z.of_nat j < t -> Z.of_nat j * d < hp p ->
  let q := Nat.iter j apply_end_of_turn p in
  hp q = hp p - Z.of_nat j * d /\
  status q !! "poison" = Some (VDict (Some d) (t - Z.of_nat j)) /\
  status q !! "burn" = None.
Proof.
  intros Ha Hp Hb Hd. induction j as [|j IH]; intros Hj Hhp; cbv zeta.
  - simpl. rewrite ?Z.sub_0_r. repeat split; try assumption; lia.
  - rewrite Nat2Z.inj_succ in Hj, Hhp |- *.
    destruct IH as (Hq & Hp' & Hb'); [lia | nia|].
    simpl. set (q := Nat.iter j apply_end_of_turn p) in *.
    assert (Ha' : alive q = true) by (unfold alive; apply Z.ltb_lt; nia).
    destruct (end_of_turn_poison_tick q d (t - Z.of_nat j) Ha' Hp' Hb' ltac:(lia))
      as (H1 & H2 & H3).
    replace (t - Z.of_nat j - 1 <=? 0) with false in H2
      by (symmetry; apply Z.leb_gt; lia).
    repeat split; try assumption.
    + rewrite H1, Hq. nia.
    + rewrite H2. do 2 f_equal. lia.
Qed.

Lemma end_of_turn_fainted p (n : nat) :
  alive p = false -> Nat.iter n apply_end_of_turn p = p.
Proof.
  intros Ha. induction n as [|n IH]; [reflexivity|].
  simpl. rewrite IH. unfold apply_end_of_turn. now rewrite Ha.
Qed.

(** X12.  Poison of [d] damage for [t] turns on a living combatant
    without burn takes [d] HP at each end-of-turn processing: after [j]
    of them ([1 <= j <= t], the combatant still alive before the [j]-th)
    the HP is [max(0, hp - j*d)], the entry shows [t - j] turns and is
    removed when [j = t].  A combatant the poison has brought to 0 HP is
    not processed any more: its state, the remaining poison turns
    included, stays as it is. *)
Theorem poison_lifetime p d t (j : nat) :
  alive p = true -> status p !! "poison" = Some (VDict (Some d) t) ->
  status p !! "burn" = None -> 0 <= d ->
  1 <= Z.of_nat j <= t -> (Z.of_nat j - 1) * d < hp p ->
  let q := Nat.iter j apply_end_of_turn p in
  hp q = Z.max 0 (hp p - Z.of_nat j * d) /\
  status q !! "poison"
  = (if Z.of_nat j =? t then None else Some (VDict (Some d) (t - Z.of_nat j))) /\
  (hp p <= Z.of_nat j * d -> forall n : nat, Nat.iter n apply_end_of_turn q = q).
Proof.
  intros Ha Hp Hb Hd Hj Hhp. cbv zeta.
  destruct j as [|j]; [simpl in Hj; lia|].
  rewrite Nat2Z.inj_succ in Hj, Hhp |- *.
  destruct (poison_running p d t j Ha Hp Hb Hd) as (Hq & Hp' & Hb'); [lia | nia|].
  simpl. set (q := Nat.iter j apply_end_of_turn p) in *.
  assert (Ha' : alive q = true) by (unfold alive; apply Z.ltb_lt; nia).
  destruct (end_of_turn_poison_tick q d (t - Z.of_nat j) Ha' Hp' Hb' ltac:(lia))
    as (H1 & H2 & H3).
  split; [rewrite H1, Hq; f_equal; nia|]. split.
  - rewrite H2. destruct (Z.eqb_spec (Z.succ (Z.of_nat j)) t) as [He|He].
    + replace (t - Z.of_nat j - 1 <=? 0) with true by (symmetry; apply Z.leb_le; lia).
      reflexivity.
    + replace (t - Z.of_nat j - 1 <=? 0) with false by (symmetry; apply Z.leb_gt; lia).
      do 2 f_equal. lia.
  - intros Hdead n. apply end_of_turn_fainted.
    unfold alive. apply Z.ltb_ge. rewrite H1, Hq. nia.
Qed.

(** Mossgoliath's Spore Haze (6 damage for 3 turns): 18 HP are gone after
    three end-of-turn processings, and the entry with them. *)
Lemma poison_lifetime_witness :
  let q := Nat.iter 3 apply_end_of_turn (apply_poison cbroman 6 3) in
  hp q = Z.max 0 (hp cbroman - 3 * 6) /\
  status q !! "poison" = None /\
  (hp cbroman <= 3 * 6 -> forall n : nat, Nat.iter n apply_end_of_turn q = q).
Proof.
  cbv zeta.
  apply (poison_lifetime (apply_poison cbroman 6 3) 6 3 3);
    first [reflexivity | simpl; lia].
Defined.

(** ** Speed modifiers *)

Lemma status_get_stack_modifier_other key p amount turns k :
  k <> key -> k <> key +:+ "_amt" ->
  status_get (status (stack_modifier key p amount turns)) k = status_get (status p) k.
Proof.
  intros H1 H2. unfold stack_modifier. rewrite status_set_status.
  rewrite !status_get_insert_ne by congruence. reflexivity.
Qed.

Lemma status_get_speed_boost p amount turns k :
  k <> "spd_up" -> k <> "spd_up_amt" -> k <> "spd_down" -> k <> "spd_down_amt" ->
  status_get (status (speed_boost p amount turns)) k = status_get (status p) k.
Proof.
  intros. unfold speed_boost.
  destruct (0 <? amount); now apply status_get_stack_modifier_other.
Qed.

(** X13.  The speed modifiers are stored but never read: after any
    [speed_boost] on the attacker and on the defender the speed that
    orders the doubles actions and decides the extra hit is the same, and
    so is the damage of every move. *)
Theorem speed_modifiers_are_never_read attacker defender move variance crit_roll
    amount1 turns1 amount2 turns2 act slot :
  let attacker' := speed_boost attacker amount1 turns1 in
  let defender' := speed_boost defender amount2 turns2 in
  spd attacker' = spd attacker /\
  action_speed (mkAction act attacker' slot) = action_speed (mkAction act attacker slot) /\
  double_hit_if_faster attacker' defender' = double_hit_if_faster attacker defender /\
  compute_damage attacker' defender' move variance crit_roll
  = compute_damage attacker defender move variance crit_roll.
Proof.
  cbv zeta.
  assert (Hs : forall p a t, spd (speed_boost p a t) = spd p)
    by (intros; apply speed_boost_frame).
  split; [apply Hs|]. split; [apply Hs|]. split.
  - unfold double_hit_if_faster. now rewrite !Hs.
  - unfold compute_damage.
    rewrite !status_get_speed_boost by discriminate.
    replace (dfns (speed_boost defender amount2 turns2)) with (dfns defender)
      by (symmetry; apply speed_boost_frame).
    replace (atk (speed_boost attacker amount1 turns1)) with (atk attacker)
      by (symmetry; apply speed_boost_frame).
    replace (lvl (speed_boost defender amount2 turns2)) with (lvl defender)
      by (symmetry; apply speed_boost_frame).
    replace (lvl (speed_boost attacker amount1 turns1)) with (lvl attacker)
      by (symmetry; apply speed_boost_frame).
    reflexivity.
Qed.

(** ** Critical hits *)



(** ** Statistics: counters and percentages *)

Lemma ensure_record_lookup n (stats : gmap string StatRecord) k :
  ensure_record n stats !! k
  = if decide (k = n) then Some (default new_record (stats !! n)) else stats !! k.
Proof.
  unfold ensure_record. destruct (stats !! n) as [r|] eqn:E.
  - case_decide; [subst; now rewrite E | reflexivity].
  - rewrite lookup_insert. case_decide; case_decide; simpl; congruence.
Qed.

Lemma update_stats_lookup (stats : gmap string StatRecord) winner_pokemon loser_pokemon n :
  update_stats stats winner_pokemon loser_pokemon !! n
  = if decide (n = name winner_pokemon) then
      Some (refresh_percentage
              ((if decide (n = name loser_pokemon) then record_loss else id)
                 (record_win (default new_record (stats !! n)))))
    else if decide (n = name loser_pokemon) then
      Some (refresh_percentage (record_loss (default new_record (stats !! n))))
    else refresh_percentage <$> stats !! n.
Proof.
  unfold update_stats. rewrite lookup_fmap.
  repeat first [rewrite lookup_alter | rewrite ensure_record_lookup].
  repeat case_decide; subst; try congruence; simpl;
    repeat first [rewrite lookup_alter | rewrite ensure_record_lookup];
    repeat case_decide; subst; try congruence; simpl; try reflexivity.
Qed.

(** X15.  [update_stats] creates a zero record for a winner or loser that
    has none, and then the winner's record has one win and one match
    more, the loser's one loss and one match more (a combatant that beats
    a namesake gets both in its one record, two matches more), and the
    counters of every other record are what they were; no record is
    dropped. *)
Theorem update_stats_counters (stats : gmap string StatRecord) winner_pokemon loser_pokemon n :
  let old := default new_record (stats !! n) in
  let won := if decide (n = name winner_pokemon) then 1 else 0 in
  let lost := if decide (n = name loser_pokemon) then 1 else 0 in
  (is_Some (update_stats stats winner_pokemon loser_pokemon !! n) <->
   is_Some (stats !! n) \/ n = name winner_pokemon \/ n = name loser_pokemon) /\
  (forall r, update_stats stats winner_pokemon loser_pokemon !! n = Some r ->
             wins r = wins old + won /\ losses r = losses old + lost /\
             matches r = matches old + won + lost).
Proof.
  cbv zeta. rewrite update_stats_lookup.
  destruct (decide (n = name winner_pokemon)) as [Hw|Hw],
           (decide (n = name loser_pokemon)) as [Hl|Hl].
  - split; [split; eauto|]. intros r [= <-]. simpl. lia.
  - split; [split; eauto|]. intros r [= <-]. simpl. lia.
  - split; [split; eauto|]. intros r [= <-]. simpl. lia.
  - split.
    + rewrite fmap_is_Some. split; [auto|]. intros [?|[?|?]]; [assumption|contradiction..].
    + intros r. destruct (stats !! n) as [r0|]; [|discriminate].
      intros [= <-]. simpl. lia.
Qed.




(** ** Doubles: forced switches *)

Lemma existsb_nat_eqb idx (l : list nat) : existsb (Nat.eqb idx) l = true <-> idx ∈ l.
Proof.
  rewrite existsb_exists, list_elem_of_In. split.
  - intros (y & Hy & Heq). apply Nat.eqb_eq in Heq. now subst.
  - intros H. exists idx. split; [assumption | apply Nat.eqb_refl].
Qed.

Lemma bench_alive_spec team active idx :
  In idx (bench_alive team active) <->
  (idx ∉ active) /\ exists p, team !! idx = Some p /\ alive p = true.
Proof.
  unfold bench_alive. rewrite filter_In, in_seq, andb_true_iff, negb_true_iff. split.
  - intros (_ & Hact & Hal). split.
    + intros Hin. apply existsb_nat_eqb in Hin. congruence.
    + destruct (team !! idx) as [p|]; [eauto | discriminate].
  - intros (Hact & p & Hp & Ha). split; [|split].
    + apply lookup_lt_Some in Hp. lia.
    + destruct (existsb (Nat.eqb idx) active) eqn:E; [|reflexivity].
      apply existsb_nat_eqb in E. contradiction.
    + now rewrite Hp.
Qed.

Lemma NoDup_insert_fresh (l : list nat) i x : NoDup l -> x ∉ l -> NoDup (<[i := x]> l).
Proof.
  intros Hnd Hx. apply NoDup_alt. intros j1 j2 y H1 H2.
  apply list_lookup_insert_Some in H1 as [(-> & <- & Hl1)|(Hne1 & H1)];
    apply list_lookup_insert_Some in H2 as [(<- & Heq & Hl2)|(Hne2 & H2)];
    try reflexivity.
  - exfalso. apply Hx. eapply list_elem_of_lookup_2, H2.
  - subst y. exfalso. apply Hx. eapply list_elem_of_lookup_2, H1.
  - eapply NoDup_alt; eassumption.
Qed.

Lemma refill_slot_cases team active i :
  refill_slot team active i = active \/
  exists idx p first_available,
    active !! i = Some idx /\ team !! idx = Some p /\ alive p = false /\
    In first_available (bench_alive team active) /\
    refill_slot team active i = <[i := first_available]> active.
Proof.
  unfold refill_slot.
  destruct (active !! i) as [idx|] eqn:Ei; [|now left].
  destruct (team !! idx) as [p|] eqn:Ep; [|now left].
  destruct (alive p) eqn:Ha; [now left|].
  destruct (bench_alive team active) as [|a0 rest] eqn:Eb; [now left|].
  right. exists idx, p, a0. repeat split; try assumption. now left.
Qed.

Lemma refill_slot_stuck team active i idx p :
  refill_slot team active i !! i = Some idx -> team !! idx = Some p -> alive p = false ->
  refill_slot team active i = active /\ bench_alive team active = [].
Proof.
  intros Hi Hp Ha. unfold refill_slot in *.
  destruct (active !! i) as [idx0|] eqn:Ei; [|congruence].
  destruct (team !! idx0) as [p0|] eqn:Ep0.
  - destruct (alive p0) eqn:Ha0; [congruence|].
    destruct (bench_alive team active) as [|a0 rest] eqn:Eb; [auto|].
    exfalso. rewrite list_lookup_insert_eq in Hi by (eapply lookup_lt_Some; eassumption).
    injection Hi as ->.
    assert (Hin : In idx (bench_alive team active)) by (rewrite Eb; now left).
    apply bench_alive_spec in Hin as (_ & p' & Hp' & Ha'). congruence.
  - congruence.
Qed.

Lemma refill_slot_other team active i j :
  i <> j -> refill_slot team active i !! j = active !! j.
Proof.
  intros Hne. destruct (refill_slot_cases team active i) as [->|(idx & p & a0 & _ & _ & _ & _ & ->)];
    [reflexivity|]. now apply list_lookup_insert_ne.
Qed.

Lemma refill_slot_NoDup team active i : NoDup active -> NoDup (refill_slot team active i).
Proof.
  intros Hnd. destruct (refill_slot_cases team active i)
    as [->|(idx & p & a0 & _ & _ & _ & Hin & ->)]; [assumption|].
  apply NoDup_insert_fresh; [assumption|]. now apply bench_alive_spec in Hin as [? _].
Qed.

Lemma refill_slot_length team active i : length (refill_slot team active i) = length active.
Proof.
  destruct (refill_slot_cases team active i) as [->|(idx & p & a0 & _ & _ & _ & _ & ->)];
    [reflexivity | apply length_insert].
Qed.

Lemma refill_slot_living team active i j idx p :
  active !! j = Some idx -> team !! idx = Some p -> alive p = true ->
  refill_slot team active i !! j = Some idx.
Proof.
  intros Hj Hp Ha. destruct (refill_slot_cases team active i)
    as [->|(idx0 & p0 & a0 & Hi & Hp0 & Ha0 & _ & ->)]; [assumption|].
  destruct (decide (i = j)) as [->|Hne]; [|now rewrite list_lookup_insert_ne].
  congruence.
Qed.

Lemma refill_slot_source team active i j idx :
  refill_slot team active i !! j = Some idx ->
  active !! j = Some idx \/
  ((idx ∉ active) /\ exists p, team !! idx = Some p /\ alive p = true).
Proof.
  destruct (refill_slot_cases team active i)
    as [->|(idx0 & p0 & a0 & Hi & Hp0 & Ha0 & Hin & ->)]; [now left|].
  intros H. apply list_lookup_insert_Some in H as [(-> & <- & _)|(_ & H)]; [|now left].
  right. now apply bench_alive_spec.
Qed.

(** X17.  The forced switch at the start of a doubles turn keeps the
    number of active slots and never names a team member twice.  A slot
    whose combatant is alive is left alone; a slot that names someone new
    names a living member that was not active; and one of the two slots
    still names a fainted member afterwards only when every living member
    of the team is already active. *)
Theorem refill_spec team active :
  NoDup active ->
  let active' := refill team active in
  length active' = length active /\ NoDup active' /\
  (forall i idx p, active !! i = Some idx -> team !! idx = Some p -> alive p = true ->
                   active' !! i = Some idx) /\
  (forall i idx, active' !! i = Some idx ->
                 active !! i = Some idx \/
                 ((idx ∉ active) /\ exists p, team !! idx = Some p /\ alive p = true)) /\
  (forall i idx p, (i < 2)%nat -> active' !! i = Some idx -> team !! idx = Some p ->
                   alive p = false -> bench_alive team active' = []).
Proof.
  intros Hnd. cbv zeta. unfold refill.
  set (a1 := refill_slot team active 0).
  assert (Hnd1 : NoDup a1) by now apply refill_slot_NoDup.
  split; [unfold a1; now rewrite !refill_slot_length|].
  split; [now apply refill_slot_NoDup|].
  split; [|split].
  - intros i idx p Hi Hp Ha. eapply refill_slot_living; try eassumption.
    eapply refill_slot_living; eassumption.
  - intros i idx Hi. apply refill_slot_source in Hi as [Hi|(Hnot & p & Hp & Ha)].
    + apply refill_slot_source in Hi as [Hi|Hi]; [now left | now right].
    + destruct (decide (idx ∈ active)) as [Hin|Hout]; [|right; eauto].
      exfalso. apply list_elem_of_lookup_1 in Hin as (j & Hj).
      apply Hnot. eapply list_elem_of_lookup_2.
      eapply refill_slot_living; eassumption.
  - intros i idx p Hi2 Hi Hp Ha.
    destruct i as [|[|i]]; [| |lia].
    + rewrite refill_slot_other in Hi by lia.
      destruct (refill_slot_stuck team active 0 idx p Hi Hp Ha) as [Heq Hb].
      fold a1 in Heq. rewrite Heq.
      destruct (refill_slot_cases team active 1)
        as [->|(idx1 & p1 & a0 & _ & _ & _ & Hin & _)]; [assumption|].
      rewrite Hb in Hin. destruct Hin.
    + destruct (refill_slot_stuck team a1 1 idx p Hi Hp Ha) as [-> Hb]. assumption.
Qed.

(** Slots 0 and 1 of a team of four, member 0 fainted: member 2 comes
    in. *)
Lemma refill_spec_witness :
  let team := [set_hp cbroman 0; shelltron; emberfox; aquabyte] in
  let active' := refill team [0%nat; 1%nat] in
  active' = [2%nat; 1%nat] /\
  (length active' = length [0%nat; 1%nat] /\ NoDup active' /\
   (forall i idx p, [0%nat; 1%nat] !! i = Some idx -> team !! idx = Some p ->
                    alive p = true -> active' !! i = Some idx) /\
   (forall i idx, active' !! i = Some idx ->
                  [0%nat; 1%nat] !! i = Some idx \/
                  ((idx ∉ [0%nat; 1%nat]) /\ exists p, team !! idx = Some p /\ alive p = true)) /\
   (forall i idx p, (i < 2)%nat -> active' !! i = Some idx -> team !! idx = Some p ->
                    alive p = false -> bench_alive team active' = [])).
Proof.
  cbv zeta. split; [reflexivity|].
  apply (refill_spec [set_hp cbroman 0; shelltron; emberfox; aquabyte] [0%nat; 1%nat]).
  apply (bool_decide_unpack _). vm_compute. exact I.
Defined.

(** ** Doubles: a whole turn *)

Lemma same_base_tick_damage_over_time key p : same_base (tick_damage_over_time key p) p.
Proof.
  unfold tick_damage_over_time.
  destruct (status p !! key) as [[|dmg turns]|]; try apply same_base_refl.
  destruct (0 <? turns); [|apply same_base_refl]. cbv zeta.
  destruct (turns - 1 <=? 0); repeat split.
Qed.

Lemma same_base_tick_paralysis p : same_base (tick_paralysis p) p.
Proof.
  unfold tick_paralysis.
  destruct (status p !! "paralysis") as [[|dmg turns]|]; try apply same_base_refl.
  destruct (0 <? turns); [|apply same_base_refl].
  destruct (turns - 1 <=? 0); repeat split.
Qed.

Lemma same_base_apply_end_of_turn p : same_base (apply_end_of_turn p) p.
Proof.
  unfold apply_end_of_turn. destruct (negb (alive p)); [apply same_base_refl|]. cbv zeta.
  eapply same_base_trans; [apply same_base_tick_paralysis|].
  eapply same_base_trans; [|eapply same_base_trans;
    [apply (same_base_tick_damage_over_time "burn") | apply same_base_tick_damage_over_time]].
  repeat split.
Qed.

Lemma same_base_regain_energy k p : same_base (regain_energy k p) p.
Proof. repeat split. Qed.

Lemma Forall2_same_base_insert team' team i p p' :
  Forall2 same_base team' team -> team' !! i = Some p -> same_base p' p ->
  Forall2 same_base (<[i := p']> team') team.
Proof.
  intros HF Hp Hb.
  destruct (Forall2_lookup_l _ _ _ _ _ HF Hp) as (p0 & Hp0 & Hpp0).
  rewrite <- (list_insert_id team i p0 Hp0).
  apply Forall2_insert; [assumption|]. eapply same_base_trans; eassumption.
Qed.

Lemma end_phase_slot_kept team team0 active i :
  Forall combatant_ok team -> Forall2 same_base team team0 ->
  Forall combatant_ok (end_phase_slot team active i) /\
  Forall2 same_base (end_phase_slot team active i) team0.
Proof.
  intros Hok Hb. unfold end_phase_slot.
  destruct (active !! i) as [idx|]; [|now split].
  destruct (team !! idx) as [p|] eqn:Hp; [|now split].
  split.
  - apply Forall_insert; [assumption|].
    apply regain_energy_ok; [lia|]. apply apply_end_of_turn_ok.
    exact (Forall_lookup_1 _ _ _ _ Hok Hp).
  - eapply Forall2_same_base_insert; [eassumption..|].
    eapply same_base_trans; [apply same_base_regain_energy | apply same_base_apply_end_of_turn].
Qed.

Lemma end_phase_kept team team0 active :
  Forall combatant_ok team -> Forall2 same_base team team0 ->
  Forall combatant_ok (end_phase team active) /\
  Forall2 same_base (end_phase team active) team0.
Proof.
  intros Hok Hb. unfold end_phase.
  destruct (end_phase_slot_kept team team0 active 0 Hok Hb) as [Hok1 Hb1].
  now apply end_phase_slot_kept.
Qed.

Lemma Forall2_same_base_refl team : Forall2 same_base team team.
Proof. apply Forall_Forall2_diag, Forall_forall. intros p _. apply same_base_refl. Qed.

Lemma teams_same_base_set_team who t teams' teams :
  Forall2 same_base t (team_of who teams) -> teams_same_base teams' teams ->
  teams_same_base (set_team who t teams') teams.
Proof. destruct who; intros Ht [H1 H2]; split; assumption. Qed.

Lemma teams_same_base_team_of who teams' teams :
  teams_same_base teams' teams -> Forall2 same_base (team_of who teams') (team_of who teams).
Proof. destruct who; intros [H1 H2]; assumption. Qed.

(** One pass of the resolution loop body keeps the invariants and
    returns, when the action names members of the two teams. *)
Lemma resolve_queued_kept teams0 teams q r :
  Forall (fun p => max_hp p <> 0) teams0.1 -> Forall (fun p => max_hp p <> 0) teams0.2 ->
  teams_ok teams -> teams_same_base teams teams0 ->
  is_Some (team_of (q_side q) teams0 !! q_pokemon q) ->
  well_aimed teams0 (q_side q) (q_type q) ->
  exists teams', resolve_queued teams q r = Some teams' /\
                 teams_ok teams' /\ teams_same_base teams' teams0.
Proof.
  intros Hm1 Hm2 Hok Hb Hatt Haim. unfold resolve_queued.
  destruct (q_type q) as [move target| | |]; try (exists teams; split; [reflexivity | split; assumption]).
  destruct Haim as [Hmove Htar].
  pose proof (teams_same_base_team_of (q_side q) _ _ Hb) as Hbs.
  pose proof (teams_same_base_team_of (other (q_side q)) _ _ Hb) as Hbo.
  destruct Hatt as [a0 Ha0]. destruct Htar as [d0 Hd0].
  destruct (Forall2_lookup_r _ _ _ _ _ Hbs Ha0) as (attacker & Ha & Hab).
  destruct (Forall2_lookup_r _ _ _ _ _ Hbo Hd0) as (defender & Hd & Hdb).
  rewrite Ha, Hd.
  assert (Hmax : max_hp defender <> 0).
  { assert (H0 : max_hp d0 <> 0).
    { destruct (q_side q); simpl in Hd0;
        [exact (Forall_lookup_1 _ _ _ _ Hm2 Hd0) | exact (Forall_lookup_1 _ _ _ _ Hm1 Hd0)]. }
    destruct Hdb as (_ & _ & Hmx & _). congruence. }
  destruct (perform_move_returns attacker defender move r Hmax) as [[[a' d'] messages] Hpm].
  rewrite Hpm. eexists. split; [reflexivity|].
  pose proof (Forall_lookup_1 _ _ _ _ (teams_ok_team_of (q_side q) _ Hok) Ha) as Hoka.
  pose proof (Forall_lookup_1 _ _ _ _ (teams_ok_team_of (other (q_side q)) _ Hok) Hd) as Hokd.
  destruct (perform_move_ok _ _ _ _ _ _ _ Hmove Hoka Hokd Hpm) as [Hoka' Hokd'].
  destruct (perform_move_frame_energy _ _ _ _ _ _ _ Hpm) as (Hba & Hbd & _).
  split.
  - apply teams_ok_set_team.
    + apply Forall_insert; [now apply teams_ok_team_of | assumption].
    + apply teams_ok_set_team; [|assumption].
      apply Forall_insert; [now apply teams_ok_team_of | assumption].
  - apply teams_same_base_set_team.
    + eapply Forall2_same_base_insert; eassumption.
    + apply teams_same_base_set_team; [|assumption].
      eapply Forall2_same_base_insert; eassumption.
Qed.

Lemma resolve_queue_kept teams0 queue rolls : forall k teams,
  Forall (fun p => max_hp p <> 0) teams0.1 -> Forall (fun p => max_hp p <> 0) teams0.2 ->
  teams_ok teams -> teams_same_base teams teams0 ->
  Forall (fun q => is_Some (team_of (q_side q) teams0 !! q_pokemon q)
                   /\ well_aimed teams0 (q_side q) (q_type q)) queue ->
  exists teams', resolve_queue k teams queue rolls = Some teams' /\
                 teams_ok teams' /\ teams_same_base teams' teams0.
Proof.
  induction queue as [|q rest IH]; intros k teams Hm1 Hm2 Hok Hb Hq.
  - exists teams. split; [reflexivity | split; assumption].
  - apply Forall_cons in Hq as [[Hatt Haim] Hrest]. simpl.
    destruct (resolve_queued_kept teams0 teams q (rolls k) Hm1 Hm2 Hok Hb Hatt Haim)
      as (teams1 & -> & Hok1 & Hb1).
    now apply IH.
Qed.

Lemma queue_slot_members decide who team active slot_idx q :
  q ∈ queue_slot decide who team active slot_idx ->
  q_side q = who /\ q_type q = decide who (q_slot q) /\ is_Some (team !! q_pokemon q).
Proof.
  unfold queue_slot.
  destruct (active !! slot_idx) as [idx|]; [|now intros ?%elem_of_nil].
  destruct (team !! idx) as [p|] eqn:Hp; [|now intros ?%elem_of_nil].
  destruct (alive p); [|now intros ?%elem_of_nil].
  intros ->%list_elem_of_singleton. simpl. rewrite Hp. eauto.
Qed.

Lemma queue_side_members decide who team active q :
  q ∈ queue_side decide who team active ->
  q_side q = who /\ q_type q = decide who (q_slot q) /\ is_Some (team !! q_pokemon q).
Proof.
  unfold queue_side. intros [H|H]%elem_of_app; eapply queue_slot_members; eassumption.
Qed.

(** X18.  A doubles turn always completes, keeps every combatant's HP and
    energy within their bounds, and leaves both teams with the same
    members in the same positions, their names, stats and move lists
    untouched - provided the teams were within bounds, no member has max
    HP 0, and every attack that was chosen names a member of the
    opposing team and has a non-negative cost and hook amounts. *)
Theorem doubles_turn_kept decide rolls s :
  teams_ok (d_teams s) ->
  Forall (fun p => max_hp p <> 0) (d_teams s).1 ->
  Forall (fun p => max_hp p <> 0) (d_teams s).2 ->
  (forall who slot_idx, well_aimed (d_teams s) who (decide who slot_idx)) ->
  exists s', doubles_turn decide rolls s = Some s' /\
             teams_ok (d_teams s') /\ teams_same_base (d_teams s') (d_teams s) /\
             d_p1_active s' = refill (d_teams s).1 (d_p1_active s) /\
             d_p2_active s' = refill (d_teams s).2 (d_p2_active s).
Proof.
  intros Hok Hm1 Hm2 Haim. unfold doubles_turn. cbv zeta.
  set (queue := sort_desc _ _).
  assert (Hq : Forall (fun q => is_Some (team_of (q_side q) (d_teams s) !! q_pokemon q)
                                /\ well_aimed (d_teams s) (q_side q) (q_type q)) queue).
  { apply Forall_forall. intros q Hin. unfold queue in Hin.
    rewrite (sort_desc_perm _ _) in Hin.
    apply elem_of_app in Hin as [Hin|Hin]; apply queue_side_members in Hin as (Hs & Ht & Hp);
      rewrite Hs, Ht; split; try apply Haim; exact Hp. }
  destruct (resolve_queue_kept (d_teams s) queue rolls 0%nat (d_teams s) Hm1 Hm2 Hok)
    as (teams & -> & [Hok1 Hok2] & [Hb1 Hb2]); [|assumption|].
  { split; apply Forall2_same_base_refl. }
  eexists. split; [reflexivity|]. simpl.
  destruct (end_phase_kept teams.1 (d_teams s).1 (refill (d_teams s).1 (d_p1_active s)) Hok1 Hb1).
  destruct (end_phase_kept teams.2 (d_teams s).2 (refill (d_teams s).2 (d_p2_active s)) Hok2 Hb2).
  repeat split; assumption.
Qed.

Lemma doubles_turn_kept_witness :
  let s := mkDoubles ([cbroman; emberfox], [shelltron; aquabyte]) [0; 1]%nat [0; 1]%nat in
  let decide := fun (who : Player) (slot_idx : nat) =>
                  match who, slot_idx with
                  | Player1, O =>
                      QAttack (mkMove "Thunder Shock" 35 59 "special-status"
                                      (Some (HParalysis OnDefender 4))) 1
                  | _, _ => QPass
                  end in
  exists s', doubles_turn decide (fun _ => mkRolls 1 1 1 1 1) s = Some s' /\
             teams_ok (d_teams s') /\ teams_same_base (d_teams s') (d_teams s) /\
             d_p1_active s' = refill (d_teams s).1 (d_p1_active s) /\
             d_p2_active s' = refill (d_teams s).2 (d_p2_active s).
Proof.
  cbv zeta.
  apply (doubles_turn_kept
           (fun who slot_idx =>
              match who, slot_idx with
              | Player1, O =>
                  QAttack (mkMove "Thunder Shock" 35 59 "special-status"
                                  (Some (HParalysis OnDefender 4))) 1
              | _, _ => QPass
              end)
           (fun _ => mkRolls 1 1 1 1 1)
           (mkDoubles ([cbroman; emberfox], [shelltron; aquabyte]) [0; 1]%nat [0; 1]%nat)).
  - split; repeat constructor; simpl; try lia;
      intros key dmg turns _ H; rewrite lookup_empty in H; discriminate.
  - repeat constructor; simpl; lia.
  - repeat constructor; simpl; lia.
  - intros [] [|slot_idx]; simpl; try exact I. split; [reflexivity | eexists; reflexivity].
Defined.

Lemma resolve_queue_passed_over queue rolls : forall k teams,
  Forall (fun q => passed_over (q_type q) = true) queue ->
  resolve_queue k teams queue rolls = Some teams.
Proof.
  induction queue as [|q rest IH]; intros k teams Hq; [reflexivity|].
  apply Forall_cons in Hq as [Hq Hrest]. simpl. unfold resolve_queued.
  destruct (q_type q); try discriminate; now apply IH.
Qed.

(** X19.  The resolution loop of a doubles turn acts on attacks only.
    When every action chosen is a switch, a pass or a move filed as
    [status] (no power, category not ending in "-status"), the turn
    changes the teams by the end-of-turn processing alone: no status
    move takes effect or costs energy, and no switch changes the active
    slots. *)
Theorem doubles_turn_without_attacks decide rolls s :
  (forall who slot_idx, passed_over (decide who slot_idx) = true) ->
  let p1_active := refill (d_teams s).1 (d_p1_active s) in
  let p2_active := refill (d_teams s).2 (d_p2_active s) in
  doubles_turn decide rolls s
  = Some (mkDoubles (end_phase (d_teams s).1 p1_active, end_phase (d_teams s).2 p2_active)
                    p1_active p2_active).
Proof.
  intros Hd. cbv zeta. unfold doubles_turn. cbv zeta.
  rewrite resolve_queue_passed_over; [reflexivity|].
  apply Forall_forall. intros q Hin. rewrite (sort_desc_perm _ _) in Hin.
  apply elem_of_app in Hin as [Hin|Hin]; apply queue_side_members in Hin as (_ & -> & _);
    apply Hd.
Qed.

Lemma doubles_turn_without_attacks_witness :
  let s := mkDoubles ([cbroman; emberfox; aquabyte], [shelltron; mossgoliath]) [0; 1]%nat [0; 1]%nat in
  let decide := fun (_ : Player) (_ : nat) =>
                  classify_move (mkMove "Broman's Curse" 0 38 "status"
                                        (Some (HDefLower OnDefender 2 3))) 0 in
  doubles_turn decide (fun _ => mkRolls 1 1 1 1 1) s
  = Some (mkDoubles (end_phase (d_teams s).1 [0; 1]%nat, end_phase (d_teams s).2 [0; 1]%nat)
                    [0; 1]%nat [0; 1]%nat).
Proof.
  cbv zeta.
  apply (doubles_turn_without_attacks
           (fun _ _ => classify_move (mkMove "Broman's Curse" 0 38 "status"
                                             (Some (HDefLower OnDefender 2 3))) 0)
           (fun _ => mkRolls 1 1 1 1 1)
           (mkDoubles ([cbroman; emberfox; aquabyte], [shelltron; mossgoliath])
                      [0; 1]%nat [0; 1]%nat)).
  intros who slot_idx. reflexivity.
Defined.

(** ** The verdict after a battle *)

Lemma any_alive_false team p : any_alive team = false -> p ∈ team -> alive p = false.
Proof.
  unfold any_alive. intros H Hin. apply list_elem_of_In in Hin.
  destruct (alive p) eqn:E; [|reflexivity].
  assert (existsb alive team = true) by (apply existsb_exists; eauto). congruence.
Qed.

Lemma first_alive_Some team p : first_alive team = Some p -> p ∈ team /\ alive p = true.
Proof. intros H. apply find_some in H as [? ?]. now rewrite list_elem_of_In. Qed.

Lemma first_alive_None team : first_alive team = None -> any_alive team = false.
Proof.
  intros H. unfold any_alive. destruct (existsb alive team) eqn:E; [|reflexivity].
  apply existsb_exists in E as (p & Hin & Ha).
  pose proof (find_none _ _ H p Hin). congruence.
Qed.

Lemma first_fainted_Some team p : first_fainted team = Some p -> p ∈ team /\ alive p = false.
Proof.
  intros H. apply find_some in H as [? ?]. rewrite list_elem_of_In.
  split; [assumption | now apply negb_true_iff].
Qed.

Lemma first_fainted_None team : first_fainted team = None -> any_alive team = false -> team = [].
Proof.
  intros H Hany. destruct team as [|p rest]; [reflexivity|]. exfalso.
  pose proof (find_none _ _ H p (or_introl eq_refl)) as Hp. simpl in Hp.
  apply negb_false_iff in Hp.
  rewrite (any_alive_false (p :: rest) p Hany) in Hp by apply list_elem_of_here. discriminate.
Qed.





(** X21.  The verdict of a doubles battle that has ended.  A side wins
    only when it has a living member and the other side has none; when
    both sides are wiped out together the battle is a draw and nothing
    is recorded.  For a win the statistics are updated with the winner's
    first living member and the loser's first fainted member, unless the
    losing team is empty. *)
Theorem vgc_verdict_spec stats player1_team player2_team :
  any_alive player1_team = false \/ any_alive player2_team = false ->
  let teams := (player1_team, player2_team) in
  match vgc_verdict player1_team player2_team with
  | Some who =>
      any_alive (team_of who teams) = true /\
      any_alive (team_of (other who) teams) = false /\
      (team_of (other who) teams = [] /\
       vgc_record stats player1_team player2_team = stats
       \/ exists winner loser,
            first_alive (team_of who teams) = Some winner /\ alive winner = true /\
            first_fainted (team_of (other who) teams) = Some loser /\
            vgc_record stats player1_team player2_team = update_stats stats winner loser)
  | None =>
      any_alive player1_team = false /\ any_alive player2_team = false /\
      vgc_record stats player1_team player2_team = stats
  end.
Proof.
  intros Hend. cbv zeta. unfold vgc_record, vgc_verdict. cbv zeta.
  destruct (any_alive player1_team) eqn:H1, (any_alive player2_team) eqn:H2; simpl.
  - destruct Hend; discriminate.
  - split; [assumption|]. split; [assumption|]. unfold vgc_pair.
    destruct (first_alive player1_team) as [w|] eqn:Hw;
      [|apply first_alive_None in Hw; congruence].
    destruct (first_fainted player2_team) as [l|] eqn:Hl.
    + right. exists w, l. apply first_alive_Some in Hw as [_ Ha]. repeat split; assumption.
    + left. split; [now apply first_fainted_None | reflexivity].
  - split; [assumption|]. split; [assumption|]. unfold vgc_pair.
    destruct (first_alive player2_team) as [w|] eqn:Hw;
      [|apply first_alive_None in Hw; congruence].
    destruct (first_fainted player1_team) as [l|] eqn:Hl.
    + right. exists w, l. apply first_alive_Some in Hw as [_ Ha]. repeat split; assumption.
    + left. split; [now apply first_fainted_None | reflexivity].
  - repeat split.
Qed.

Lemma vgc_verdict_spec_witness :
  vgc_verdict [set_hp cbroman 0] [set_hp shelltron 0] = None /\
  (any_alive [set_hp cbroman 0] = false /\ any_alive [set_hp shelltron 0] = false /\
   vgc_record ∅ [set_hp cbroman 0] [set_hp shelltron 0] = ∅).
Proof.
  split; [reflexivity|].
  apply (vgc_verdict_spec ∅ [set_hp cbroman 0] [set_hp shelltron 0]).
  left. reflexivity.
Defined.

(** ** Claim C6: doubles resolution order *)

Lemma resolve_queue_performed_teams queue rolls : forall k teams,
  resolve_queue k teams queue rolls = fst <$> resolve_queue_performed k teams queue rolls.
Proof.
  induction queue as [|q rest IH]; intros k teams; [reflexivity|].
  simpl. unfold resolve_queued.
  destruct (q_type q) as [move target| | |]; try apply IH.
  destruct (team_of (q_side q) teams !! q_pokemon q) as [attacker|]; [|reflexivity].
  destruct (team_of (other (q_side q)) teams !! target) as [defender|]; [|reflexivity].
  destruct (perform_move attacker defender move (rolls k)) as [[[a' d'] messages]|];
    [|reflexivity].
  rewrite IH. destruct (resolve_queue_performed _ _ rest rolls) as [[teams' performed]|];
    reflexivity.
Qed.

(** The loop performs the attacks of the queue, in the order of the
    queue, and returns when every attack names members of the teams. *)
Lemma resolve_queue_performed_attacks teams0 queue rolls : forall k teams,
  Forall (fun p => max_hp p <> 0) teams0.1 -> Forall (fun p => max_hp p <> 0) teams0.2 ->
  teams_same_base teams teams0 ->
  Forall (fun q => is_Some (team_of (q_side q) teams0 !! q_pokemon q) /\
                   forall move target, q_type q = QAttack move target ->
                     is_Some (team_of (other (q_side q)) teams0 !! target)) queue ->
  exists teams' performed,
    resolve_queue_performed k teams queue rolls = Some (teams', performed) /\
    performed.*1 = List.filter is_attack queue.
Proof.
  induction queue as [|q rest IH]; intros k teams Hm1 Hm2 Hb Hq.
  - exists teams, []. split; reflexivity.
  - apply Forall_cons in Hq as [[Hatt Haim] Hrest]. simpl. unfold is_attack at 1.
    destruct (q_type q) as [move target| | |] eqn:Et; simpl;
      try (now apply IH).
    destruct (Haim move target eq_refl) as [d0 Hd0]. destruct Hatt as [a0 Ha0].
    pose proof (teams_same_base_team_of (q_side q) _ _ Hb) as Hbs.
    pose proof (teams_same_base_team_of (other (q_side q)) _ _ Hb) as Hbo.
    destruct (Forall2_lookup_r _ _ _ _ _ Hbs Ha0) as (attacker & Ha & Hab).
    destruct (Forall2_lookup_r _ _ _ _ _ Hbo Hd0) as (defender & Hd & Hdb).
    rewrite Ha, Hd.
    assert (Hmax : max_hp defender <> 0).
    { assert (H0 : max_hp d0 <> 0).
      { destruct (q_side q); simpl in Hd0;
          [exact (Forall_lookup_1 _ _ _ _ Hm2 Hd0) | exact (Forall_lookup_1 _ _ _ _ Hm1 Hd0)]. }
      destruct Hdb as (_ & _ & Hmx & _). congruence. }
    destruct (perform_move_returns attacker defender move (rolls k) Hmax)
      as [[[a' d'] messages] Hpm].
    rewrite Hpm.
    destruct (perform_move_frame_energy _ _ _ _ _ _ _ Hpm) as (Hba & Hbd & _).
    edestruct (IH (S k)) as (teams' & performed & -> & Hperf); [exact Hm1 | exact Hm2 | | exact Hrest |].
    { apply teams_same_base_set_team.
      - eapply Forall2_same_base_insert; eassumption.
      - apply teams_same_base_set_team; [|assumption].
        eapply Forall2_same_base_insert; eassumption. }
    eexists _, _. split; [reflexivity|].
    change (((q, messages) :: performed).*1) with (q :: performed.*1). now rewrite Hperf.
Qed.

Lemma StronglySorted_filter {A : Type} (R : A -> A -> Prop) (f : A -> bool) l :
  StronglySorted R l -> StronglySorted R (List.filter f l).
Proof.
  induction 1 as [|a l Hl IH Ha]; simpl; [constructor|].
  destruct (f a); [|assumption]. constructor; [assumption|].
  apply Forall_forall. intros x Hx. apply list_elem_of_In, filter_In in Hx as [Hx _].
  rewrite Forall_forall in Ha. apply Ha. now apply list_elem_of_In.
Qed.

Lemma filter_is_attack_all queue :
  Forall (fun q => passed_over (q_type q) = false) queue ->
  List.filter is_attack queue = queue.
Proof.
  induction 1 as [|q rest Hq _ IH]; [reflexivity|].
  simpl. unfold is_attack at 1. now rewrite Hq, IH.
Qed.

(** C6, as the code has it.  The resolution loop of a doubles turn goes
    once through the actions queued by both sides, in an order that is a
    rearrangement of the queue with every action in front of all actions
    of combatants with a smaller speed.  It calls [perform_move] for the
    attacks among them, in that order, and for nothing else: an action
    of type status, switch or pass is visited and not carried out.  Four
    queued attacks of speeds 1200, 900, 1500, 300 are performed in the
    order 1500, 1200, 900, 300.  The turn returns when no member has max
    HP 0 and every attack names a member of the opposing team. *)
Theorem doubles_resolution_order decide rolls s :
  Forall (fun p => max_hp p <> 0) (d_teams s).1 ->
  Forall (fun p => max_hp p <> 0) (d_teams s).2 ->
  (forall who slot_idx move target,
     decide who slot_idx = QAttack move target ->
     is_Some (team_of (other who) (d_teams s) !! target)) ->
  let queued := doubles_queued decide s in
  let speed := queued_speed (d_teams s) in
  let order := sort_desc speed queued in
  let p1_active := refill (d_teams s).1 (d_p1_active s) in
  let p2_active := refill (d_teams s).2 (d_p2_active s) in
  exists teams performed,
    resolve_queue_performed 0 (d_teams s) order rolls = Some (teams, performed) /\
    doubles_turn decide rolls s
    = Some (mkDoubles (end_phase teams.1 p1_active, end_phase teams.2 p2_active)
                      p1_active p2_active) /\
    Permutation order queued /\
    StronglySorted (fun a b => speed b <= speed a) order /\
    performed.*1 = List.filter is_attack order /\
    StronglySorted (fun a b => speed b <= speed a) performed.*1 /\
    (forall q, q ∈ queued -> passed_over (q_type q) = true -> q ∉ performed.*1) /\
    (map speed queued = [1200; 900; 1500; 300] ->
     Forall (fun q => passed_over (q_type q) = false) queued ->
     map speed performed.*1 = [1500; 1200; 900; 300]).
Proof.
  intros Hm1 Hm2 Haim. cbv zeta.
  set (queued := doubles_queued decide s).
  set (speed := queued_speed (d_teams s)).
  assert (Hq : Forall (fun q => is_Some (team_of (q_side q) (d_teams s) !! q_pokemon q) /\
                                forall move target, q_type q = QAttack move target ->
                                  is_Some (team_of (other (q_side q)) (d_teams s) !! target))
                      (sort_desc speed queued)).
  { apply Forall_forall. intros q Hin. rewrite (sort_desc_perm _ _) in Hin.
    unfold queued, doubles_queued in Hin.
    apply elem_of_app in Hin as [Hin|Hin]; apply queue_side_members in Hin as (Hs & Ht & Hp);
      rewrite Hs, Ht; (split; [exact Hp | apply Haim]). }
  destruct (resolve_queue_performed_attacks (d_teams s) (sort_desc speed queued) rolls
              0%nat (d_teams s) Hm1 Hm2) as (teams & performed & Hres & Hperf);
    [split; apply Forall2_same_base_refl | exact Hq |].
  exists teams, performed.
  assert (Hsorted : StronglySorted (fun a b => speed b <= speed a) (sort_desc speed queued))
    by apply sort_desc_sorted.
  split; [exact Hres|]. split.
  { unfold doubles_turn. cbv zeta. fold (doubles_queued decide s). fold queued. fold speed.
    rewrite resolve_queue_performed_teams, Hres. reflexivity. }
  split; [apply sort_desc_perm|]. split; [exact Hsorted|]. split; [exact Hperf|].
  split; [rewrite Hperf; now apply StronglySorted_filter|]. split.
  - intros q _ Hpass Hin. rewrite Hperf in Hin.
    apply list_elem_of_In, filter_In in Hin as [_ Hin]. unfold is_attack in Hin.
    rewrite Hpass in Hin. discriminate.
  - intros Hspeeds Hall. rewrite Hperf, filter_is_attack_all.
    + clear -Hspeeds. destruct queued as [|a1 [|a2 [|a3 [|a4 [|a5 l]]]]]; try discriminate.
      injection Hspeeds as H1 H2 H3 H4. unfold sort_desc.
      repeat first [rewrite H1 | rewrite H2 | rewrite H3 | rewrite H4
                   | progress cbn [foldr insert_desc map Z.leb Z.compare Pos.compare
                                   Pos.compare_cont]].
      reflexivity.
    + apply Forall_forall. intros q Hin. rewrite (sort_desc_perm _ _) in Hin.
      rewrite Forall_forall in Hall. now apply Hall.
Qed.

Lemma doubles_resolution_order_witness :
  let mk := fun n s => new_pokemon n 100 1000 1000 1000 s 1000 [] in
  let s := mkDoubles ([mk "A" 1200; mk "B" 900], [mk "C" 1500; mk "D" 300])
                     [0; 1]%nat [0; 1]%nat in
  let decide := fun (_ : Player) (_ : nat) =>
                  QAttack (mkMove "Strike" 40 10 "physical" None) 0 in
  let rolls := fun _ : nat => mkRolls 1 1 1 1 1 in
  exists teams performed,
    resolve_queue_performed 0 (d_teams s)
      (sort_desc (queued_speed (d_teams s)) (doubles_queued decide s)) rolls
    = Some (teams, performed) /\
    map (queued_speed (d_teams s)) performed.*1 = [1500; 1200; 900; 300].
Proof.
  cbv zeta.
  destruct (doubles_resolution_order
              (fun _ _ => QAttack (mkMove "Strike" 40 10 "physical" None) 0)
              (fun _ => mkRolls 1 1 1 1 1)
              (mkDoubles ([new_pokemon "A" 100 1000 1000 1000 1200 1000 [];
                           new_pokemon "B" 100 1000 1000 1000 900 1000 []],
                          [new_pokemon "C" 100 1000 1000 1000 1500 1000 [];
                           new_pokemon "D" 100 1000 1000 1000 300 1000 []])
                         [0; 1]%nat [0; 1]%nat))
    as (teams & performed & Hres & _ & _ & _ & _ & _ & _ & Hfour).
  - repeat constructor; simpl; lia.
  - repeat constructor; simpl; lia.
  - intros [] slot_idx move target [= <- <-]; simpl; eauto.
  - exists teams, performed. split; [exact Hres|].
    apply Hfour; [reflexivity | repeat constructor].
Defined.

(** A turn in which only a switch and a status move are chosen.  Player
    1 asks to replace Cbroman by the benched Aquabyte and has Emberfox
    use Heat Mirage (power 0, category "status", 56 energy); player 2
    passes.  Nothing is performed: Cbroman stays active, Emberfox gets no
    speed modifier and pays no energy, and the state after the turn is
    the state before it. *)
Lemma doubles_switch_and_status_dropped :
  let s := mkDoubles ([cbroman; emberfox; aquabyte], [shelltron; mossgoliath; voltaicor])
                     [0; 1]%nat [0; 1]%nat in
  let heat_mirage := mkMove "Heat Mirage" 0 56 "status" (Some (HSpeedBoost OnAttacker 1 3)) in
  let decide := fun (who : Player) (slot_idx : nat) =>
                  match who, slot_idx with
                  | Player1, O => QSwitch 2
                  | Player1, _ => classify_move heat_mirage 0
                  | Player2, _ => QPass
                  end in
  let rolls := fun _ : nat => mkRolls 1 1 1 1 1 in
  heat_mirage ∈ moves emberfox /\
  map q_type (doubles_queued decide s) = [QSwitch 2; QStatus heat_mirage; QPass; QPass] /\
  resolve_queue_performed 0 (d_teams s)
    (sort_desc (queued_speed (d_teams s)) (doubles_queued decide s)) rolls
  = Some (d_teams s, []) /\
  doubles_turn decide rolls s = Some s.
Proof.
  cbv zeta. split; [|split; [|split]].
  - apply list_elem_of_In. vm_compute. tauto.
  - reflexivity.
  - vm_compute. reflexivity.
  - vm_compute. reflexivity.
Qed.
